(** * pro-video-editor: audio pipeline, WAV codec, timeline queries

    A shallow embedding of the deterministic core of the editor:

    - [AudioProcessor] (utils/audioProcessor.ts): [trimAudio],
      [changeVolume], [normalizeAudio], [mixAudioBuffers], [exportToWav],
      the fades [applyFadeIn] and [applyFadeOut], [extractWaveform] and
      [createWaveformVisualization];
    - the editor store (store/editorStore.ts): the clip actions [addClip],
      [removeClip], [updateClip], and the other actions on the timeline,
      the selection, the clipboard, the tracks, the history and the UI;
    - the preview's visible-clip selection (components/VideoPreview.tsx,
      [renderFrame]);
    - the resize handle of a clip on the timeline ([handleResizeStart]);
    - the export orchestration (components/ExportPanel.tsx):
      [handleExport], [processTimelineExport], [processVideoClips],
      [processAudioClips];
    - the effects panel's choice of clip and [addEffect]
      (components/EffectsPanel.tsx).

    Modelling conventions.

    - A JavaScript [number] that holds a time or a sample is a rational
      [Q].  The value of a sample is computed with exact arithmetic: the
      rounding of a stored sample to Float32, NaN and the infinities are
      outside the model.  Numeric equality of samples is [Qeq] ([==]).
    - Where the code turns a time into a count of sample frames
      ([Math.floor(time * sampleRate)], and the [duration] and end time
      that lead to it) the result depends on the rounding of the product
      to a double: these operations are rounded with [roundDouble], the
      IEEE 754 binary64 rounding to nearest, ties to even.
    - A [number] that holds an index or a size is a [Z] (or a [nat] when
      it is a loop counter or a length); a sample rate is a whole number
      of hertz, a [Z].
    - A [Float32Array] is a [list Q]; writing through an index that is
      out of range does nothing (as for typed arrays), reading through
      one gives [None] ([undefined]).
    - [for (let i = 0; i < n; i++)] is [forLoop n].
    - A [throw new Error(msg)] is [Throw msg] in the [result] monad.
    - [createBuffer] and [getChannelData] are the platform's: the
      allocation of zero-filled channels and the projection of a channel.
      The platform refuses to create a buffer without frames; where the
      code computes the frame count ([trimAudio], [mixAudioBuffers]) the
      call is [createBufferOfLength], which throws for a count that is
      not positive.  Where the code copies the shape of a buffer it was
      given, the count is the length of an existing buffer and the call
      is the plain allocation [createBuffer].
    - [Date.now()] is an argument of the actions that read the clock.
    - Drawing on a canvas is the list of the [fillRect] calls made. *)

From Stdlib Require Import ZArith QArith Qreduction Qround Qabs Qminmax Qpower.
From Stdlib Require Import Lia Lqa.
From Stdlib Require Import Sorted Permutation.
From stdpp Require Import base list strings gmap pretty.

Open Scope Q_scope.
Set Warnings "-register-all".

(** ** Errors *)

Inductive result (A : Type) : Type :=
| Ok (a : A)
| Throw (msg : string).
Arguments Ok {A} a.
Arguments Throw {A} msg.

#[export] Instance result_ret : MRet result := fun A a => Ok a.

#[export] Instance result_bind : MBind result := fun A B k r =>
  match r with
  | Ok a => k a
  | Throw msg => Throw msg
  end.

(** ** Loops and typed arrays *)

Definition forLoop {S : Type} (n : nat) (body : nat -> S -> S) (s : S) : S :=
  fold_left (fun st i => body i st) (seq 0 n) s.

(** [data[i]] for a numeric index: [undefined] outside the array. *)
Definition jsIndex (data : list Q) (i : Z) : option Q :=
  if (i <? 0)%Z then None else data !! Z.to_nat i.

(** [v || 0] on a sample: [undefined] and [0] are falsy. *)
Definition orZero (v : option Q) : Q :=
  match v with
  | Some x => if Qeq_bool x 0 then 0 else x
  | None => 0
  end.

(** [data[i]] inside a loop that stays below [data.length] (it does for
    every channel of a well-formed buffer). *)
Definition sample (data : list Q) (i : nat) : Q := default 0 (data !! i).

(** ** Doubles

    The products and quotients that decide a count of frames are rounded
    as the platform rounds them: to the nearest binary64 value, ties to
    the even significand.  Values of magnitude [2^1024] and more, which a
    double cannot hold, do not occur as times or rates. *)

(** [2^k], for [k] of either sign. *)
Definition pow2 (k : Z) : Q := Qpower 2 k.

(** The binary exponent of a positive rational: [2^e <= x < 2^(e+1)].
    The difference of the bit lengths of numerator and denominator is
    [e] or [e + 1]. *)
Definition ilog2 (x : Q) : Z :=
  let e := (Z.log2 (Qnum x) - Z.log2 (Z.pos (Qden x)))%Z in
  if Qle_bool (pow2 e) x then e else (e - 1)%Z.

(** The nearest integer, a tie going to the even one. *)
Definition roundNearestEven (y : Q) : Z :=
  let f := Qfloor y in
  match Qcompare (y - inject_Z f) (1 # 2) with
  | Lt => f
  | Gt => (f + 1)%Z
  | Eq => if Z.even f then f else (f + 1)%Z
  end.

(** A positive rational rounded to 53 significant bits; below [2^-1022]
    the spacing stays [2^-1074] (subnormal numbers). *)
Definition roundPositive (a : Q) : Q :=
  let e := Z.max (ilog2 a) (-1022) in
  let ulp := pow2 (e - 52) in
  inject_Z (roundNearestEven (a / ulp)) * ulp.

(** The double nearest to [x].  [roundDouble (3 # 100)] is the double
    written [0.03]. *)
Definition roundDouble (x : Q) : Q :=
  let x := Qred x in
  match Qnum x with
  | Z0 => 0
  | Zpos _ => roundPositive x
  | Zneg _ => - roundPositive (- x)
  end.

(** ** AudioBuffer *)

Record AudioBuffer : Type := mkAudioBuffer {
  numberOfChannels : nat;
  bufLength : nat;            (* AudioBuffer.length, in sample frames *)
  sampleRate : Z;
  channelData : list (list Q)
}.

(** AudioBuffer.duration: [length / sampleRate], a double. *)
Definition duration (b : AudioBuffer) : Q :=
  roundDouble (inject_Z (Z.of_nat (bufLength b)) / inject_Z (sampleRate b)).

(** [b.getChannelData(channel)] *)
Definition getChannelData (b : AudioBuffer) (channel : nat) : list Q :=
  default [] (channelData b !! channel).

(** The array returned by [getChannelData] aliases the buffer: writing to
    it is writing to the buffer's channel. *)
Definition setChannelData (b : AudioBuffer) (channel : nat) (data : list Q)
  : AudioBuffer :=
  mkAudioBuffer (numberOfChannels b) (bufLength b) (sampleRate b)
                (<[channel := data]> (channelData b)).

(** [audioContext.createBuffer(channels, len, rate)] with the shape of an
    existing buffer: zero-filled. *)
Definition createBuffer (channels : nat) (len : nat) (rate : Z) : AudioBuffer :=
  mkAudioBuffer channels len rate (replicate channels (replicate len 0)).

(** [audioContext.createBuffer(channels, length, rate)] with a computed
    [length]: a count of frames that is not positive is refused with a
    [NotSupportedError] (a negative count is read as an unsigned one,
    near [2^32], and refused as well). *)
Definition createBufferOfLength (channels : nat) (length : Z) (rate : Z)
  : result AudioBuffer :=
  if (length <=? 0)%Z then Throw "NotSupportedError"
  else Ok (createBuffer channels (Z.to_nat length) rate).

(** The data-model invariant of a PCM buffer. *)
Definition wfBuffer (b : AudioBuffer) : Prop :=
  length (channelData b) = numberOfChannels b /\
  (1 <= numberOfChannels b)%nat /\
  (0 < sampleRate b)%Z /\
  Forall (fun ch => length ch = bufLength b) (channelData b).

Definition wfBufferb (b : AudioBuffer) : bool :=
  (length (channelData b) =? numberOfChannels b)%nat &&
  (1 <=? numberOfChannels b)%nat &&
  (0 <? sampleRate b)%Z &&
  forallb (fun ch => (length ch =? bufLength b)%nat) (channelData b).

(** ** AudioProcessor *)

Inductive AudioContextState := running | suspended | closed.

Record AudioProcessor : Type := mkAudioProcessor {
  audioContext : option AudioContextState
}.

Definition initialize (p : AudioProcessor) : result AudioProcessor :=
  match audioContext p with
  | None => Throw "Audio context not supported"
  | Some suspended => Ok (mkAudioProcessor (Some running))
  | Some _ => Ok p
  end.

(** [length = endSample - startSample] sizes the new buffer and bounds the
    inner loop. *)
Definition trimAudio (p : AudioProcessor) (audioBuffer : AudioBuffer)
    (startTime endTime : Q) : result AudioBuffer :=
  match audioContext p with
  | None => Throw "Audio context not initialized"
  | Some _ =>
    let rate := sampleRate audioBuffer in
    let startSample := Qfloor (roundDouble (startTime * inject_Z rate)) in
    let endSample := Qfloor (roundDouble (endTime * inject_Z rate)) in
    let length := (endSample - startSample)%Z in
    trimmedBuffer ← createBufferOfLength (numberOfChannels audioBuffer) length rate;
    Ok (forLoop (numberOfChannels audioBuffer) (fun channel trimmedBuffer =>
          let originalData := getChannelData audioBuffer channel in
          let trimmedData := getChannelData trimmedBuffer channel in
          setChannelData trimmedBuffer channel
            (forLoop (Z.to_nat length) (fun i trimmedData =>
               <[i := orZero (jsIndex originalData (startSample + Z.of_nat i))]>
                 trimmedData) trimmedData))
          trimmedBuffer)
  end.

Definition changeVolume (p : AudioProcessor) (audioBuffer : AudioBuffer)
    (volumeMultiplier : Q) : result AudioBuffer :=
  match audioContext p with
  | None => Throw "Audio context not initialized"
  | Some _ =>
    let processedBuffer :=
      createBuffer (numberOfChannels audioBuffer) (bufLength audioBuffer)
                   (sampleRate audioBuffer) in
    Ok (forLoop (numberOfChannels audioBuffer) (fun channel processedBuffer =>
          let originalData := getChannelData audioBuffer channel in
          let processedData := getChannelData processedBuffer channel in
          setChannelData processedBuffer channel
            (forLoop (bufLength audioBuffer) (fun i processedData =>
               <[i := sample originalData i * volumeMultiplier]> processedData)
               processedData))
          processedBuffer)
  end.

(** The peak search of [normalizeAudio]: [Math.max(peak, Math.abs(data[i]))]
    over every channel, starting from 0. *)
Definition findPeak (audioBuffer : AudioBuffer) : Q :=
  forLoop (numberOfChannels audioBuffer) (fun channel peak =>
    let data := getChannelData audioBuffer channel in
    forLoop (length data) (fun i peak => Qmax peak (Qabs (sample data i))) peak)
    0.

Definition normalizeAudio (p : AudioProcessor) (audioBuffer : AudioBuffer)
  : result AudioBuffer :=
  match audioContext p with
  | None => Throw "Audio context not initialized"
  | Some _ =>
    let peak := findPeak audioBuffer in
    if Qeq_bool peak 0 then Ok audioBuffer
    else
      let normalizationGain := (95 # 100) / peak in
      changeVolume p audioBuffer normalizationGain
  end.

(** An entry of the list given to [mixAudioBuffers]:
    [{ buffer; startTime; volume }]. *)
Record MixEntry : Type := mkMixEntry {
  mixBuffer : AudioBuffer;
  mixStartTime : Q;
  mixVolume : Q
}.

(** [for (let i = start; cond(i); i++) body]: a loop with a compound
    exit test.  [fuel] bounds the number of iterations. *)
Fixpoint forWhile {S : Type} (fuel : nat) (i : nat) (cond : nat -> S -> bool)
    (body : nat -> S -> S) (s : S) : S :=
  match fuel with
  | O => s
  | Datatypes.S fuel' =>
    if cond i s then forWhile fuel' (Datatypes.S i) cond body (body i s) else s
  end.

(** [data[i] += v] for a numeric index. *)
Definition jsAddAt (data : list Q) (i : Z) (v : Q) : list Q :=
  if (i <? 0)%Z then data else alter (fun x => x + v) (Z.to_nat i) data.

(** The innermost loop of [mixAudioBuffers]; it stops at
    [sourceData.length] at the latest. *)
Definition addSource (sourceData : list Q) (startSample : Z) (volume : Q)
    (mixedData : list Q) : list Q :=
  forWhile (length sourceData) 0
    (fun i mixedData =>
       (i <? length sourceData)%nat &&
       (startSample + Z.of_nat i <? Z.of_nat (length mixedData))%Z)
    (fun i mixedData =>
       jsAddAt mixedData (startSample + Z.of_nat i) (sample sourceData i * volume))
    mixedData.

(** [Math.max(...l)] on a non-empty list of channel counts. *)
Definition maxOf (l : list nat) : nat := fold_right Nat.max 0%nat l.

Definition mixAudioBuffers (p : AudioProcessor) (buffers : list MixEntry)
  : result AudioBuffer :=
  match audioContext p, buffers with
  | None, _ | _, [] => Throw "Invalid audio context or no buffers provided"
  | Some _, first :: _ =>
    let totalLength :=
      fold_left (fun totalLength e =>
                   let endTime :=
                     roundDouble (mixStartTime e + duration (mixBuffer e)) in
                   Qmax totalLength endTime) buffers 0 in
    let rate := sampleRate (mixBuffer first) in
    let totalSamples := Qfloor (roundDouble (totalLength * inject_Z rate)) in
    let channels := maxOf (map (fun b => numberOfChannels (mixBuffer b)) buffers) in
    mixedBuffer ← createBufferOfLength channels totalSamples rate;
    Ok (forLoop channels (fun channel mixedBuffer =>
          let mixedData := getChannelData mixedBuffer channel in
          setChannelData mixedBuffer channel
            (fold_left (fun mixedData e =>
               let startSample :=
                 Qfloor (roundDouble (mixStartTime e * inject_Z rate)) in
               let sourceChannel :=
                 Z.to_nat (Z.min (Z.of_nat channel)
                                 (Z.of_nat (numberOfChannels (mixBuffer e)) - 1)) in
               let sourceData := getChannelData (mixBuffer e) sourceChannel in
               addSource sourceData startSample (mixVolume e) mixedData)
             buffers mixedData))
          mixedBuffer)
  end.

(** ** DataView over a zero-filled ArrayBuffer: a list of bytes *)

Definition setUint8 (view : list Z) (offset : nat) (v : Z) : list Z :=
  <[offset := (v mod 256)%Z]> view.

(** [view.setUint16(offset, v, true)] *)
Definition setUint16 (view : list Z) (offset : nat) (v : Z) : list Z :=
  setUint8 (setUint8 view offset v) (offset + 1) (v / 256).

(** [view.setUint32(offset, v, true)] *)
Definition setUint32 (view : list Z) (offset : nat) (v : Z) : list Z :=
  setUint16 (setUint16 view offset v) (offset + 2) (v / 65536).

(** ToIntegerOrInfinity on a finite number: truncation towards zero. *)
Definition Qtrunc (x : Q) : Z := Z.quot (Qnum x) (Zpos (Qden x)).

(** [view.setInt16(offset, x, true)]: the number is truncated and taken
    modulo 2^16; the two bytes are its two's complement. *)
Definition setInt16 (view : list Z) (offset : nat) (x : Q) : list Z :=
  setUint16 view offset (Qtrunc x).

Definition charCodeAt (s : string) (i : nat) : Z :=
  match String.get i s with
  | Some a => Z.of_nat (Ascii.nat_of_ascii a)
  | None => 0%Z
  end.

Definition writeString (view : list Z) (offset : nat) (s : string) : list Z :=
  forLoop (String.length s)
          (fun i view => setUint8 view (offset + i) (charCodeAt s i)) view.

Definition Qltb (x y : Q) : bool := negb (Qle_bool y x).

(** The value handed to [setInt16] for one sample. *)
Definition scaleSample (x : Q) : Q :=
  let s := Qmax (-1) (Qmin 1 x) in
  if Qltb s 0 then s * 32768 else s * 32767.

Definition exportToWav (audioBuffer : AudioBuffer) : list Z :=
  let channels := numberOfChannels audioBuffer in
  let rate := sampleRate audioBuffer in
  let len := bufLength audioBuffer in
  let view := replicate (44 + len * channels * 2) 0%Z in
  let dataSize := Z.of_nat (len * channels * 2) in
  let view := writeString view 0 "RIFF" in
  let view := setUint32 view 4 (36 + dataSize) in
  let view := writeString view 8 "WAVE" in
  let view := writeString view 12 "fmt " in
  let view := setUint32 view 16 16 in
  let view := setUint16 view 20 1 in
  let view := setUint16 view 22 (Z.of_nat channels) in
  let view := setUint32 view 24 rate in
  let view := setUint32 view 28 (rate * Z.of_nat channels * 2) in
  let view := setUint16 view 32 (Z.of_nat channels * 2) in
  let view := setUint16 view 34 16 in
  let view := writeString view 36 "data" in
  let view := setUint32 view 40 dataSize in
  fst (forLoop len (fun i st =>
         forLoop channels (fun channel '(view, offset) =>
           (setInt16 view offset
                     (scaleSample (sample (getChannelData audioBuffer channel) i)),
            (offset + 2)%nat)) st)
         (view, 44%nat)).

(** ** The timeline model (types/editor.ts) *)

Record File : Type := mkFile { fileName : string; fileType : string }.

Inductive EffectType :=
| blur | brightness | contrast | saturation | hue | sepia | grayscale | invert
| lowpass | highpass | reverb | echo | compress | normalize.

(** [Effect] and [AudioEffect] in one record: a video effect has no
    [parameters], an audio effect no [intensity]. *)
Record Effect : Type := mkEffect {
  effectType : EffectType;
  intensity : Q;
  parameters : gmap string Q;
  enabled : bool
}.

(** [VideoClip | AudioClip | TextClip], with the fields that the store,
    the preview and the export read.  A [TextClip] has no [file]. *)
Record Clip : Type := mkClip {
  id : string;
  file : option File;
  clipDuration : Q;           (* clip.duration *)
  startTime : Q;
  endTime : Q;
  trimStart : Q;
  trimEnd : Q;
  volume : Q;
  track : Z;
  effects : list Effect
}.

Inductive TrackType := video | audio | text.

Record Track : Type := mkTrack {
  trackId : string;           (* track.id *)
  trackType : TrackType;      (* track.type *)
  muted : bool;
  locked : bool;
  visible : bool;
  clips : list Clip
}.

Record Timeline : Type := mkTimeline {
  timelineDuration : Q;       (* timeline.duration *)
  tracks : list Track
}.

(** The part of [EditorState] that the clip actions touch. *)
Record EditorState : Type := mkEditorState {
  timeline : Timeline;        (* project.timeline *)
  selectedClips : list string (* project.selectedClips *)
}.

(** [Partial<Clip>]: the fields present in an update object. *)
Record ClipUpdates : Type := mkClipUpdates {
  newId : option string;
  newStartTime : option Q;
  newEndTime : option Q;
  newTrimStart : option Q;
  newTrimEnd : option Q;
  newVolume : option Q;
  newEffects : option (list Effect)
}.

(** ** Array helpers *)

(** [Array.prototype.findIndex]; [None] for -1. *)
Fixpoint findIndex {A : Type} (f : A -> bool) (l : list A) : option nat :=
  match l with
  | [] => None
  | x :: l' => if f x then Some 0%nat else S <$> findIndex f l'
  end.

(** [Array.prototype.sort(compare)] is stable; insertion from the right
    keeps an element before the later ones it compares equal to. *)
Fixpoint insertBy {A : Type} (compare : A -> A -> Q) (x : A) (l : list A)
  : list A :=
  match l with
  | [] => [x]
  | y :: l' =>
    if Qle_bool (compare x y) 0 then x :: y :: l'
    else y :: insertBy compare x l'
  end.

Definition sortBy {A : Type} (compare : A -> A -> Q) (l : list A) : list A :=
  fold_right (insertBy compare) [] l.

(** ** The editor store (store/editorStore.ts) *)

Definition pushClip (clip : Clip) (t : Track) : Track :=
  mkTrack (trackId t) (trackType t) (muted t) (locked t) (visible t)
          (clips t ++ [clip]).

Definition addClip (state : EditorState) (trackId' : string) (clip : Clip)
  : EditorState :=
  let tl := timeline state in
  match findIndex (fun t => String.eqb (trackId t) trackId') (tracks tl) with
  | Some k =>
    let tracks' := alter (pushClip clip) k (tracks tl) in
    let clipEnd := startTime clip + (endTime clip - startTime clip) in
    let duration' :=
      if Qltb (timelineDuration tl) clipEnd then clipEnd
      else timelineDuration tl in
    mkEditorState (mkTimeline duration' tracks') (selectedClips state)
  | None => state
  end.

Definition removeClip (state : EditorState) (clipId : string) : EditorState :=
  let tl := timeline state in
  mkEditorState
    (mkTimeline (timelineDuration tl)
       (map (fun t =>
               mkTrack (trackId t) (trackType t) (muted t) (locked t) (visible t)
                 (List.filter (fun clip => negb (String.eqb (id clip) clipId))
                              (clips t)))
            (tracks tl)))
    (List.filter (fun i => negb (String.eqb i clipId)) (selectedClips state)).

(** [Object.assign(clip, updates)] *)
Definition assignClip (updates : ClipUpdates) (clip : Clip) : Clip :=
  mkClip (default (id clip) (newId updates))
         (file clip)
         (clipDuration clip)
         (default (startTime clip) (newStartTime updates))
         (default (endTime clip) (newEndTime updates))
         (default (trimStart clip) (newTrimStart updates))
         (default (trimEnd clip) (newTrimEnd updates))
         (default (volume clip) (newVolume updates))
         (track clip)
         (default (effects clip) (newEffects updates)).

Definition updateClip (state : EditorState) (clipId : string)
    (updates : ClipUpdates) : EditorState :=
  let tl := timeline state in
  mkEditorState
    (mkTimeline (timelineDuration tl)
       (map (fun t =>
               match findIndex (fun clip => String.eqb (id clip) clipId)
                               (clips t) with
               | Some clipIndex =>
                 mkTrack (trackId t) (trackType t) (muted t) (locked t)
                         (visible t)
                         (alter (assignClip updates) clipIndex (clips t))
               | None => t
               end)
            (tracks tl)))
    (selectedClips state).

(** ** The preview's clip selection (VideoPreview.tsx, renderFrame) *)

Definition isActive (currentTime : Q) (clip : Clip) : bool :=
  Qle_bool (startTime clip) currentTime && Qltb currentTime (endTime clip).

Definition byStartTime (a b : Clip) : Q := startTime a - startTime b.

Definition visibleClips (tl : Timeline) (currentTime : Q) : list Clip :=
  sortBy byStartTime
    (List.filter (isActive currentTime)
       (flat_map clips (List.filter visible (tracks tl)))).

(** ** The export (ExportPanel.tsx) *)

Inductive Format := mp4 | webm | mov | avi | gif.
Inductive Quality := low | medium | high | ultra.

Record ExportSettings : Type := mkExportSettings {
  format : Format;
  quality : Quality
}.

(** The string built by [getFFmpegFilterString], kept symbolic. *)
Inductive FilterString :=
| EqFilter (name : string) (value : Q)   (* eq=<name>=<value> *)
| HueFilter (degrees : Q)                (* hue=h=<degrees> *)
| BoxBlur (radius : Q)                   (* boxblur=<radius> *)
| ColorChannelMixer (matrix : string)
| Negate.

(** What the transcoding service returns is not computed here: a blob is
    the term that names the operations that produced it. *)
Inductive Blob :=
| FileBlob (f : File)
| TrimmedVideo (input : Blob) (startTime endTime : Q)
| FilteredVideo (input : Blob) (filter : FilterString)
| MergedVideos (inputs : list Blob)
| WavBlob (bytes : list Z)
| AudioAdded (video audio : Blob)
| Converted (input : Blob) (format : Format) (quality : Quality).

(** A call on [videoProcessor] or [audioProcessor], or a UI effect of the
    export. *)
Inductive Call :=
| VideoInitialize
| AudioInitialize
| OnProgress
| SetExportProgress (percent : Z)
| TrimVideo (input : Blob) (startTime endTime : Q)
| ApplyVideoFilter (input : Blob) (filter : FilterString)
| MergeVideos (inputs : list Blob)
| AddAudioToVideo (video audio : Blob)
| ConvertToFormat (input : Blob) (format : Format) (quality : Quality)
| LoadAudioFile (f : File)
| TrimAudio (startTime endTime : Q)
| ChangeVolume (volumeMultiplier : Q)
| NormalizeAudio
| ApplyLowPassFilter (frequency : Q)
| ApplyHighPassFilter (frequency : Q)
| ApplyReverb (reverbTime : Q)
| MixAudioBuffers (count : nat)
| ExportToWav
| DownloadBlob (b : Blob).

(** The calls that only prepare the processors. *)
Definition isSetupCall (c : Call) : bool :=
  match c with
  | VideoInitialize | AudioInitialize | OnProgress => true
  | _ => false
  end.

(** An asynchronous step of the export: it appends to the log of calls
    made so far and returns or throws. *)
Definition Export (A : Type) : Type := list Call -> list Call * result A.

#[export] Instance Export_ret : MRet Export := fun A a log => (log, Ok a).

#[export] Instance Export_bind : MBind Export := fun A B k m log =>
  match m log with
  | (log', Ok a) => k a log'
  | (log', Throw msg) => (log', Throw msg)
  end.

Definition call (c : Call) : Export unit := fun log => (log ++ [c], Ok tt).

Definition lift {A : Type} (r : result A) : Export A := fun log => (log, r).

(** [for (const x of l) { acc = await body(acc, x) }] *)
Fixpoint forOf {A S : Type} (l : list A) (body : S -> A -> Export S) (s : S)
  : Export S :=
  match l with
  | [] => mret s
  | x :: l' => s' ← body s x; forOf l' body s'
  end.

Definition getFFmpegFilterString (effect : Effect) : option FilterString :=
  match effectType effect with
  | brightness => Some (EqFilter "brightness" ((intensity effect - 50) / 100))
  | contrast => Some (EqFilter "contrast" (1 + (intensity effect - 50) / 100))
  | saturation => Some (EqFilter "saturation" (1 + (intensity effect - 50) / 100))
  | hue => Some (HueFilter (intensity effect * (36 # 10)))
  | blur => Some (BoxBlur (intensity effect / 10))
  | grayscale => Some (ColorChannelMixer ".3:.4:.3:0:.3:.4:.3:0:.3:.4:.3")
  | sepia =>
    Some (ColorChannelMixer ".393:.769:.189:0:.349:.686:.168:0:.272:.534:.131")
  | invert => Some Negate
  | _ => None
  end.

(** [x || d] on a number that may be absent. *)
Definition orDefault (x : option Q) (d : Q) : Q :=
  match x with
  | Some v => if Qeq_bool v 0 then d else v
  | None => d
  end.

Section ExportPanel.

(** The platform behind the two processors. *)
Variable ffmpegLoad : result unit.          (* the outcome of ffmpeg.load *)
Variable decodeAudioData : File -> AudioBuffer.
Variable renderLowPass renderHighPass renderReverb
  : AudioBuffer -> Q -> AudioBuffer.        (* OfflineAudioContext rendering *)

Variable audioProcessor : AudioProcessor.
Variable videoLoaded : bool.                (* videoProcessor.isLoaded *)

Definition videoInitialize : Export unit :=
  _ ← call VideoInitialize;
  if videoLoaded then mret tt else lift ffmpegLoad.

Definition audioInitialize : Export unit :=
  _ ← call AudioInitialize;
  _ ← lift (initialize audioProcessor);
  mret tt.

Definition requireContext : result unit :=
  match audioContext audioProcessor with
  | None => Throw "Audio context not initialized"
  | Some _ => Ok tt
  end.

Definition applyEffect (audioBuffer : AudioBuffer) (effect : Effect)
  : Export AudioBuffer :=
  if negb (enabled effect) then mret audioBuffer
  else
    match effectType effect with
    | normalize =>
      _ ← call NormalizeAudio;
      lift (normalizeAudio audioProcessor audioBuffer)
    | lowpass =>
      let frequency := orDefault (parameters effect !! "frequency") 1000 in
      _ ← call (ApplyLowPassFilter frequency);
      _ ← lift requireContext;
      mret (renderLowPass audioBuffer frequency)
    | highpass =>
      let frequency := orDefault (parameters effect !! "frequency") 100 in
      _ ← call (ApplyHighPassFilter frequency);
      _ ← lift requireContext;
      mret (renderHighPass audioBuffer frequency)
    | reverb =>
      let time := orDefault (parameters effect !! "time") 2 in
      _ ← call (ApplyReverb time);
      _ ← lift requireContext;
      mret (renderReverb audioBuffer time)
    | _ => mret audioBuffer
    end.

(** The loop of [processAudioClips]: load, trim, volume, effects, push. *)
Definition collectAudioBuffers (clips : list Clip) : Export (list MixEntry) :=
  forOf clips (fun audioBuffers clip =>
    let f := default (mkFile "" "") (file clip) in
    _ ← call (LoadAudioFile f);
    _ ← lift requireContext;
    let audioBuffer := decodeAudioData f in
    audioBuffer ←
      (if Qltb 0 (trimStart clip) || Qltb (trimEnd clip) (clipDuration clip)
       then
         _ ← call (TrimAudio (trimStart clip) (trimEnd clip));
         lift (trimAudio audioProcessor audioBuffer (trimStart clip) (trimEnd clip))
       else mret audioBuffer);
    audioBuffer ←
      (if negb (Qeq_bool (volume clip) 1)
       then
         _ ← call (ChangeVolume (volume clip));
         lift (changeVolume audioProcessor audioBuffer (volume clip))
       else mret audioBuffer);
    audioBuffer ← forOf (effects clip) applyEffect audioBuffer;
    mret (audioBuffers ++
          [mkMixEntry audioBuffer (startTime clip) (orDefault (Some (volume clip)) 1)]))
    [].

(** [processAudioClips] up to the mix. *)
Definition mixAudioClips (clips : list Clip) : Export AudioBuffer :=
  audioBuffers ← collectAudioBuffers clips;
  _ ← call (MixAudioBuffers (length audioBuffers));
  lift (mixAudioBuffers audioProcessor audioBuffers).

Definition processAudioClips (clips : list Clip) : Export Blob :=
  mixedBuffer ← mixAudioClips clips;
  _ ← call ExportToWav;
  mret (WavBlob (exportToWav mixedBuffer)).

(** [processVideoClips] is only called with at least one clip; on none,
    [processedFiles[0]] is undefined and reading it throws. *)
Definition processVideoClips (clips : list Clip) : Export Blob :=
  processedFiles ← forOf clips (fun processedFiles clip =>
    let processedBlob := FileBlob (default (mkFile "" "") (file clip)) in
    processedBlob ←
      (if Qltb 0 (trimStart clip) || Qltb (trimEnd clip) (clipDuration clip)
       then
         _ ← call (TrimVideo processedBlob (trimStart clip) (trimEnd clip));
         mret (TrimmedVideo processedBlob (trimStart clip) (trimEnd clip))
       else mret processedBlob);
    processedBlob ← forOf (effects clip) (fun processedBlob effect =>
      if negb (enabled effect) then mret processedBlob
      else
        match getFFmpegFilterString effect with
        | Some filterString =>
          _ ← call (ApplyVideoFilter processedBlob filterString);
          mret (FilteredVideo processedBlob filterString)
        | None => mret processedBlob
        end) processedBlob;
    mret (processedFiles ++ [processedBlob])) [];
  match processedFiles with
  | _ :: _ :: _ =>
    _ ← call (MergeVideos processedFiles);
    mret (MergedVideos processedFiles)
  | [single] => mret single
  | [] => lift (Throw "Cannot read properties of undefined")
  end.

Definition hasFile (clip : Clip) : bool := bool_decide (is_Some (file clip)).

Definition isVideoTrack (t : Track) : bool :=
  match trackType t with video => true | _ => false end.

Definition isAudioTrack (t : Track) : bool :=
  match trackType t with audio => true | _ => false end.

Definition exportVideoClips (tl : Timeline) : list Clip :=
  sortBy byStartTime
    (List.filter hasFile
       (flat_map clips
          (List.filter (fun t => isVideoTrack t && visible t) (tracks tl)))).

Definition exportAudioClips (tl : Timeline) : list Clip :=
  sortBy byStartTime
    (List.filter hasFile
       (flat_map clips
          (List.filter (fun t => isAudioTrack t && negb (muted t)) (tracks tl)))).

Definition needsConversion (s : ExportSettings) : bool :=
  negb (match format s with mp4 => true | _ => false end) ||
  negb (match quality s with high => true | _ => false end).

Definition processTimelineExport (tl : Timeline) (exportSettings : ExportSettings)
  : Export unit :=
  _ ← videoInitialize;
  _ ← audioInitialize;
  _ ← call OnProgress;
  let videoClips := exportVideoClips tl in
  let audioClips := exportAudioClips tl in
  match videoClips, audioClips with
  | [], [] => lift (Throw "No clips to export")
  | _, _ =>
    finalVideoBlob ←
      (match videoClips with
       | [] => mret None
       | _ =>
         b ← processVideoClips videoClips;
         _ ← call (SetExportProgress 80);
         mret (Some b)
       end);
    finalAudioBlob ←
      (match audioClips with
       | [] => mret None
       | _ =>
         b ← processAudioClips audioClips;
         _ ← call (SetExportProgress 90);
         mret (Some b)
       end);
    finalBlob ←
      (match finalVideoBlob, finalAudioBlob with
       | Some v, Some a =>
         _ ← call (AddAudioToVideo v a);
         mret (AudioAdded v a)
       | Some v, None => mret v
       | None, Some a => mret a
       | None, None => lift (Throw "No valid output generated")
       end);
    finalBlob ←
      (if needsConversion exportSettings
       then
         _ ← call (ConvertToFormat finalBlob (format exportSettings)
                                   (quality exportSettings));
         mret (Converted finalBlob (format exportSettings) (quality exportSettings))
       else mret finalBlob);
    _ ← call (SetExportProgress 95);
    _ ← call (DownloadBlob finalBlob);
    call (SetExportProgress 100)
  end.

End ExportPanel.

(** [defaultState] of the store, as far as the clip actions see it. *)
Definition defaultState : EditorState :=
  mkEditorState
    (mkTimeline 0
       [mkTrack "video-track-1" video false false true [];
        mkTrack "audio-track-1" audio false false true []])
    [].

(** ** Fades and the waveform overview (utils/audioProcessor.ts) *)

(** [gain = i / fadeSamples] below [fadeSamples], 1 from there on. *)
Definition applyFadeIn (p : AudioProcessor) (audioBuffer : AudioBuffer)
    (fadeDuration : Q) : result AudioBuffer :=
  match audioContext p with
  | None => Throw "Audio context not initialized"
  | Some _ =>
    let rate := sampleRate audioBuffer in
    let fadeSamples := Qfloor (roundDouble (fadeDuration * inject_Z rate)) in
    let processedBuffer :=
      createBuffer (numberOfChannels audioBuffer) (bufLength audioBuffer) rate in
    Ok (forLoop (numberOfChannels audioBuffer) (fun channel processedBuffer =>
          let originalData := getChannelData audioBuffer channel in
          let processedData := getChannelData processedBuffer channel in
          setChannelData processedBuffer channel
            (forLoop (bufLength audioBuffer) (fun i processedData =>
               let gain :=
                 if (Z.of_nat i <? fadeSamples)%Z
                 then inject_Z (Z.of_nat i) / inject_Z fadeSamples
                 else 1 in
               <[i := sample originalData i * gain]> processedData)
               processedData))
          processedBuffer)
  end.

(** [gain = (length - i) / fadeSamples] from [fadeStart] on, 1 before. *)
Definition applyFadeOut (p : AudioProcessor) (audioBuffer : AudioBuffer)
    (fadeDuration : Q) : result AudioBuffer :=
  match audioContext p with
  | None => Throw "Audio context not initialized"
  | Some _ =>
    let rate := sampleRate audioBuffer in
    let fadeSamples := Qfloor (roundDouble (fadeDuration * inject_Z rate)) in
    let fadeStart := (Z.of_nat (bufLength audioBuffer) - fadeSamples)%Z in
    let processedBuffer :=
      createBuffer (numberOfChannels audioBuffer) (bufLength audioBuffer) rate in
    Ok (forLoop (numberOfChannels audioBuffer) (fun channel processedBuffer =>
          let originalData := getChannelData audioBuffer channel in
          let processedData := getChannelData processedBuffer channel in
          setChannelData processedBuffer channel
            (forLoop (bufLength audioBuffer) (fun i processedData =>
               let gain :=
                 if (fadeStart <=? Z.of_nat i)%Z
                 then inject_Z (Z.of_nat (bufLength audioBuffer) - Z.of_nat i)
                      / inject_Z fadeSamples
                 else 1 in
               <[i := sample originalData i * gain]> processedData)
               processedData))
          processedBuffer)
  end.

(** [width] is a whole number of pixels.  [samplesPerPixel] is only used
    when the outer loop runs, that is for [0 < width], where
    [Math.floor(length / width)] is the integer quotient. *)
Definition extractWaveform (audioBuffer : AudioBuffer) (width : Z) : list Q :=
  let channelData := getChannelData audioBuffer 0 in
  let samplesPerPixel := Z.to_nat (Z.of_nat (length channelData) / width) in
  forLoop (Z.to_nat width) (fun i waveform =>
    let start := (i * samplesPerPixel)%nat in
    let end' := (start + samplesPerPixel)%nat in
    let max :=
      forWhile samplesPerPixel start
        (fun j _ => (j <? end')%nat && (j <? length channelData)%nat)
        (fun j max => Qmax max (Qabs (sample channelData j))) 0 in
    waveform ++ [max]) [].

(** ** The waveform picture (utils/audioProcessor.ts) *)

(** A [ctx.fillRect(x, y, width, height)] call. *)
Record Rect : Type := mkRect {
  rectX : Q;
  rectY : Q;
  rectWidth : Q;
  rectHeight : Q
}.

(** The bars painted on the canvas, in order; the data URL made of them
    is the platform's.  [barWidth] is only used when there is a bar. *)
Definition createWaveformVisualization (waveform : list Q) (width height : Q)
  : list Rect :=
  let barWidth := width / inject_Z (Z.of_nat (length waveform)) in
  forLoop (length waveform) (fun i bars =>
    let barHeight := sample waveform i * height in
    let x := inject_Z (Z.of_nat i) * barWidth in
    let y := (height - barHeight) / 2 in
    bars ++ [mkRect x y (barWidth - 1) barHeight]) [].

(** ** The export button (ExportPanel.tsx, handleExport) *)

Inductive ExportStatus :=
| statusIdle | statusProcessing | statusCompleted | statusError.

(** The four [useState] cells of the panel that [handleExport] writes. *)
Record ExportPanelState : Type := mkExportPanelState {
  isExporting : bool;
  exportProgress : Z;
  exportStatus : ExportStatus;
  exportError : string
}.

(** The effect of one call of the export on the panel: only
    [setExportProgress] writes a cell. *)
Definition panelStep (st : ExportPanelState) (c : Call) : ExportPanelState :=
  match c with
  | SetExportProgress percent =>
    mkExportPanelState (isExporting st) percent (exportStatus st) (exportError st)
  | _ => st
  end.

Section HandleExport.

Variable ffmpegLoad : result unit.
Variable decodeAudioData : File -> AudioBuffer.
Variable renderLowPass renderHighPass renderReverb
  : AudioBuffer -> Q -> AudioBuffer.
Variable audioProcessor : AudioProcessor.
Variable videoLoaded : bool.

(** [try { ... } catch (error) { ... } finally { setIsExporting(false) }]:
    the calls made and the panel's state when the handler is done. *)
Definition handleExport (tl : Timeline) (exportSettings : ExportSettings)
  : list Call * ExportPanelState :=
  let st := mkExportPanelState true 0 statusProcessing "" in
  match processTimelineExport ffmpegLoad decodeAudioData renderLowPass
          renderHighPass renderReverb audioProcessor videoLoaded
          tl exportSettings [] with
  | (log, Ok _) =>
    let st := fold_left panelStep log st in
    (log, mkExportPanelState false 100 statusCompleted (exportError st))
  | (log, Throw msg) =>
    let st := fold_left panelStep log st in
    (log, mkExportPanelState false (exportProgress st) statusError msg)
  end.

End HandleExport.

(** ** The rest of the store (store/editorStore.ts) *)

(** [isPlaying], [currentTime] and [playbackRate] are kept twice: in
    [project.timeline] and in [playback]. *)
Record Transport : Type := mkTransport {
  isPlaying : bool;
  currentTime : Q;
  playbackRate : Q
}.

Inductive Panel := timelinePanel | previewPanel | propertiesPanel | effectsPanel.

Record Ui : Type := mkUi {
  activePanel : Panel;
  sidebarWidth : Q;
  timelineHeight : Q;
  showGrid : bool;
  showSafeZones : bool;
  showRulers : bool
}.

(** An entry of [project.history]; its [payload] is never read. *)
Record EditorAction : Type := mkEditorAction {
  actionType : string;        (* action.type *)
  description : string;
  timestamp : Z
}.

(** The state of the store that its actions write.  The project's id,
    name and settings, the grid settings of the timeline, the preview
    size, [playback.loop], [playback.volume], [playback.muted] and the
    [export] slice are written by no action but [updateProjectSettings]
    and [newProject]; they are left out. *)
Record Store : Type := mkStore {
  editor : EditorState;       (* project.timeline.{duration,tracks}, project.selectedClips *)
  transport : Transport;      (* project.timeline.{isPlaying,currentTime,playbackRate} *)
  zoom : Q;                   (* project.timeline.zoom *)
  selectedTracks : list string;
  clipboard : list Clip;
  history : list EditorAction;
  historyIndex : Z;
  ui : Ui;
  playback : Transport
}.

Definition setEditor (e : EditorState) (s : Store) : Store :=
  mkStore e (transport s) (zoom s) (selectedTracks s) (clipboard s)
          (history s) (historyIndex s) (ui s) (playback s).

Definition setTransports (t : Transport) (s : Store) : Store :=
  mkStore (editor s) t (zoom s) (selectedTracks s) (clipboard s)
          (history s) (historyIndex s) (ui s) t.

Definition setUi (u : Ui) (s : Store) : Store :=
  mkStore (editor s) (transport s) (zoom s) (selectedTracks s) (clipboard s)
          (history s) (historyIndex s) u (playback s).

Definition setTracks (tracks' : list Track) (state : EditorState) : EditorState :=
  mkEditorState (mkTimeline (timelineDuration (timeline state)) tracks')
                (selectedClips state).

(** An action that only writes what [EditorState] holds. *)
Definition onEditor (f : EditorState -> EditorState) (s : Store) : Store :=
  setEditor (f (editor s)) s.

(** *** Timeline actions *)

(** The two copies are written one after the other, field by field. *)
Definition setCurrentTime (s : Store) (time : Q) : Store :=
  let playbackTime :=
    Qmax 0 (Qmin time (timelineDuration (timeline (editor s)))) in
  mkStore (editor s)
          (mkTransport (isPlaying (transport s)) playbackTime
                       (playbackRate (transport s)))
          (zoom s) (selectedTracks s) (clipboard s) (history s) (historyIndex s)
          (ui s)
          (mkTransport (isPlaying (playback s)) playbackTime
                       (playbackRate (playback s))).

Definition setIsPlaying (s : Store) (b : bool) : Store :=
  mkStore (editor s)
          (mkTransport b (currentTime (transport s)) (playbackRate (transport s)))
          (zoom s) (selectedTracks s) (clipboard s) (history s) (historyIndex s)
          (ui s)
          (mkTransport b (currentTime (playback s)) (playbackRate (playback s))).

Definition play (s : Store) : Store := setIsPlaying s true.

Definition pause (s : Store) : Store := setIsPlaying s false.

Definition stop (s : Store) : Store :=
  mkStore (editor s)
          (mkTransport false 0 (playbackRate (transport s)))
          (zoom s) (selectedTracks s) (clipboard s) (history s) (historyIndex s)
          (ui s)
          (mkTransport false 0 (playbackRate (playback s))).

Definition setPlaybackRate (s : Store) (rate : Q) : Store :=
  mkStore (editor s)
          (mkTransport (isPlaying (transport s)) (currentTime (transport s)) rate)
          (zoom s) (selectedTracks s) (clipboard s) (history s) (historyIndex s)
          (ui s)
          (mkTransport (isPlaying (playback s)) (currentTime (playback s)) rate).

Definition setZoom (s : Store) (zoom' : Q) : Store :=
  mkStore (editor s) (transport s) (Qmax (1 # 10) (Qmin zoom' 10))
          (selectedTracks s) (clipboard s) (history s) (historyIndex s)
          (ui s) (playback s).

(** *** Clip actions *)

(** [selectedClips.includes(clipId)] *)
Definition includes (l : list string) (x : string) : bool :=
  existsb (String.eqb x) l.

Definition selectClip (state : EditorState) (clipId : string)
    (multiSelect : bool) : EditorState :=
  if multiSelect then
    if negb (includes (selectedClips state) clipId)
    then mkEditorState (timeline state) (selectedClips state ++ [clipId])
    else state
  else mkEditorState (timeline state) [clipId].

Definition clearSelection (s : Store) : Store :=
  mkStore (mkEditorState (timeline (editor s)) [])
          (transport s) (zoom s) [] (clipboard s) (history s) (historyIndex s)
          (ui s) (playback s).

Definition copyClips (s : Store) : Store :=
  let selected :=
    List.filter (fun clip => includes (selectedClips (editor s)) (id clip))
                (flat_map clips (tracks (timeline (editor s)))) in
  mkStore (editor s) (transport s) (zoom s) (selectedTracks s) selected
          (history s) (historyIndex s) (ui s) (playback s).

(** [{ ...clip, id: `${clip.id}-copy-${Date.now()}`, startTime: time,
       endTime: time + (clip.endTime - clip.startTime) }] *)
Definition pastedClip (now : Z) (time : Q) (clip : Clip) : Clip :=
  mkClip (id clip +:+ "-copy-" +:+ pretty now)
         (file clip) (clipDuration clip)
         time (time + (endTime clip - startTime clip))
         (trimStart clip) (trimEnd clip) (volume clip) (track clip)
         (effects clip).

(** [now i] is what [Date.now()] returns for the [i]-th clip of the
    clipboard. *)
Definition pasteClips (now : nat -> Z) (s : Store) (trackId' : string)
    (time : Q) : Store :=
  let tl := timeline (editor s) in
  match findIndex (fun t => String.eqb (trackId t) trackId') (tracks tl) with
  | Some k =>
    if (0 <? length (clipboard s))%nat then
      let paste track :=
        fold_left (fun track ic =>
                     pushClip (pastedClip (now (fst ic)) time (snd ic)) track)
                  (combine (seq 0 (length (clipboard s))) (clipboard s)) track in
      onEditor (setTracks (alter paste k (tracks tl))) s
    else s
  | None => s
  end.

(** *** Track actions *)

Definition typeName (type : TrackType) : string :=
  match type with video => "video" | audio => "audio" | text => "text" end.

Definition sameType (a b : TrackType) : bool :=
  match a, b with
  | video, video | audio, audio | text, text => true
  | _, _ => false
  end.

(** The new track's [name] and [height] are not part of [Track] here. *)
Definition addTrack (state : EditorState) (type : TrackType) : EditorState :=
  let tl := timeline state in
  let trackCount :=
    length (List.filter (fun t => sameType (trackType t) type) (tracks tl)) in
  let newTrack :=
    mkTrack (typeName type +:+ "-track-" +:+ pretty (trackCount + 1)%nat)
            type false false true [] in
  setTracks (tracks tl ++ [newTrack]) state.

Definition removeTrack (s : Store) (trackId' : string) : Store :=
  mkStore (setTracks (List.filter (fun t => negb (String.eqb (trackId t) trackId'))
                                  (tracks (timeline (editor s))))
                     (editor s))
          (transport s) (zoom s)
          (List.filter (fun i => negb (String.eqb i trackId')) (selectedTracks s))
          (clipboard s) (history s) (historyIndex s) (ui s) (playback s).

(** [Partial<Track>]: the fields present in an update object. *)
Record TrackUpdates : Type := mkTrackUpdates {
  newTrackId : option string;
  newTrackType : option TrackType;
  newMuted : option bool;
  newLocked : option bool;
  newVisible : option bool;
  newClips : option (list Clip)
}.

(** [Object.assign(track, updates)] *)
Definition assignTrack (updates : TrackUpdates) (t : Track) : Track :=
  mkTrack (default (trackId t) (newTrackId updates))
          (default (trackType t) (newTrackType updates))
          (default (muted t) (newMuted updates))
          (default (locked t) (newLocked updates))
          (default (visible t) (newVisible updates))
          (default (clips t) (newClips updates)).

Definition updateTrack (state : EditorState) (trackId' : string)
    (updates : TrackUpdates) : EditorState :=
  let tl := timeline state in
  match findIndex (fun t => String.eqb (trackId t) trackId') (tracks tl) with
  | Some trackIndex =>
    setTracks (alter (assignTrack updates) trackIndex (tracks tl)) state
  | None => state
  end.

(** [trackIds.map(id => tracks.find(t => t.id === id)).filter(Boolean)] *)
Definition reorderTracks (state : EditorState) (trackIds : list string)
  : EditorState :=
  let reorderedTracks :=
    omap (fun i => List.find (fun t => String.eqb (trackId t) i)
                             (tracks (timeline state)))
         trackIds in
  setTracks reorderedTracks state.

(** *** History actions *)

Definition setHistoryIndex (i : Z) (s : Store) : Store :=
  mkStore (editor s) (transport s) (zoom s) (selectedTracks s) (clipboard s)
          (history s) i (ui s) (playback s).

Definition undo (s : Store) : Store :=
  if (0 <? historyIndex s)%Z then setHistoryIndex (historyIndex s - 1) s else s.

Definition redo (s : Store) : Store :=
  if (historyIndex s <? Z.of_nat (length (history s)) - 1)%Z
  then setHistoryIndex (historyIndex s + 1) s
  else s.

(** What [a.splice(start)] leaves in [a]: a negative [start] counts from
    the end, and the result is clipped to the array. *)
Definition spliceFrom {A : Type} (a : list A) (start : Z) : list A :=
  let len := Z.of_nat (length a) in
  let from := if (start <? 0)%Z then Z.max (len + start) 0 else Z.min start len in
  take (Z.to_nat from) a.

(** [now] is what [Date.now()] returns. *)
Definition addToHistory (now : Z) (s : Store) (type description' : string)
  : Store :=
  let historyAction := mkEditorAction type description' now in
  let history' := spliceFrom (history s) (historyIndex s + 1) ++ [historyAction] in
  mkStore (editor s) (transport s) (zoom s) (selectedTracks s) (clipboard s)
          history' (Z.of_nat (length history') - 1) (ui s) (playback s).

(** *** UI actions *)

Definition setActivePanel (s : Store) (panel : Panel) : Store :=
  setUi (mkUi panel (sidebarWidth (ui s)) (timelineHeight (ui s))
              (showGrid (ui s)) (showSafeZones (ui s)) (showRulers (ui s))) s.

Definition setSidebarWidth (s : Store) (width : Q) : Store :=
  setUi (mkUi (activePanel (ui s)) (Qmax 200 (Qmin width 600))
              (timelineHeight (ui s))
              (showGrid (ui s)) (showSafeZones (ui s)) (showRulers (ui s))) s.

Definition setTimelineHeight (s : Store) (height : Q) : Store :=
  setUi (mkUi (activePanel (ui s)) (sidebarWidth (ui s))
              (Qmax 150 (Qmin height 400))
              (showGrid (ui s)) (showSafeZones (ui s)) (showRulers (ui s))) s.

Definition toggleGrid (s : Store) : Store :=
  setUi (mkUi (activePanel (ui s)) (sidebarWidth (ui s)) (timelineHeight (ui s))
              (negb (showGrid (ui s))) (showSafeZones (ui s)) (showRulers (ui s))) s.

Definition toggleSafeZones (s : Store) : Store :=
  setUi (mkUi (activePanel (ui s)) (sidebarWidth (ui s)) (timelineHeight (ui s))
              (showGrid (ui s)) (negb (showSafeZones (ui s))) (showRulers (ui s))) s.

Definition toggleRulers (s : Store) : Store :=
  setUi (mkUi (activePanel (ui s)) (sidebarWidth (ui s)) (timelineHeight (ui s))
              (showGrid (ui s)) (showSafeZones (ui s)) (negb (showRulers (ui s)))) s.

(** *** The initial state and [newProject] *)

Definition defaultStore : Store :=
  mkStore defaultState (mkTransport false 0 1) 1 [] [] [] (-1)
          (mkUi timelinePanel 300 200 true false true)
          (mkTransport false 0 1).

Definition newProject (_ : Store) : Store := defaultStore.

(** The states that the actions of the store can produce. *)
Inductive reachable : Store -> Prop :=
| reach_default : reachable defaultStore
| reach_setCurrentTime s time : reachable s -> reachable (setCurrentTime s time)
| reach_play s : reachable s -> reachable (play s)
| reach_pause s : reachable s -> reachable (pause s)
| reach_stop s : reachable s -> reachable (stop s)
| reach_setPlaybackRate s rate : reachable s -> reachable (setPlaybackRate s rate)
| reach_setZoom s z : reachable s -> reachable (setZoom s z)
| reach_addClip s tid clip :
    reachable s -> reachable (onEditor (fun e => addClip e tid clip) s)
| reach_removeClip s cid :
    reachable s -> reachable (onEditor (fun e => removeClip e cid) s)
| reach_updateClip s cid updates :
    reachable s -> reachable (onEditor (fun e => updateClip e cid updates) s)
| reach_selectClip s cid multi :
    reachable s -> reachable (onEditor (fun e => selectClip e cid multi) s)
| reach_clearSelection s : reachable s -> reachable (clearSelection s)
| reach_copyClips s : reachable s -> reachable (copyClips s)
| reach_pasteClips now s tid time :
    reachable s -> reachable (pasteClips now s tid time)
| reach_addTrack s type :
    reachable s -> reachable (onEditor (fun e => addTrack e type) s)
| reach_removeTrack s tid : reachable s -> reachable (removeTrack s tid)
| reach_updateTrack s tid updates :
    reachable s -> reachable (onEditor (fun e => updateTrack e tid updates) s)
| reach_reorderTracks s tids :
    reachable s -> reachable (onEditor (fun e => reorderTracks e tids) s)
| reach_newProject s : reachable s -> reachable (newProject s)
| reach_undo s : reachable s -> reachable (undo s)
| reach_redo s : reachable s -> reachable (redo s)
| reach_addToHistory now s type description' :
    reachable s -> reachable (addToHistory now s type description')
| reach_setActivePanel s panel : reachable s -> reachable (setActivePanel s panel)
| reach_setSidebarWidth s width : reachable s -> reachable (setSidebarWidth s width)
| reach_setTimelineHeight s height :
    reachable s -> reachable (setTimelineHeight s height)
| reach_toggleGrid s : reachable s -> reachable (toggleGrid s)
| reach_toggleSafeZones s : reachable s -> reachable (toggleSafeZones s)
| reach_toggleRulers s : reachable s -> reachable (toggleRulers s).

(** ** Resizing a clip on the timeline (Timeline component) *)



(** ** The effects panel (EffectsPanel.tsx) *)

(** The clip that the panel edits:
    [tracks.flatMap(track => track.clips)
           .find(clip => selectedClips.includes(clip.id))]. *)
Definition selectedClip (state : EditorState) : option Clip :=
  List.find (fun clip => includes (selectedClips state) (id clip))
            (flat_map clips (tracks (timeline state))).

(** The new effect's id, ["effect-" + Date.now()], is not part of
    [Effect] here. *)
Definition addEffect (state : EditorState) (type : EffectType) : EditorState :=
  match selectedClip state with
  | None => state
  | Some clip =>
    let newEffect := mkEffect type 50 ∅ true in
    let updatedEffects := effects clip ++ [newEffect] in
    updateClip state (id clip)
      (mkClipUpdates None None None None None None (Some updatedEffects))
  end.

(** * Specifications

    The definitions below are not translated from the code.  They state,
    in the words of the design, what the code is compared with. *)

(** ** Volume and normalization *)

(** A buffer with every sample multiplied by [f]. *)
Definition scaled (b : AudioBuffer) (f : Q) : AudioBuffer :=
  mkAudioBuffer (numberOfChannels b) (bufLength b) (sampleRate b)
                (map (map (fun x => x * f)) (channelData b)).

(** The largest absolute sample of an array, not below [peak]. *)
Definition peakFrom (peak : Q) (data : list Q) : Q :=
  fold_left (fun peak x => Qmax peak (Qabs x)) data peak.

(** The largest absolute sample of all channels, not below [peak]. *)
Definition peakOfChannels (peak : Q) (chans : list (list Q)) : Q :=
  fold_left peakFrom chans peak.


(** ** Mixing *)

(** What one entry adds to sample [j] of output channel [channel]: its
    sample [j - floor(startTime * rate)] on the source channel
    [min(channel, numberOfChannels - 1)], times its volume, when that
    sample exists.  The product [startTime * rate] is a double. *)
Definition contribution (rate : Z) (channel j : nat) (e : MixEntry) : Q :=
  let startSample := Qfloor (roundDouble (mixStartTime e * inject_Z rate)) in
  let i := (Z.of_nat j - startSample)%Z in
  let sourceChannel := Nat.min channel (numberOfChannels (mixBuffer e) - 1) in
  if (0 <=? i)%Z && (i <? Z.of_nat (bufLength (mixBuffer e)))%Z
  then sample (getChannelData (mixBuffer e) sourceChannel) (Z.to_nat i)
       * mixVolume e
  else 0.

(** The plain sum of the contributions, in list order. *)
Definition mixedSample (rate : Z) (channel j : nat) (entries : list MixEntry) : Q :=
  fold_left (fun acc e => acc + contribution rate channel j e) entries 0.

(** The end time of an entry, as a double. *)
Definition endTimeOf (e : MixEntry) : Q :=
  roundDouble (mixStartTime e + duration (mixBuffer e)).

(** The latest end time among the entries of a non-empty list. *)
Definition maxEndTime (first : MixEntry) (rest : list MixEntry) : Q :=
  fold_left Qmax (map endTimeOf rest) (endTimeOf first).



(** ** The WAV file *)

(** Little-endian bytes of a 16-bit and of a 32-bit field. *)
Definition le16 (v : Z) : list Z := [v mod 256; (v / 256) mod 256]%Z.

Definition le32 (v : Z) : list Z := le16 v ++ le16 (v / 65536).

(** The canonical 44-byte header: RIFF, file size - 8, WAVE, "fmt ", 16,
    format 1, channels, sample rate, byte rate, block align, 16 bits,
    data, data size. *)
Definition wavHeader (channels : nat) (rate : Z) (len : nat) : list Z :=
  let dataSize := Z.of_nat (len * channels * 2) in
  [82; 73; 70; 70]%Z ++ le32 (36 + dataSize) ++
  [87; 65; 86; 69]%Z ++
  [102; 109; 116; 32]%Z ++ le32 16 ++ le16 1 ++ le16 (Z.of_nat channels) ++
  le32 rate ++ le32 (rate * Z.of_nat channels * 2) ++
  le16 (Z.of_nat channels * 2) ++ le16 16 ++
  [100; 97; 116; 97]%Z ++ le32 dataSize.

(** The samples in file order: frame by frame, channel by channel. *)
Definition interleaved (b : AudioBuffer) : list Q :=
  flat_map (fun i => map (fun channel => sample (getChannelData b channel) i)
                         (seq 0 (numberOfChannels b)))
           (seq 0 (bufLength b)).

Definition clamp (x : Q) : Q := Qmax (-1) (Qmin 1 x).

(** The two bytes of one sample. *)
Definition encodeSample (x : Q) : list Z := le16 (Qtrunc (scaleSample x)).

(** One step of the sample loop of [exportToWav], on the pair of the view
    and the running offset. *)
Definition writeSample (x : Q) (st : list Z * nat) : list Z * nat :=
  let '(view, offset) := st in
  (setInt16 view offset (scaleSample x), (offset + 2)%nat).

(** Reading the file back, as a [DataView] would. *)
Definition getUint8 (view : list Z) (offset : nat) : Z := default 0%Z (view !! offset).

(** [view.getUint16(offset, true)] *)
Definition getUint16 (view : list Z) (offset : nat) : Z :=
  (getUint8 view offset + 256 * getUint8 view (offset + 1))%Z.

(** [view.getUint32(offset, true)] *)
Definition getUint32 (view : list Z) (offset : nat) : Z :=
  (getUint16 view offset + 65536 * getUint16 view (offset + 2))%Z.

(** [view.getInt16(offset, true)] *)
Definition getInt16 (view : list Z) (offset : nat) : Z :=
  let u := getUint16 view offset in
  if (u <? 32768)%Z then u else (u - 65536)%Z.

(** The four character codes at [offset]. *)
Definition getTag (view : list Z) (offset : nat) : list Z := take 4 (drop offset view).

(** ** Active clips *)

Definition indexed {A : Type} (l : list A) : list (nat * A) :=
  combine (seq 0 (length l)) l.

(** The clips of the visible tracks, each with the index of its track in
    [timeline.tracks]. *)
Definition taggedClips (tl : Timeline) : list (nat * Clip) :=
  flat_map (fun kt => map (pair (fst kt)) (clips (snd kt)))
           (List.filter (fun kt => visible (snd kt)) (indexed (tracks tl))).

(** [visibleClips], with the track index carried along. *)
Definition activeTagged (tl : Timeline) (currentTime : Q) : list (nat * Clip) :=
  sortBy (fun a b => byStartTime (snd a) (snd b))
         (List.filter (fun kc => isActive currentTime (snd kc)) (taggedClips tl)).

(** Ascending by [startTime]; among equal start times, by track index. *)
Definition drawOrder (a b : nat * Clip) : Prop :=
  startTime (snd a) < startTime (snd b) \/
  (startTime (snd a) == startTime (snd b) /\ (fst a <= fst b)%nat).

(** ** Clip timing *)

(** The timing that the data model asks of a clip. *)
Definition validTiming (clip : Clip) : Prop :=
  trimStart clip < trimEnd clip /\ startTime clip < endTime clip.

(** ** The calls of an export *)

(** A call that comes before the delivery of the file: not the download,
    and no progress outside 0..90. *)
Definition beforeDelivery (c : Call) : Prop :=
  match c with
  | DownloadBlob _ => False
  | SetExportProgress percent => (0 <= percent <= 90)%Z
  | _ => True
  end.

(** A call on the transcoding service that works on video. *)
Definition isVideoService (c : Call) : bool :=
  match c with
  | TrimVideo _ _ _ | ApplyVideoFilter _ _ | MergeVideos _ | AddAudioToVideo _ _ => true
  | _ => false
  end.

(** The step appends calls that all satisfy [P], whatever it returns. *)
Definition emits {A : Type} (P : Call -> Prop) (m : Export A) : Prop :=
  forall log, exists added, fst (m log) = log ++ added /\ Forall P added.

(** The file that a video blob was made from, through trims and filters. *)
Fixpoint sourceFile (b : Blob) : option File :=
  match b with
  | FileBlob f => Some f
  | TrimmedVideo input _ _ => sourceFile input
  | FilteredVideo input _ => sourceFile input
  | _ => None
  end.

Definition isMergeVideos (c : Call) : bool :=
  match c with MergeVideos _ => true | _ => false end.

(** What the calls of a finished export look like: after success they end
    with the download between the progress marks 95 and 100, and nothing
    before is a download; after a failure there is no download at all. *)
Definition delivered (added : list Call) (r : result unit) : Prop :=
  match r with
  | Ok _ =>
    exists pre b,
      added = pre ++ [SetExportProgress 95; DownloadBlob b; SetExportProgress 100] /\
      Forall beforeDelivery pre
  | Throw _ => Forall beforeDelivery added
  end.

Definition delivers (m : Export unit) : Prop :=
  forall log, exists added, fst (m log) = log ++ added /\ delivered added (snd (m log)).

(** A video call other than the merge. *)
Definition clipCall (c : Call) : Prop :=
  isVideoService c = true /\ isMergeVideos c = false.

(** [clip.trimStart > 0 || clip.trimEnd < clip.duration] *)
Definition needsTrim (clip : Clip) : bool :=
  Qltb 0 (trimStart clip) || Qltb (trimEnd clip) (clipDuration clip).

(** ** What every state of the store satisfies *)

Definition storeInvariant (s : Store) : Prop :=
  0 <= timelineDuration (timeline (editor s)) /\
  playback s = transport s /\
  0 <= currentTime (playback s) <= timelineDuration (timeline (editor s)) /\
  (1 # 10) <= zoom s <= 10 /\
  200 <= sidebarWidth (ui s) <= 600 /\
  150 <= timelineHeight (ui s) <= 400 /\
  ((history s = [] /\ historyIndex s = (-1)%Z) \/
   (0 <= historyIndex s < Z.of_nat (length (history s)))%Z).

(** A call on the audio processor that loads, processes, mixes or
    serializes audio. *)
Definition isAudioService (c : Call) : bool :=
  match c with
  | LoadAudioFile _ | TrimAudio _ _ | ChangeVolume _ | NormalizeAudio
  | ApplyLowPassFilter _ | ApplyHighPassFilter _ | ApplyReverb _
  | MixAudioBuffers _ | ExportToWav => true
  | _ => false
  end.

(** * Sample data *)

Definition demoProcessor : AudioProcessor := mkAudioProcessor (Some running).

Definition demoBuffer : AudioBuffer :=
  mkAudioBuffer 2 3 48000 [[1 # 2; -1 # 2; 2]; [0; -3; 1 # 3]].

Definition demoMono : AudioBuffer := mkAudioBuffer 1 4 2 [[1; 2; 3; 4]].

Definition demoStereo : AudioBuffer :=
  mkAudioBuffer 2 4 2 [[10; 20; 30; 40]; [100; 200; 300; 400]].

Definition demoEntries : list MixEntry :=
  [mkMixEntry demoStereo 1 (1 # 2)].

Definition fileA : File := mkFile "a.wav" "audio/wav".

Definition fileB : File := mkFile "b.wav" "audio/wav".

(** Two seconds of mono audio at 4 Hz each. *)
Definition sourceA : AudioBuffer :=
  mkAudioBuffer 1 8 4 [[1 # 8; 2 # 8; 3 # 8; 4 # 8; 5 # 8; 6 # 8; 7 # 8; 1]].

Definition sourceB : AudioBuffer :=
  mkAudioBuffer 1 8 4 [[1; 1; 1 # 2; 1; 1; 1; 1; 1]].

Definition demoDecode (f : File) : AudioBuffer :=
  if String.eqb (fileName f) "a.wav" then sourceA else sourceB.

Definition noRender (b : AudioBuffer) (_ : Q) : AudioBuffer := b.

(** Clip A: volume 1 at [0s,2s); clip B: volume 0.5 at [1s,3s); untrimmed,
    no effects. *)
Definition clipA : Clip := mkClip "A" (Some fileA) 2 0 2 0 2 1 1 [].

Definition clipB : Clip := mkClip "B" (Some fileB) 2 1 3 0 2 (1 # 2) 1 [].

Definition demoClip (name : string) (start stop : Q) : Clip :=
  mkClip name None 0 start stop 0 0 1 0 [].

Definition demoTimeline : Timeline :=
  mkTimeline 10
    [mkTrack "video-track-1" video false false true
       [demoClip "late" 3 9; demoClip "a" 1 5];
     mkTrack "hidden" video false false false [demoClip "h" 0 9];
     mkTrack "text-track-1" text false false true
       [demoClip "b" 1 6; demoClip "over" 0 2]].

(** A clip that ends before it starts, on the timeline and in its source. *)
Definition backwardsClip : Clip := mkClip "bad" None 10 5 3 4 2 1 0 [].

(** * Proofs *)

(** ** Loops *)

Section Loops.
Context {S : Type}.

Lemma forLoop_S (n : nat) (body : nat -> S -> S) (s : S) :
  forLoop (Datatypes.S n) body s = body n (forLoop n body s).
Proof.
  unfold forLoop. rewrite seq_S, fold_left_app. reflexivity.
Qed.

Lemma forLoop_ext (n : nat) (body1 body2 : nat -> S -> S) (s : S) :
  (forall i st, (i < n)%nat -> body1 i st = body2 i st) ->
  forLoop n body1 s = forLoop n body2 s.
Proof.
  induction n as [|n IH]; intros Hext; [reflexivity|].
  rewrite !forLoop_S, IH by (intros; apply Hext; lia).
  apply Hext. lia.
Qed.
End Loops.

(** Writing every index below [k] in turn. *)
Lemma forLoop_update {A : Type} (G : nat -> option A -> A) (l : list A) (k : nat) :
  (k <= length l)%nat ->
  forLoop k (fun i l' => <[i := G i (l' !! i)]> l') l
  = map (fun i => G i (l !! i)) (seq 0 k) ++ drop k l.
Proof.
  induction k as [|k IH]; intros Hk.
  - simpl. rewrite drop_0. reflexivity.
  - rewrite forLoop_S, IH by lia.
    destruct (lookup_lt_is_Some_2 l k ltac:(lia)) as [x Hx].
    assert (Hlen : length (map (fun i => G i (l !! i)) (seq 0 k)) = k)
      by (rewrite length_map, length_seq; reflexivity).
    rewrite seq_S, map_app, <- app_assoc. cbn [map app Nat.add].
    rewrite (drop_S l x k Hx).
    rewrite lookup_app_r by lia. rewrite Hlen, Nat.sub_diag.
    rewrite insert_app_r_alt by lia. rewrite Hlen, Nat.sub_diag.
    cbn. rewrite Hx. reflexivity.
Qed.

Lemma forLoop_fill {A : Type} (g : nat -> A) (l : list A) :
  forLoop (length l) (fun i l' => <[i := g i]> l') l = map g (seq 0 (length l)).
Proof.
  rewrite (forLoop_update (fun i _ => g i)) by lia.
  rewrite drop_all, app_nil_r. reflexivity.
Qed.

(** Reading a list through its indices is folding over the list. *)
Lemma forLoop_samples {T : Type} (h : Q -> T -> T) (data : list Q) (s : T) :
  forLoop (length data) (fun i st => h (sample data i) st) s
  = fold_left (fun st x => h x st) data s.
Proof.
  induction data as [|x data IH] using rev_ind; [reflexivity|].
  rewrite length_app, Nat.add_1_r, forLoop_S, fold_left_app. simpl.
  unfold sample at 1. rewrite lookup_app_r, Nat.sub_diag by lia. simpl.
  f_equal. rewrite <- IH. apply forLoop_ext. intros i st Hi.
  unfold sample. rewrite lookup_app_l by lia. reflexivity.
Qed.

(** * Doubles *)

Lemma pow2_pos (k : Z) : 0 < pow2 k.
Proof. apply Qpower_0_lt. reflexivity. Qed.

Lemma pow2_Z (k : Z) : (0 <= k)%Z -> pow2 k == inject_Z (2 ^ k).
Proof. intros Hk. unfold pow2. rewrite Zpower_Qpower by exact Hk. reflexivity. Qed.

Lemma pow2_opp (k : Z) : (0 <= k)%Z -> pow2 (- k) == / inject_Z (2 ^ k).
Proof.
  intros Hk. unfold pow2. rewrite Qpower_opp, Zpower_Qpower by exact Hk.
  reflexivity.
Qed.

Lemma pow2_succ (k : Z) : pow2 (k + 1) == 2 * pow2 k.
Proof. unfold pow2. rewrite Qpower_plus by discriminate. rewrite Qpower_1_r. ring. Qed.

Lemma pow2_sub (a b : Z) :
  (0 <= a)%Z -> (0 <= b)%Z -> pow2 (a - b) == inject_Z (2 ^ a) / inject_Z (2 ^ b).
Proof.
  intros Ha Hb. unfold pow2. rewrite Qpower_minus by discriminate.
  rewrite !Zpower_Qpower by assumption. reflexivity.
Qed.

Lemma Qdiv_le_Z (a b c d : Z) :
  (0 < b)%Z -> (0 < d)%Z -> (a * d <= c * b)%Z ->
  inject_Z a / inject_Z b <= inject_Z c / inject_Z d.
Proof.
  intros Hb Hd H.
  assert (Hb' : 0 < inject_Z b) by (change 0 with (inject_Z 0); rewrite <- Zlt_Qlt; exact Hb).
  assert (Hd' : 0 < inject_Z d) by (change 0 with (inject_Z 0); rewrite <- Zlt_Qlt; exact Hd).
  apply Qle_shift_div_r; [exact Hb'|].
  assert (E : inject_Z c / inject_Z d * inject_Z b
              == inject_Z (c * b) / inject_Z d).
  { rewrite inject_Z_mult. field. lra. }
  rewrite E. apply Qle_shift_div_l; [exact Hd'|].
  rewrite <- inject_Z_mult, <- Zle_Qle. exact H.
Qed.

Lemma Qdiv_lt_Z (a b c d : Z) :
  (0 < b)%Z -> (0 < d)%Z -> (a * d < c * b)%Z ->
  inject_Z a / inject_Z b < inject_Z c / inject_Z d.
Proof.
  intros Hb Hd H.
  assert (Hb' : 0 < inject_Z b) by (change 0 with (inject_Z 0); rewrite <- Zlt_Qlt; exact Hb).
  assert (Hd' : 0 < inject_Z d) by (change 0 with (inject_Z 0); rewrite <- Zlt_Qlt; exact Hd).
  apply Qlt_shift_div_r; [exact Hb'|].
  assert (E : inject_Z c / inject_Z d * inject_Z b
              == inject_Z (c * b) / inject_Z d).
  { rewrite inject_Z_mult. field. lra. }
  rewrite E. apply Qlt_shift_div_l; [exact Hd'|].
  rewrite <- inject_Z_mult, <- Zlt_Qlt. exact H.
Qed.

(** [ilog2] is the binary exponent. *)
Lemma ilog2_spec (x : Q) : 0 < x -> pow2 (ilog2 x) <= x /\ x < pow2 (ilog2 x + 1).
Proof.
  intros Hx. destruct x as [n d].
  assert (Hn : (0 < n)%Z) by (unfold Qlt in Hx; simpl in Hx; lia).
  unfold ilog2. cbn [Qnum Qden].
  set (a := Z.log2 n). set (b := Z.log2 (Z.pos d)).
  assert (Ha : (0 <= a)%Z) by apply Z.log2_nonneg.
  assert (Hb : (0 <= b)%Z) by apply Z.log2_nonneg.
  destruct (Z.log2_spec n Hn) as [Ha1 Ha2]. fold a in Ha1, Ha2.
  destruct (Z.log2_spec (Z.pos d) ltac:(lia)) as [Hb1 Hb2]. fold b in Hb1, Hb2.
  rewrite Z.pow_succ_r in Ha2, Hb2 by assumption.
  assert (HA : (0 < 2 ^ a)%Z) by (apply Z.pow_pos_nonneg; lia).
  assert (HB : (0 < 2 ^ b)%Z) by (apply Z.pow_pos_nonneg; lia).
  assert (Ex : n # d == inject_Z n / inject_Z (Z.pos d)) by apply Qmake_Qdiv.
  assert (E0 : pow2 (a - b) == inject_Z (2 ^ a) / inject_Z (2 ^ b))
    by (apply pow2_sub; assumption).
  destruct (Qle_bool (pow2 (a - b)) (n # d)) eqn:E.
  - apply Qle_bool_iff in E. split; [exact E|].
    rewrite pow2_succ, E0, Ex.
    setoid_replace (2 * (inject_Z (2 ^ a) / inject_Z (2 ^ b)))
      with (inject_Z (2 * 2 ^ a) / inject_Z (2 ^ b)) using relation Qeq.
    + apply Qdiv_lt_Z; [lia|exact HB|nia].
    + rewrite inject_Z_mult. field.
      change 0 with (inject_Z 0). rewrite inject_Z_injective. lia.
  - assert (Hlt : n # d < pow2 (a - b)).
    { apply Qnot_le_lt. intros H. apply Qle_bool_iff in H. congruence. }
    replace (a - b - 1 + 1)%Z with (a - b)%Z by lia. split; [|exact Hlt].
    assert (E1 : pow2 (a - b - 1) == inject_Z (2 ^ a) / inject_Z (2 * 2 ^ b)).
    { assert (H : pow2 (a - b) == 2 * pow2 (a - b - 1)).
      { rewrite <- pow2_succ. replace (a - b - 1 + 1)%Z with (a - b)%Z by lia.
        reflexivity. }
      rewrite E0 in H. rewrite inject_Z_mult.
      assert (HB' : ~ inject_Z (2 ^ b) == 0).
      { change 0 with (inject_Z 0). rewrite inject_Z_injective. lia. }
      setoid_replace (inject_Z (2 ^ a) / (inject_Z 2 * inject_Z (2 ^ b)))
        with ((inject_Z (2 ^ a) / inject_Z (2 ^ b)) / 2) using relation Qeq
        by (field; exact HB').
      rewrite H. field. }
    rewrite E1, Ex. apply Qdiv_le_Z; [lia|lia|nia].
Qed.

#[local] Instance roundNearestEven_proper : Proper (Qeq ==> eq) roundNearestEven.
Proof.
  intros x y Hxy. unfold roundNearestEven.
  rewrite (Qfloor_comp x y Hxy).
  rewrite (Qcompare_comp (x - inject_Z (Qfloor y)) (y - inject_Z (Qfloor y))
             ltac:(rewrite Hxy; reflexivity) (1 # 2) (1 # 2) ltac:(reflexivity)).
  reflexivity.
Qed.

Lemma roundNearestEven_Z (z : Z) : roundNearestEven (inject_Z z) = z.
Proof.
  unfold roundNearestEven. rewrite Qfloor_Z.
  rewrite (Qcompare_comp (inject_Z z - inject_Z z) 0 ltac:(ring)
             (1 # 2) (1 # 2) ltac:(reflexivity)).
  reflexivity.
Qed.

(** The rounded value is at most one half away, and lies between the
    floor and the floor plus one. *)
Lemma roundNearestEven_near (y : Q) :
  Qabs (inject_Z (roundNearestEven y) - y) <= 1 # 2 /\
  (Qfloor y <= roundNearestEven y <= Qfloor y + 1)%Z.
Proof.
  unfold roundNearestEven.
  pose proof (Qfloor_le y) as Hlo. pose proof (Qlt_floor y) as Hhi.
  rewrite inject_Z_plus in Hhi. change (inject_Z 1) with 1 in Hhi.
  set (f := Qfloor y) in *.
  destruct (Qcompare (y - inject_Z f) (1 # 2)) eqn:E.
  - apply Qeq_alt in E.
    destruct (Z.even f); (split; [|lia]).
    + apply Qabs_case; intros; lra.
    + rewrite inject_Z_plus. change (inject_Z 1) with 1.
      apply Qabs_case; intros; lra.
  - apply Qlt_alt in E. split; [|lia]. apply Qabs_case; intros; lra.
  - apply Qgt_alt in E. split; [|lia]. rewrite inject_Z_plus.
    change (inject_Z 1) with 1. apply Qabs_case; intros; lra.
Qed.

Lemma roundNearestEven_nonneg (y : Q) : 0 <= y -> (0 <= roundNearestEven y)%Z.
Proof.
  intros Hy. pose proof (roundNearestEven_near y) as [_ [H _]].
  assert (H0 : (0 <= Qfloor y)%Z).
  { change 0%Z with (Qfloor 0). apply Qfloor_resp_le, Hy. }
  lia.
Qed.

Lemma roundPositive_nonneg (a : Q) : 0 <= a -> 0 <= roundPositive a.
Proof.
  intros Ha. unfold roundPositive.
  set (ulp := pow2 _). pose proof (pow2_pos (Z.max (ilog2 a) (-1022) - 52)) as Hu.
  fold ulp in Hu. apply Qmult_le_0_compat; [|apply Qlt_le_weak, Hu].
  change 0 with (inject_Z 0). rewrite <- Zle_Qle. apply roundNearestEven_nonneg.
  apply Qle_shift_div_l; [exact Hu|]. rewrite Qmult_0_l. exact Ha.
Qed.

(** What [roundPositive] returns: a significand of at most 53 bits times
    the spacing of the doubles around [a], at most half a spacing away
    from [a]. *)
Lemma roundPositive_spec (a : Q) :
  0 < a ->
  let e := Z.max (ilog2 a) (-1022) in
  exists m : Z,
    (0 <= m <= 2 ^ 53)%Z /\
    roundPositive a = inject_Z m * pow2 (e - 52) /\
    Qabs (roundPositive a - a) <= pow2 (e - 52) / 2.
Proof.
  intros Ha e. unfold roundPositive. fold e.
  pose proof (pow2_pos (e - 52)) as Hu. set (ulp := pow2 (e - 52)) in *.
  set (y := a / ulp).
  assert (Hy : 0 <= y).
  { apply Qle_shift_div_l; [exact Hu|]. rewrite Qmult_0_l. lra. }
  destruct (roundNearestEven_near y) as [Hnear [_ Hup]].
  exists (roundNearestEven y). split; [|split; [reflexivity|]].
  - split; [apply roundNearestEven_nonneg, Hy|].
    assert (Hlt : y < inject_Z (2 ^ 53)).
    { destruct (ilog2_spec a Ha) as [_ Hhi].
      assert (Hle : pow2 (ilog2 a + 1) <= pow2 (e + 1)).
      { apply Qpower_le_compat_l; [unfold e; lia|discriminate]. }
      assert (E : pow2 (e + 1) == inject_Z (2 ^ 53) * ulp).
      { unfold ulp. rewrite <- (pow2_Z 53) by lia. unfold pow2.
        rewrite <- Qpower_plus by discriminate.
        replace (53 + (e - 52))%Z with (e + 1)%Z by lia. reflexivity. }
      unfold y. apply Qlt_shift_div_r; [exact Hu|]. rewrite <- E. lra. }
    assert (Hf : (Qfloor y < 2 ^ 53)%Z).
    { rewrite Zlt_Qlt. eapply Qle_lt_trans; [apply Qfloor_le|exact Hlt]. }
    lia.
  - assert (E : inject_Z (roundNearestEven y) * ulp - a
                == (inject_Z (roundNearestEven y) - y) * ulp).
    { unfold y. field. lra. }
    rewrite E, Qabs_Qmult, (Qabs_pos ulp) by lra.
    unfold Qdiv. change (/ 2) with (1 # 2).
    rewrite (Qmult_comm ulp). apply Qmult_le_compat_r; [exact Hnear|lra].
Qed.

#[local] Instance roundDouble_proper : Proper (Qeq ==> eq) roundDouble.
Proof.
  intros x y Hxy. unfold roundDouble. rewrite (Qred_complete x y Hxy). reflexivity.
Qed.

#[local] Instance roundDouble_Qeq : Proper (Qeq ==> Qeq) roundDouble.
Proof. intros x y Hxy. rewrite (roundDouble_proper x y Hxy). reflexivity. Qed.

Lemma Qnum_sign (x : Q) :
  match Qnum x with Z0 => x == 0 | Zpos _ => 0 < x | Zneg _ => x < 0 end.
Proof. destruct x as [[|n|n] d]; unfold Qeq, Qlt; simpl; lia. Qed.

Lemma roundDouble_sign (x : Q) :
  (0 <= x -> 0 <= roundDouble x) /\ (x <= 0 -> roundDouble x <= 0).
Proof.
  unfold roundDouble. pose proof (Qnum_sign (Qred x)) as Hs.
  pose proof (Qred_correct x) as Hx.
  destruct (Qnum (Qred x)).
  - split; intros _; apply Qle_refl.
  - split; intros H; [apply roundPositive_nonneg; lra|lra].
  - split; intros H; [lra|].
    pose proof (roundPositive_nonneg (- Qred x) ltac:(lra)). lra.
Qed.

(** Rounding is odd: the double nearest to [-x] is the opposite of the
    double nearest to [x]. *)
Lemma roundDouble_opp (x : Q) : roundDouble (- x) == - roundDouble x.
Proof.
  unfold roundDouble. rewrite Qred_opp.
  destruct (Qred x) as [[|n|n] d]; cbn [Qnum Qopp Z.opp].
  - reflexivity.
  - reflexivity.
  - symmetry. apply Qopp_involutive.
Qed.

(** The double nearest to a positive [x]: a significand of at most 53 bits
    times [2^(e-52)], where [2^e <= x < 2^(e+1)] (and [e] is not below
    -1022), at most half of [2^(e-52)] away from [x]. *)
Lemma roundDouble_nearest (x : Q) :
  0 < x ->
  let e := Z.max (ilog2 x) (-1022) in
  pow2 (ilog2 x) <= x < pow2 (ilog2 x + 1) /\
  exists m : Z,
    (0 <= m <= 2 ^ 53)%Z /\
    roundDouble x == inject_Z m * pow2 (e - 52) /\
    Qabs (roundDouble x - x) <= pow2 (e - 52) / 2.
Proof.
  intros Hx e. split; [apply ilog2_spec, Hx|].
  pose proof (Qred_correct x) as Hr.
  assert (Hx' : 0 < Qred x) by (rewrite Hr; exact Hx).
  assert (Hrd : roundDouble x = roundPositive (Qred x)).
  { unfold roundDouble. pose proof (Qnum_sign (Qred x)) as Hs.
    destruct (Qnum (Qred x)); [rewrite Hs in Hx'; discriminate|reflexivity|].
    exfalso. lra. }
  assert (He : ilog2 (Qred x) = ilog2 x).
  { destruct (ilog2_spec x Hx) as [H1 H2].
    destruct (ilog2_spec (Qred x) Hx') as [H3 H4].
    assert (Ha : (ilog2 (Qred x) < ilog2 x + 1)%Z).
    { apply (Qpower_lt_compat_l_inv 2); [|reflexivity]. fold (pow2 (ilog2 (Qred x))).
      fold (pow2 (ilog2 x + 1)). lra. }
    assert (Hb : (ilog2 x < ilog2 (Qred x) + 1)%Z).
    { apply (Qpower_lt_compat_l_inv 2); [|reflexivity]. fold (pow2 (ilog2 x)).
      fold (pow2 (ilog2 (Qred x) + 1)). lra. }
    lia. }
  destruct (roundPositive_spec (Qred x) Hx') as (m & Hm & Hval & Herr).
  rewrite He in Hval, Herr. fold e in Hval, Herr.
  exists m. split; [exact Hm|]. rewrite Hrd. split; [rewrite Hval; reflexivity|].
  rewrite <- Hr at 2. exact Herr.
Qed.

Lemma roundDouble_Z (n : Z) :
  (0 <= n < 2 ^ 53)%Z -> roundDouble (inject_Z n) == inject_Z n.
Proof.
  intros [H0 H53]. unfold roundDouble. rewrite inject_Z_Qred.
  destruct n as [|n|n]; [reflexivity| |lia]. cbn [Qnum inject_Z].
  change (Z.pos n # 1) with (inject_Z (Z.pos n)).
  set (z := Z.pos n) in *. set (a := Z.log2 z).
  assert (Hz : (0 < z)%Z) by (unfold z; lia).
  assert (Ha : (0 <= a < 53)%Z).
  { split; [apply Z.log2_nonneg|apply Z.log2_lt_pow2; [exact Hz|exact H53]]. }
  destruct (Z.log2_spec z Hz) as [Hlo _]. fold a in Hlo.
  assert (Hlog : ilog2 (inject_Z z) = a).
  { unfold ilog2. cbn [Qnum Qden inject_Z]. change (Z.log2 1) with 0%Z.
    rewrite Z.sub_0_r. fold a.
    assert (E : Qle_bool (pow2 a) (inject_Z z) = true).
    { apply Qle_bool_iff. rewrite pow2_Z by lia. rewrite <- Zle_Qle. exact Hlo. }
    rewrite E. reflexivity. }
  unfold roundPositive. rewrite Hlog, Z.max_l by lia.
  assert (Hu : pow2 (a - 52) == / inject_Z (2 ^ (52 - a))).
  { replace (a - 52)%Z with (- (52 - a))%Z by lia. apply pow2_opp. lia. }
  assert (Hp : (0 < 2 ^ (52 - a))%Z) by (apply Z.pow_pos_nonneg; lia).
  assert (Hq : ~ inject_Z (2 ^ (52 - a)) == 0).
  { change 0 with (inject_Z 0). rewrite inject_Z_injective. lia. }
  assert (E : inject_Z z / pow2 (a - 52) == inject_Z (z * 2 ^ (52 - a))).
  { rewrite Hu, inject_Z_mult. field. exact Hq. }
  rewrite E, roundNearestEven_Z, Hu, inject_Z_mult. field. exact Hq.
Qed.

(** The doubles behind the frame counts used below. *)
Example roundDouble_samples :
  Qfloor (roundDouble (roundDouble (3 # 100) * 48000)) = 1440%Z /\
  Qfloor (roundDouble (3 # 100) * 48000) = 1439%Z /\
  Qfloor (roundDouble (roundDouble (1 # 48000) * 48000)) = 1%Z /\
  Qfloor (roundDouble (roundDouble (15 # 44100) * 44100)) = 14%Z /\
  roundDouble (1 # 3) == 6004799503160661 # 18014398509481984.
Proof. vm_compute. repeat split. Qed.

(** * Channels of a buffer *)

Lemma channels_loop (F : nat -> list Q -> list Q) (k : nat) (b : AudioBuffer) :
  forLoop k (fun c b' => setChannelData b' c (F c (getChannelData b' c))) b
  = mkAudioBuffer (numberOfChannels b) (bufLength b) (sampleRate b)
      (forLoop k (fun c l => <[c := F c (default [] (l !! c))]> l) (channelData b)).
Proof.
  induction k as [|k IH]; [destruct b; reflexivity|].
  rewrite !forLoop_S, IH. reflexivity.
Qed.

Lemma channels_loop_closed (F : nat -> list Q -> list Q) (b : AudioBuffer) :
  length (channelData b) = numberOfChannels b ->
  forLoop (numberOfChannels b)
          (fun c b' => setChannelData b' c (F c (getChannelData b' c))) b
  = mkAudioBuffer (numberOfChannels b) (bufLength b) (sampleRate b)
      (map (fun c => F c (getChannelData b c)) (seq 0 (numberOfChannels b))).
Proof.
  intros Hlen. rewrite channels_loop.
  rewrite (forLoop_update (fun c o => F c (default [] o))) by lia.
  rewrite drop_ge, app_nil_r by lia. reflexivity.
Qed.

Lemma getChannelData_createBuffer (channels len : nat) (rate : Z) (c : nat) :
  (c < channels)%nat ->
  getChannelData (createBuffer channels len rate) c = replicate len 0.
Proof.
  intros Hc. unfold getChannelData, createBuffer. simpl.
  rewrite lookup_replicate_2 by assumption. reflexivity.
Qed.

(** A freshly created buffer whose every sample is written once. *)
(** For the length of a buffer that has a frame, the checked call is the
    plain allocation. *)
Lemma createBufferOfLength_shape (channels len : nat) (rate : Z) :
  (1 <= len)%nat ->
  createBufferOfLength channels (Z.of_nat len) rate
  = Ok (createBuffer channels len rate).
Proof.
  intros Hlen. unfold createBufferOfLength.
  destruct (Z.leb_spec (Z.of_nat len) 0); [lia|]. rewrite Nat2Z.id. reflexivity.
Qed.

Lemma fill_buffer (channels len : nat) (rate : Z) (g : nat -> nat -> Q) :
  forLoop channels
    (fun c b => setChannelData b c
       (forLoop len (fun i d => <[i := g c i]> d) (getChannelData b c)))
    (createBuffer channels len rate)
  = mkAudioBuffer channels len rate
      (map (fun c => map (g c) (seq 0 len)) (seq 0 channels)).
Proof.
  pose proof (channels_loop_closed
    (fun c d => forLoop len (fun i d' => <[i := g c i]> d') d)
    (createBuffer channels len rate)) as H.
  simpl in H. rewrite H by apply length_replicate. f_equal.
  apply map_ext_in. intros c Hc. apply in_seq in Hc.
  rewrite getChannelData_createBuffer by lia.
  rewrite <- (length_replicate len 0) at 1.
  rewrite forLoop_fill, length_replicate. reflexivity.
Qed.

Lemma getChannelData_filled (channels len : nat) (rate : Z)
    (g : nat -> nat -> Q) (c : nat) :
  (c < channels)%nat ->
  getChannelData
    (mkAudioBuffer channels len rate
       (map (fun c => map (g c) (seq 0 len)) (seq 0 channels))) c
  = map (g c) (seq 0 len).
Proof.
  intros Hc. unfold getChannelData. simpl.
  rewrite list_lookup_fmap, lookup_seq_lt by assumption. reflexivity.
Qed.

Lemma sample_map_seq (g : nat -> Q) (len i : nat) :
  (i < len)%nat -> sample (map g (seq 0 len)) i = g i.
Proof.
  intros Hi. unfold sample.
  rewrite list_lookup_fmap, lookup_seq_lt by assumption. reflexivity.
Qed.

Lemma wfBuffer_filled (channels len : nat) (rate : Z) (g : nat -> nat -> Q) :
  (1 <= channels)%nat -> (0 < rate)%Z ->
  wfBuffer (mkAudioBuffer channels len rate
              (map (fun c => map (g c) (seq 0 len)) (seq 0 channels))).
Proof.
  intros Hc Hr. unfold wfBuffer. simpl.
  rewrite length_map, length_seq. repeat split; try assumption.
  apply Forall_forall. intros ch Hin. apply list_elem_of_In, in_map_iff in Hin.
  destruct Hin as [c [<- _]]. rewrite length_map, length_seq. reflexivity.
Qed.

Lemma wfBufferb_spec (b : AudioBuffer) : wfBufferb b = true <-> wfBuffer b.
Proof.
  unfold wfBufferb, wfBuffer.
  rewrite !andb_true_iff, Nat.eqb_eq, Nat.leb_le, Z.ltb_lt, forallb_forall,
          Forall_forall.
  split.
  - intros [[[H1 H2] H3] H4]. repeat split; try assumption.
    intros ch Hin. apply Nat.eqb_eq, H4, list_elem_of_In, Hin.
  - intros (H1 & H2 & H3 & H4). repeat split; try assumption.
    intros ch Hin. apply Nat.eqb_eq, H4, list_elem_of_In, Hin.
Qed.

(** A well-formed buffer is the table of its samples. *)
Lemma channelData_table (b : AudioBuffer) :
  wfBuffer b ->
  channelData b
  = map (fun c => map (fun i => sample (getChannelData b c) i)
                      (seq 0 (bufLength b)))
        (seq 0 (numberOfChannels b)).
Proof.
  intros (Hlen & _ & _ & Hall). apply list_eq. intros c.
  rewrite list_lookup_fmap.
  destruct (decide (c < numberOfChannels b)%nat) as [Hc|Hc].
  - rewrite lookup_seq_lt by assumption. simpl.
    destruct (lookup_lt_is_Some_2 (channelData b) c ltac:(lia)) as [ch Hch].
    rewrite Hch. f_equal. unfold getChannelData. rewrite Hch. simpl.
    assert (Hl : length ch = bufLength b).
    { rewrite Forall_forall in Hall. apply Hall.
      apply list_elem_of_lookup. eauto. }
    rewrite <- Hl. apply list_eq. intros i. rewrite list_lookup_fmap.
    destruct (decide (i < length ch)%nat) as [Hi|Hi].
    + rewrite lookup_seq_lt by assumption. simpl. unfold sample.
      destruct (lookup_lt_is_Some_2 ch i Hi) as [x Hx]. rewrite Hx. reflexivity.
    + rewrite lookup_seq_ge by lia. rewrite lookup_ge_None_2 by lia. reflexivity.
  - rewrite lookup_seq_ge by lia. rewrite lookup_ge_None_2 by lia. reflexivity.
Qed.

Lemma Qmult_1_r_eq (x : Q) : x * 1 = x.
Proof.
  destruct x as [n d]. unfold Qmult. simpl.
  rewrite Z.mul_1_r, Pos.mul_1_r. reflexivity.
Qed.

(** * changeVolume *)

Lemma changeVolume_closed (p : AudioProcessor) (b : AudioBuffer) (f : Q) :
  is_Some (audioContext p) ->
  changeVolume p b f
  = Ok (mkAudioBuffer (numberOfChannels b) (bufLength b) (sampleRate b)
          (map (fun c => map (fun i => sample (getChannelData b c) i * f)
                             (seq 0 (bufLength b)))
               (seq 0 (numberOfChannels b)))).
Proof.
  intros [ctx Hctx]. unfold changeVolume. rewrite Hctx. f_equal.
  apply (fill_buffer _ _ _ (fun c i => sample (getChannelData b c) i * f)).
Qed.

(** C7: [changeVolume] multiplies every sample by the factor and nothing
    else: the result has the shape of the input, each of its samples is the
    input sample times the factor (no clamping); with factor 0 every sample
    is zero, and with factor 1 the result is the input buffer, sample for
    sample. *)
Theorem changeVolume_scales (p : AudioProcessor) (b : AudioBuffer) (f : Q) :
  is_Some (audioContext p) ->
  wfBuffer b ->
  exists out,
    changeVolume p b f = Ok out /\
    wfBuffer out /\
    numberOfChannels out = numberOfChannels b /\
    bufLength out = bufLength b /\
    sampleRate out = sampleRate b /\
    (forall c i, (c < numberOfChannels b)%nat -> (i < bufLength b)%nat ->
       sample (getChannelData out c) i = sample (getChannelData b c) i * f) /\
    (f == 0 ->
     forall c i, (c < numberOfChannels b)%nat -> (i < bufLength b)%nat ->
       sample (getChannelData out c) i == 0) /\
    (f = 1 -> out = b).
Proof.
  intros Hctx Hwf. eexists. split; [apply changeVolume_closed, Hctx|].
  assert (Hs : forall c i, (c < numberOfChannels b)%nat -> (i < bufLength b)%nat ->
    sample (getChannelData
      (mkAudioBuffer (numberOfChannels b) (bufLength b) (sampleRate b)
         (map (fun c => map (fun i => sample (getChannelData b c) i * f)
                            (seq 0 (bufLength b)))
              (seq 0 (numberOfChannels b)))) c) i
    = sample (getChannelData b c) i * f).
  { intros c i Hc Hi.
    rewrite (getChannelData_filled _ _ _
               (fun c i => sample (getChannelData b c) i * f)) by assumption.
    rewrite (sample_map_seq (fun i => sample (getChannelData b c) i * f))
      by assumption.
    reflexivity. }
  split; [|split; [|split; [|split; [|split; [|split]]]]]; try reflexivity.
  - destruct Hwf as (_ & H1 & H2 & _).
    apply (wfBuffer_filled _ _ _ (fun c i => sample (getChannelData b c) i * f));
      assumption.
  - exact Hs.
  - intros Hf c i Hc Hi. rewrite Hs by assumption. rewrite Hf. ring.
  - intros ->. pose proof (channelData_table b Hwf) as Ht.
    destruct b as [C N R chans]. simpl in *. f_equal.
    etransitivity; [|symmetry; exact Ht].
    apply map_ext. intros c. apply map_ext. intros i. apply Qmult_1_r_eq.
Qed.

Lemma changeVolume_scales_witness :
  exists out,
    changeVolume demoProcessor demoBuffer (1 # 2) = Ok out /\
    wfBuffer out /\
    numberOfChannels out = numberOfChannels demoBuffer /\
    bufLength out = bufLength demoBuffer /\
    sampleRate out = sampleRate demoBuffer /\
    (forall c i, (c < numberOfChannels demoBuffer)%nat ->
                 (i < bufLength demoBuffer)%nat ->
       sample (getChannelData out c) i
       = sample (getChannelData demoBuffer c) i * (1 # 2)) /\
    ((1 # 2) == 0 ->
     forall c i, (c < numberOfChannels demoBuffer)%nat ->
                 (i < bufLength demoBuffer)%nat ->
       sample (getChannelData out c) i == 0) /\
    ((1 # 2) = 1 -> out = demoBuffer).
Proof.
  apply (changeVolume_scales demoProcessor demoBuffer (1 # 2)).
  - eexists; reflexivity.
  - apply wfBufferb_spec. reflexivity.
Defined.

Lemma getChannelData_length (b : AudioBuffer) (c : nat) :
  wfBuffer b -> (c < numberOfChannels b)%nat ->
  length (getChannelData b c) = bufLength b.
Proof.
  intros (Hlen & _ & _ & Hall) Hc. unfold getChannelData.
  destruct (lookup_lt_is_Some_2 (channelData b) c ltac:(lia)) as [ch Hch].
  rewrite Hch. simpl. rewrite Forall_forall in Hall. apply Hall.
  apply list_elem_of_lookup. eauto.
Qed.

(** * trimAudio *)

Lemma orZero_Some (x : Q) : orZero (Some x) == x.
Proof.
  unfold orZero. destruct (Qeq_bool x 0) eqn:E; [|reflexivity].
  apply Qeq_bool_iff in E. symmetry. exact E.
Qed.

Lemma jsIndex_inside (data : list Q) (j : Z) :
  (0 <= j < Z.of_nat (length data))%Z ->
  jsIndex data j = Some (sample data (Z.to_nat j)).
Proof.
  intros Hj. unfold jsIndex, sample.
  destruct (Z.ltb_spec j 0); [lia|].
  destruct (lookup_lt_is_Some_2 data (Z.to_nat j) ltac:(lia)) as [x Hx].
  rewrite Hx. reflexivity.
Qed.

Lemma jsIndex_outside (data : list Q) (j : Z) :
  (j < 0 \/ Z.of_nat (length data) <= j)%Z -> jsIndex data j = None.
Proof.
  intros Hj. unfold jsIndex. destruct (Z.ltb_spec j 0); [reflexivity|].
  apply lookup_ge_None_2. lia.
Qed.

Lemma trimAudio_closed (p : AudioProcessor) (b : AudioBuffer) (s e : Q) :
  is_Some (audioContext p) ->
  let startSample := Qfloor (roundDouble (s * inject_Z (sampleRate b))) in
  let endSample := Qfloor (roundDouble (e * inject_Z (sampleRate b))) in
  let len := Z.to_nat (endSample - startSample) in
  (1 <= endSample - startSample)%Z ->
  trimAudio p b s e
  = Ok (mkAudioBuffer (numberOfChannels b) len (sampleRate b)
          (map (fun c =>
                  map (fun i => orZero (jsIndex (getChannelData b c)
                                                (startSample + Z.of_nat i)))
                      (seq 0 len))
               (seq 0 (numberOfChannels b)))).
Proof.
  intros [ctx Hctx] startSample endSample len Hlen. unfold trimAudio.
  rewrite Hctx. cbv zeta. fold startSample endSample.
  unfold createBufferOfLength.
  destruct (Z.leb_spec (endSample - startSample) 0) as [H|_]; [lia|].
  cbn [mbind result_bind]. f_equal.
  apply (fill_buffer _ _ _
    (fun c i => orZero (jsIndex (getChannelData b c) (startSample + Z.of_nat i)))).
Qed.

(** A range without a whole frame: the platform refuses the buffer. *)
Lemma trimAudio_no_frames (p : AudioProcessor) (b : AudioBuffer) (s e : Q) :
  is_Some (audioContext p) ->
  (Qfloor (roundDouble (e * inject_Z (sampleRate b)))
   - Qfloor (roundDouble (s * inject_Z (sampleRate b))) <= 0)%Z ->
  trimAudio p b s e = Throw "NotSupportedError".
Proof.
  intros [ctx Hctx] Hlen. unfold trimAudio. rewrite Hctx. cbv zeta.
  unfold createBufferOfLength.
  destruct (Z.leb_spec (Qfloor (roundDouble (e * inject_Z (sampleRate b)))
                        - Qfloor (roundDouble (s * inject_Z (sampleRate b)))) 0);
    [reflexivity|lia].
Qed.

(** C5, as the code has it.  The frame indices are
    [startSample = floor(s*sampleRate)] and [endSample = floor(e*sampleRate)],
    the products being doubles.  When the range holds at least one frame,
    [trimAudio] returns a new buffer of [endSample - startSample] samples
    per channel; sample [i] of the result is the source sample at
    [startSample + i] when that index lies in the source, and 0 when it
    lies past the end (or before the start); no error is raised for such
    reads.  When [s < e] lie in the same frame the range holds no frame
    and [trimAudio] raises an error: the platform does not create a buffer
    without frames. *)
Theorem trimAudio_pads_with_silence (p : AudioProcessor) (b : AudioBuffer)
    (s e : Q) :
  is_Some (audioContext p) ->
  wfBuffer b ->
  s < e ->
  let startSample := Qfloor (roundDouble (s * inject_Z (sampleRate b))) in
  let endSample := Qfloor (roundDouble (e * inject_Z (sampleRate b))) in
  ((endSample - startSample <= 0)%Z ->
   trimAudio p b s e = Throw "NotSupportedError") /\
  ((1 <= endSample - startSample)%Z ->
   exists out,
     trimAudio p b s e = Ok out /\
     wfBuffer out /\
     numberOfChannels out = numberOfChannels b /\
     sampleRate out = sampleRate b /\
     Z.of_nat (bufLength out) = (endSample - startSample)%Z /\
     forall c i, (c < numberOfChannels b)%nat -> (i < bufLength out)%nat ->
       let j := (startSample + Z.of_nat i)%Z in
       ((0 <= j < Z.of_nat (bufLength b))%Z ->
        sample (getChannelData out c) i
        == sample (getChannelData b c) (Z.to_nat j)) /\
       ((j < 0 \/ Z.of_nat (bufLength b) <= j)%Z ->
        sample (getChannelData out c) i = 0)).
Proof.
  intros Hctx Hwf _ startSample endSample.
  split; [apply trimAudio_no_frames, Hctx|]. intros Hlen.
  eexists. split; [apply trimAudio_closed; [exact Hctx|exact Hlen]|].
  fold startSample endSample.
  set (g := fun c i => orZero (jsIndex (getChannelData b c)
                                       (startSample + Z.of_nat i))).
  split; [|split; [|split; [|split]]]; try reflexivity.
  - destruct Hwf as (_ & H1 & H2 & _). apply (wfBuffer_filled _ _ _ g); assumption.
  - simpl. lia.
  - cbn [bufLength numberOfChannels sampleRate]. intros c i Hc Hi.
    rewrite (getChannelData_filled _ _ _ g) by assumption.
    rewrite (sample_map_seq (g c)) by assumption.
    unfold g. cbv zeta.
    set (j := (startSample + Z.of_nat i)%Z).
    pose proof (getChannelData_length b c Hwf Hc) as Hlen'.
    split; intros Hj.
    + rewrite jsIndex_inside by lia. apply orZero_Some.
    + rewrite jsIndex_outside by lia. reflexivity.
Qed.

Lemma trimAudio_pads_with_silence_witness :
  trimAudio demoProcessor demoBuffer 0 (1 # 65536) = Throw "NotSupportedError" /\
  exists out,
    trimAudio demoProcessor demoBuffer (roundDouble (1 # 48000))
              (roundDouble (5 # 48000)) = Ok out /\
    wfBuffer out /\
    numberOfChannels out = numberOfChannels demoBuffer /\
    sampleRate out = sampleRate demoBuffer /\
    Z.of_nat (bufLength out) = (5 - 1)%Z /\
    forall c i, (c < numberOfChannels demoBuffer)%nat -> (i < bufLength out)%nat ->
      let j := (1 + Z.of_nat i)%Z in
      ((0 <= j < Z.of_nat (bufLength demoBuffer))%Z ->
       sample (getChannelData out c) i
       == sample (getChannelData demoBuffer c) (Z.to_nat j)) /\
      ((j < 0 \/ Z.of_nat (bufLength demoBuffer) <= j)%Z ->
       sample (getChannelData out c) i = 0).
Proof.
  split.
  - apply (trimAudio_pads_with_silence demoProcessor demoBuffer 0 (1 # 65536)).
    + eexists; reflexivity.
    + apply wfBufferb_spec. reflexivity.
    + reflexivity.
    + vm_compute. discriminate.
  - apply (trimAudio_pads_with_silence demoProcessor demoBuffer
             (roundDouble (1 # 48000)) (roundDouble (5 # 48000))).
    + eexists; reflexivity.
    + apply wfBufferb_spec. reflexivity.
    + vm_compute. reflexivity.
    + vm_compute. discriminate.
Defined.

(** C5 as stated fails for a range shorter than one frame: at 48 kHz the
    times 0 and 2^-16 s both fall in frame 0, and [trimAudio] returns no
    buffer. *)
Lemma trimAudio_sub_frame_counterexample :
  0 < 1 # 65536 /\
  (Qfloor (roundDouble ((1 # 65536) * inject_Z (sampleRate demoBuffer)))
   - Qfloor (roundDouble (0 * inject_Z (sampleRate demoBuffer))) = 0)%Z /\
  ~ exists out, trimAudio demoProcessor demoBuffer 0 (1 # 65536) = Ok out.
Proof.
  split; [reflexivity|]. split; [vm_compute; reflexivity|].
  intros [out H]. vm_compute in H. discriminate H.
Qed.

(** * normalizeAudio *)

Lemma forLoop_list {A T : Type} (d : A) (h : A -> T -> T) (l : list A) (s : T) :
  forLoop (length l) (fun i st => h (default d (l !! i)) st) s
  = fold_left (fun st x => h x st) l s.
Proof.
  induction l as [|x l IH] using rev_ind; [reflexivity|].
  rewrite length_app, Nat.add_1_r, forLoop_S, fold_left_app. simpl.
  rewrite lookup_app_r, Nat.sub_diag by lia. simpl.
  f_equal. rewrite <- IH. apply forLoop_ext. intros i st Hi.
  rewrite lookup_app_l by lia. reflexivity.
Qed.

Lemma findPeak_fold (b : AudioBuffer) :
  length (channelData b) = numberOfChannels b ->
  findPeak b = peakOfChannels 0 (channelData b).
Proof.
  intros Hlen. unfold findPeak, peakOfChannels. rewrite <- Hlen.
  rewrite <- (forLoop_list [] (fun data peak => peakFrom peak data)).
  apply forLoop_ext. intros c peak _. unfold getChannelData.
  apply (forLoop_samples (fun x peak => Qmax peak (Qabs x))).
Qed.

Lemma peakFrom_ge (data : list Q) (peak : Q) : peak <= peakFrom peak data.
Proof.
  revert peak. induction data as [|x data IH]; intros peak; simpl.
  - apply Qle_refl.
  - eapply Qle_trans; [apply (Q.le_max_l peak (Qabs x))|apply IH].
Qed.

Lemma peakFrom_bounds (data : list Q) (peak : Q) (x : Q) :
  In x data -> Qabs x <= peakFrom peak data.
Proof.
  revert peak. induction data as [|y data IH]; intros peak Hin; [contradiction|].
  simpl. destruct Hin as [->|Hin].
  - eapply Qle_trans; [apply (Q.le_max_r peak (Qabs x))|apply peakFrom_ge].
  - apply IH, Hin.
Qed.

Lemma peakFrom_attained (data : list Q) (peak : Q) :
  peakFrom peak data == peak \/ exists x, In x data /\ peakFrom peak data == Qabs x.
Proof.
  revert peak. induction data as [|y data IH]; intros peak; simpl.
  - left. reflexivity.
  - destruct (IH (Qmax peak (Qabs y))) as [H|[x [Hin H]]].
    + destruct (Q.max_dec peak (Qabs y)) as [E|E].
      * left. rewrite H. exact E.
      * right. exists y. split; [left; reflexivity|]. rewrite H. exact E.
    + right. exists x. split; [right; exact Hin|exact H].
Qed.

Lemma peakOfChannels_ge (chans : list (list Q)) (peak : Q) :
  peak <= peakOfChannels peak chans.
Proof.
  revert peak. induction chans as [|ch chans IH]; intros peak; simpl.
  - apply Qle_refl.
  - eapply Qle_trans; [apply (peakFrom_ge ch peak)|apply IH].
Qed.

Lemma peakOfChannels_bounds (chans : list (list Q)) (peak : Q) (ch : list Q) (x : Q) :
  In ch chans -> In x ch -> Qabs x <= peakOfChannels peak chans.
Proof.
  revert peak. induction chans as [|ch' chans IH]; intros peak Hch Hx;
    [contradiction|].
  simpl. destruct Hch as [->|Hch].
  - eapply Qle_trans; [apply (peakFrom_bounds ch peak x Hx)|].
    apply peakOfChannels_ge.
  - apply IH; assumption.
Qed.

Lemma peakOfChannels_attained (chans : list (list Q)) (peak : Q) :
  peakOfChannels peak chans == peak \/
  exists ch x, In ch chans /\ In x ch /\ peakOfChannels peak chans == Qabs x.
Proof.
  revert peak. induction chans as [|ch' chans IH]; intros peak; simpl.
  - left. reflexivity.
  - destruct (IH (peakFrom peak ch')) as [H|(ch & x & Hch & Hx & H)].
    + destruct (peakFrom_attained ch' peak) as [E|[x [Hx E]]].
      * left. rewrite H. exact E.
      * right. exists ch', x. split; [left; reflexivity|]. split; [exact Hx|].
        rewrite H. exact E.
    + right. exists ch, x. split; [right; exact Hch|]. split; assumption.
Qed.

#[local] Instance peakFrom_proper (data : list Q) :
  Proper (Qeq ==> Qeq) (fun peak => peakFrom peak data).
Proof.
  induction data as [|x data IH]; intros p q Hpq; simpl; [exact Hpq|].
  apply IH. rewrite Hpq. reflexivity.
Qed.

Lemma Qmax_scale (g a b : Q) : 0 <= g -> Qmax (g * a) (g * b) == g * Qmax a b.
Proof.
  intros Hg. apply (Q.max_mono (fun x => g * x)).
  - intros x y Hxy. rewrite Hxy. reflexivity.
  - intros x y Hxy. nra.
Qed.

Lemma peakFrom_scale (g : Q) (data : list Q) (peak peak' : Q) :
  0 <= g -> peak' == g * peak ->
  peakFrom peak' (map (fun x => x * g) data) == g * peakFrom peak data.
Proof.
  intros Hg. revert peak peak'.
  induction data as [|x data IH]; intros peak peak' Hp; simpl; [exact Hp|].
  apply IH.
  assert (E : Qabs (x * g) == g * Qabs x).
  { rewrite Qabs_Qmult, (Qabs_pos g Hg). apply Qmult_comm. }
  etransitivity; [apply Q.max_compat; [exact Hp|exact E]|].
  apply Qmax_scale, Hg.
Qed.

Lemma peakOfChannels_scale (g : Q) (chans : list (list Q)) (peak peak' : Q) :
  0 <= g -> peak' == g * peak ->
  peakOfChannels peak' (map (map (fun x => x * g)) chans)
  == g * peakOfChannels peak chans.
Proof.
  intros Hg. revert peak peak'.
  induction chans as [|ch chans IH]; intros peak peak' Hp; simpl; [exact Hp|].
  apply IH. apply peakFrom_scale; assumption.
Qed.

Lemma changeVolume_map (p : AudioProcessor) (b : AudioBuffer) (f : Q) :
  is_Some (audioContext p) -> wfBuffer b ->
  changeVolume p b f
  = Ok (mkAudioBuffer (numberOfChannels b) (bufLength b) (sampleRate b)
          (map (map (fun x => x * f)) (channelData b))).
Proof.
  intros Hctx Hwf. rewrite changeVolume_closed by assumption.
  do 2 f_equal. symmetry.
  etransitivity; [rewrite (channelData_table b Hwf); reflexivity|].
  rewrite map_map. apply map_ext. intros c.
  rewrite map_map. reflexivity.
Qed.

(** [findPeak] is the largest absolute sample of the buffer. *)
Lemma findPeak_is_peak (b : AudioBuffer) :
  wfBuffer b ->
  0 <= findPeak b /\
  (forall c i, (c < numberOfChannels b)%nat -> (i < bufLength b)%nat ->
     Qabs (sample (getChannelData b c) i) <= findPeak b) /\
  (findPeak b == 0 \/
   exists c i, (c < numberOfChannels b)%nat /\ (i < bufLength b)%nat /\
     findPeak b == Qabs (sample (getChannelData b c) i)).
Proof.
  intros Hwf. pose proof Hwf as (Hlen & _ & _ & Hall).
  rewrite findPeak_fold by assumption.
  split; [apply peakOfChannels_ge|]. split.
  - intros c i Hc Hi.
    pose proof (getChannelData_length b c Hwf Hc) as Hl.
    unfold getChannelData in *.
    destruct (lookup_lt_is_Some_2 (channelData b) c ltac:(lia)) as [ch Hch].
    rewrite Hch in *. simpl in *. unfold sample.
    destruct (lookup_lt_is_Some_2 ch i ltac:(lia)) as [x Hx]. rewrite Hx. simpl.
    apply (peakOfChannels_bounds _ _ ch x).
    + apply list_elem_of_In, list_elem_of_lookup. eauto.
    + apply list_elem_of_In, list_elem_of_lookup. eauto.
  - destruct (peakOfChannels_attained (channelData b) 0)
      as [H|(ch & x & Hch & Hx & H)]; [left; exact H|].
    right. apply list_elem_of_In, list_elem_of_lookup in Hch. destruct Hch as [c Hc].
    apply list_elem_of_In, list_elem_of_lookup in Hx. destruct Hx as [i Hi].
    exists c, i.
    pose proof (lookup_lt_Some _ _ _ Hc) as Hc'.
    pose proof (lookup_lt_Some _ _ _ Hi) as Hi'.
    assert (Hl : length ch = bufLength b).
    { rewrite Forall_forall in Hall. apply Hall, list_elem_of_lookup. eauto. }
    split; [lia|]. split; [lia|].
    unfold getChannelData, sample. rewrite Hc. simpl. rewrite Hi. exact H.
Qed.

Lemma wfBuffer_scaled (b : AudioBuffer) (f : Q) : wfBuffer b -> wfBuffer (scaled b f).
Proof.
  intros (H1 & H2 & H3 & H4). unfold wfBuffer, scaled. simpl.
  rewrite length_map. repeat split; try assumption.
  apply Forall_fmap. eapply Forall_impl; [exact H4|].
  intros ch Hch. simpl. rewrite length_map. exact Hch.
Qed.

Lemma sample_scaled (b : AudioBuffer) (f : Q) (c i : nat) :
  wfBuffer b -> (c < numberOfChannels b)%nat -> (i < bufLength b)%nat ->
  sample (getChannelData (scaled b f) c) i = sample (getChannelData b c) i * f.
Proof.
  intros Hwf Hc Hi. pose proof (getChannelData_length b c Hwf Hc) as Hl.
  destruct Hwf as (Hlen & _). unfold getChannelData, scaled in *. simpl.
  rewrite list_lookup_fmap.
  destruct (lookup_lt_is_Some_2 (channelData b) c ltac:(lia)) as [ch Hch].
  rewrite Hch in *. simpl in *. unfold sample. rewrite list_lookup_fmap.
  destruct (lookup_lt_is_Some_2 ch i ltac:(lia)) as [x Hx].
  rewrite Hx. reflexivity.
Qed.

Lemma findPeak_scaled (b : AudioBuffer) (f : Q) :
  wfBuffer b -> 0 <= f -> findPeak (scaled b f) == f * findPeak b.
Proof.
  intros Hwf Hf. pose proof (wfBuffer_scaled b f Hwf) as Hwf'.
  rewrite (findPeak_fold (scaled b f)) by apply Hwf'.
  rewrite (findPeak_fold b) by apply Hwf.
  apply peakOfChannels_scale; [exact Hf|ring].
Qed.

Lemma normalizeAudio_silent (p : AudioProcessor) (b : AudioBuffer) :
  is_Some (audioContext p) -> findPeak b == 0 -> normalizeAudio p b = Ok b.
Proof.
  intros [ctx Hctx] Hpeak. unfold normalizeAudio. rewrite Hctx.
  apply Qeq_bool_iff in Hpeak. rewrite Hpeak. reflexivity.
Qed.

Lemma normalizeAudio_scales (p : AudioProcessor) (b : AudioBuffer) :
  is_Some (audioContext p) -> wfBuffer b -> ~ findPeak b == 0 ->
  normalizeAudio p b = Ok (scaled b ((95 # 100) / findPeak b)) /\
  findPeak (scaled b ((95 # 100) / findPeak b)) == 95 # 100.
Proof.
  intros Hctx Hwf Hpeak. split.
  - pose proof Hctx as [ctx Hc]. unfold normalizeAudio. rewrite Hc.
    destruct (Qeq_bool (findPeak b) 0) eqn:E.
    + apply Qeq_bool_iff in E. contradiction.
    + apply changeVolume_map; assumption.
  - rewrite findPeak_scaled; [field; exact Hpeak|exact Hwf|].
    destruct (findPeak_is_peak b Hwf) as (Hpos & _).
    apply Qlt_le_weak, Qlt_shift_div_l; lra.
Qed.










(** * mixAudioBuffers *)

Lemma sample_jsAddAt (data : list Q) (k : Z) (v : Q) (j : nat) :
  (j < length data)%nat ->
  sample (jsAddAt data k v) j
  = if (k =? Z.of_nat j)%Z then sample data j + v else sample data j.
Proof.
  intros Hj. unfold jsAddAt, sample.
  destruct (Z.ltb_spec k 0) as [Hk|Hk].
  - destruct (Z.eqb_spec k (Z.of_nat j)); [lia|reflexivity].
  - destruct (Z.eqb_spec k (Z.of_nat j)) as [E|E].
    + replace (Z.to_nat k) with j by lia. rewrite list_lookup_alter_eq.
      destruct (lookup_lt_is_Some_2 data j Hj) as [x Hx]. rewrite Hx. reflexivity.
    + rewrite list_lookup_alter_ne by lia. reflexivity.
Qed.

Lemma length_jsAddAt (data : list Q) (k : Z) (v : Q) :
  length (jsAddAt data k v) = length data.
Proof.
  unfold jsAddAt. destruct (k <? 0)%Z; [reflexivity|apply length_alter].
Qed.

Section AddSource.
Variables (sourceData : list Q) (startSample : Z) (volume : Q).

Let cond (i : nat) (mixedData : list Q) : bool :=
  (i <? length sourceData)%nat &&
  (startSample + Z.of_nat i <? Z.of_nat (length mixedData))%Z.

Let body (i : nat) (mixedData : list Q) : list Q :=
  jsAddAt mixedData (startSample + Z.of_nat i) (sample sourceData i * volume).

(** The samples of the source from [i] on that land on index [j]. *)
Let landed (i j : nat) : Q :=
  let k := (Z.of_nat j - startSample)%Z in
  if (Z.of_nat i <=? k)%Z && (k <? Z.of_nat (length sourceData))%Z
  then sample sourceData (Z.to_nat k) * volume
  else 0.

Lemma forWhile_addSource (fuel i : nat) (mixedData : list Q) :
  (fuel + i = length sourceData)%nat ->
  length (forWhile fuel i cond body mixedData) = length mixedData /\
  forall j, (j < length mixedData)%nat ->
    sample (forWhile fuel i cond body mixedData) j
    == sample mixedData j + landed i j.
Proof.
  revert i mixedData. induction fuel as [|fuel IH]; intros i mixedData Hfuel.
  - simpl. split; [reflexivity|]. intros j Hj. unfold landed. cbv zeta.
    destruct (Z.leb_spec (Z.of_nat i) (Z.of_nat j - startSample));
      destruct (Z.ltb_spec (Z.of_nat j - startSample)
                           (Z.of_nat (length sourceData)));
      simpl; try lia; ring.
  - cbn [forWhile]. destruct (cond i mixedData) eqn:Hc; unfold cond in Hc.
    + apply andb_true_iff in Hc. destruct Hc as [_ Hin].
      apply Z.ltb_lt in Hin.
      destruct (IH (Datatypes.S i) (body i mixedData) ltac:(lia)) as [Hlen Hs].
      assert (Hb : length (body i mixedData) = length mixedData)
        by (unfold body; apply length_jsAddAt).
      rewrite Hb in Hlen, Hs.
      split; [exact Hlen|]. intros j Hj.
      transitivity (sample (body i mixedData) j + landed (Datatypes.S i) j);
        [exact (Hs j Hj)|]. clear Hs.
      unfold body. rewrite sample_jsAddAt by exact Hj.
      unfold landed. cbv zeta.
      destruct (Z.eqb_spec (startSample + Z.of_nat i) (Z.of_nat j)) as [E|E].
      * replace (Z.of_nat j - startSample)%Z with (Z.of_nat i) by lia.
        rewrite Nat2Z.id.
        destruct (Z.leb_spec (Z.of_nat (Datatypes.S i)) (Z.of_nat i)); [lia|].
        destruct (Z.leb_spec (Z.of_nat i) (Z.of_nat i)); [|lia].
        destruct (Z.ltb_spec (Z.of_nat i) (Z.of_nat (length sourceData)));
          [|lia].
        simpl. ring.
      * destruct (Z.leb_spec (Z.of_nat (Datatypes.S i))
                             (Z.of_nat j - startSample));
          destruct (Z.leb_spec (Z.of_nat i) (Z.of_nat j - startSample));
          try lia; reflexivity.
    + apply andb_false_iff in Hc. destruct Hc as [Hc|Hc].
      { apply Nat.ltb_ge in Hc. lia. }
      apply Z.ltb_ge in Hc.
      split; [reflexivity|]. intros j Hj. unfold landed. cbv zeta.
      destruct (Z.leb_spec (Z.of_nat i) (Z.of_nat j - startSample));
        [lia|]. simpl. ring.
Qed.

(** The loop leaves by its own test: more fuel changes nothing. *)
Lemma forWhile_addSource_fuel (extra fuel i : nat) (mixedData : list Q) :
  (fuel + i = length sourceData)%nat ->
  forWhile (fuel + extra) i cond body mixedData
  = forWhile fuel i cond body mixedData.
Proof.
  revert i mixedData. induction fuel as [|fuel IH]; intros i mixedData Hfuel.
  - destruct extra as [|extra]; [reflexivity|]. cbn [Nat.add forWhile].
    unfold cond at 1.
    destruct (Nat.ltb_spec i (length sourceData)); [lia|]. reflexivity.
  - cbn [Nat.add forWhile]. destruct (cond i mixedData); [|reflexivity].
    apply IH. lia.
Qed.

Lemma addSource_fuel (extra : nat) (mixedData : list Q) :
  forWhile (length sourceData + extra) 0 cond body mixedData
  = addSource sourceData startSample volume mixedData.
Proof. apply forWhile_addSource_fuel. lia. Qed.

Lemma addSource_length (mixedData : list Q) :
  length (addSource sourceData startSample volume mixedData) = length mixedData.
Proof. apply (forWhile_addSource (length sourceData) 0 mixedData). lia. Qed.

Lemma addSource_sample (mixedData : list Q) (j : nat) :
  (j < length mixedData)%nat ->
  sample (addSource sourceData startSample volume mixedData) j
  == sample mixedData j + landed 0 j.
Proof. apply (forWhile_addSource (length sourceData) 0 mixedData). lia. Qed.
End AddSource.

Lemma sourceChannel_min (channel n : nat) :
  Z.to_nat (Z.min (Z.of_nat channel) (Z.of_nat n - 1)) = Nat.min channel (n - 1).
Proof. lia. Qed.

Lemma fold_sum_proper {A : Type} (f : A -> Q) (l : list A) (a a' : Q) :
  a == a' ->
  fold_left (fun acc e => acc + f e) l a == fold_left (fun acc e => acc + f e) l a'.
Proof.
  revert a a'. induction l as [|e l IH]; intros a a' Ha; simpl; [exact Ha|].
  apply IH. rewrite Ha. reflexivity.
Qed.

(** All the entries mixed into one output channel. *)
Lemma mix_channel (rate : Z) (channel : nat) (entries : list MixEntry)
    (mixedData : list Q) :
  Forall (fun e => wfBuffer (mixBuffer e)) entries ->
  let mixed :=
    fold_left (fun mixedData e =>
       let startSample := Qfloor (roundDouble (mixStartTime e * inject_Z rate)) in
       let sourceChannel :=
         Z.to_nat (Z.min (Z.of_nat channel)
                         (Z.of_nat (numberOfChannels (mixBuffer e)) - 1)) in
       let sourceData := getChannelData (mixBuffer e) sourceChannel in
       addSource sourceData startSample (mixVolume e) mixedData)
      entries mixedData in
  length mixed = length mixedData /\
  forall j, (j < length mixedData)%nat ->
    sample mixed j
    == fold_left (fun acc e => acc + contribution rate channel j e) entries
                 (sample mixedData j).
Proof.
  intros Hwf. revert mixedData.
  induction Hwf as [|e entries Hwfe _ IH]; intros mixedData; cbv zeta in *.
  - simpl. split; [reflexivity|]. intros; reflexivity.
  - cbn [fold_left]. rewrite sourceChannel_min.
    set (sourceData :=
           getChannelData (mixBuffer e)
             (Nat.min channel (numberOfChannels (mixBuffer e) - 1))).
    set (startSample := Qfloor (roundDouble (mixStartTime e * inject_Z rate))).
    destruct (IH (addSource sourceData startSample (mixVolume e) mixedData))
      as [Hlen Hs].
    rewrite addSource_length in Hlen, Hs.
    split; [exact Hlen|]. intros j Hj.
    etransitivity; [apply (Hs j Hj)|]. apply fold_sum_proper.
    etransitivity; [apply (addSource_sample _ _ _ _ _ Hj)|].
    apply Qplus_comp; [reflexivity|]. cbv zeta. unfold contribution. cbv zeta.
    fold startSample. fold sourceData.
    assert (Hl : length sourceData = bufLength (mixBuffer e)).
    { apply getChannelData_length; [exact Hwfe|].
      destruct Hwfe as (_ & H1 & _). lia. }
    rewrite Hl. reflexivity.
Qed.

Lemma maxOf_ge (l : list nat) (n : nat) : In n l -> (n <= maxOf l)%nat.
Proof.
  induction l as [|m l IH]; [contradiction|]. simpl.
  intros [->|Hin]; [lia|]. specialize (IH Hin). lia.
Qed.

Lemma maxOf_attained (l : list nat) : l <> [] -> In (maxOf l) l.
Proof.
  induction l as [|m l IH]; [congruence|]. intros _. simpl.
  destruct l as [|m' l].
  - left. simpl. lia.
  - destruct (Nat.max_spec m (maxOf (m' :: l))) as [[_ E]|[_ E]].
    + right. setoid_rewrite E. apply IH. congruence.
    + left. setoid_rewrite E. reflexivity.
Qed.

#[local] Instance fold_Qmax_proper (l : list Q) :
  Proper (Qeq ==> Qeq) (fold_left Qmax l).
Proof.
  induction l as [|x l IH]; intros a a' Ha; simpl; [exact Ha|].
  apply IH. rewrite Ha. reflexivity.
Qed.

Lemma fold_left_mapped {A B C : Type} (g : A -> B) (f : C -> B -> C)
    (l : list A) (c : C) :
  fold_left f (map g l) c = fold_left (fun c x => f c (g x)) l c.
Proof. revert c. induction l as [|x l IH]; intros c; simpl; [|rewrite IH]; reflexivity. Qed.

Lemma totalLength_max (first : MixEntry) (rest : list MixEntry) :
  0 <= endTimeOf first ->
  fold_left (fun totalLength e =>
               Qmax totalLength
                    (roundDouble (mixStartTime e + duration (mixBuffer e))))
            (first :: rest) 0
  == maxEndTime first rest.
Proof.
  intros Hpos. unfold maxEndTime. cbn [fold_left].
  change (roundDouble (mixStartTime first + duration (mixBuffer first)))
    with (endTimeOf first).
  rewrite <- (fold_left_mapped endTimeOf Qmax).
  apply (fold_Qmax_proper (map endTimeOf rest)).
  apply Q.max_r, Hpos.
Qed.

Lemma fold_Qmax_seed (l : list Q) (a b : Q) :
  fold_left Qmax l (Qmax a b) == Qmax a (fold_left Qmax l b).
Proof.
  revert b. induction l as [|x l IH]; intros b; simpl; [reflexivity|].
  rewrite <- IH. apply fold_Qmax_proper. symmetry. apply Q.max_assoc.
Qed.

(** The running maximum of the code starts at 0. *)
Lemma totalLength_seeded (first : MixEntry) (rest : list MixEntry) :
  fold_left (fun totalLength e =>
               Qmax totalLength
                    (roundDouble (mixStartTime e + duration (mixBuffer e))))
            (first :: rest) 0
  == Qmax 0 (maxEndTime first rest).
Proof.
  unfold maxEndTime. cbn [fold_left].
  change (roundDouble (mixStartTime first + duration (mixBuffer first)))
    with (endTimeOf first).
  rewrite <- (fold_left_mapped endTimeOf Qmax).
  apply fold_Qmax_seed.
Qed.

Lemma duration_nonneg (b : AudioBuffer) : wfBuffer b -> 0 <= duration b.
Proof.
  intros (_ & _ & Hr & _). unfold duration. apply roundDouble_sign.
  apply Qle_shift_div_l.
  - change 0 with (inject_Z 0). rewrite <- Zlt_Qlt. exact Hr.
  - rewrite Qmult_0_l. change 0 with (inject_Z 0). rewrite <- Zle_Qle. lia.
Qed.

Lemma sample_replicate_0 (len j : nat) : sample (replicate len 0) j = 0.
Proof.
  unfold sample. destruct (decide (j < len)%nat).
  - rewrite lookup_replicate_2 by assumption. reflexivity.
  - rewrite lookup_ge_None_2 by (rewrite length_replicate; lia). reflexivity.
Qed.

(** A mix without a whole frame: the platform refuses the buffer. *)
Lemma mixAudioBuffers_no_frames (p : AudioProcessor) (first : MixEntry)
    (rest : list MixEntry) :
  is_Some (audioContext p) ->
  (Qfloor
     (roundDouble
        (fold_left (fun totalLength e =>
                      Qmax totalLength
                           (roundDouble (mixStartTime e + duration (mixBuffer e))))
                   (first :: rest) 0%Q
         * inject_Z (sampleRate (mixBuffer first)))) <= 0)%Z ->
  mixAudioBuffers p (first :: rest) = Throw "NotSupportedError".
Proof.
  intros [ctx Hctx] Hlen. unfold mixAudioBuffers. rewrite Hctx. cbv zeta.
  unfold createBufferOfLength.
  match goal with |- context [(?n <=? 0)%Z] => destruct (Z.leb_spec n 0) end;
    [reflexivity|lia].
Qed.

(** What [mixAudioBuffers] returns for a non-empty list, in the code's own
    terms: the length is computed from the running maximum that starts at 0. *)
Lemma mixAudioBuffers_runs (p : AudioProcessor) (first : MixEntry)
    (rest : list MixEntry) :
  is_Some (audioContext p) ->
  Forall (fun e => wfBuffer (mixBuffer e)) (first :: rest) ->
  let totalSamples :=
    Qfloor
      (roundDouble
         (fold_left (fun totalLength e =>
                       Qmax totalLength
                            (roundDouble (mixStartTime e + duration (mixBuffer e))))
                    (first :: rest) 0
          * inject_Z (sampleRate (mixBuffer first)))) in
  (1 <= totalSamples)%Z ->
  exists out,
    mixAudioBuffers p (first :: rest) = Ok out /\
    sampleRate out = sampleRate (mixBuffer first) /\
    numberOfChannels out
    = maxOf (map (fun e => numberOfChannels (mixBuffer e)) (first :: rest)) /\
    Z.of_nat (bufLength out) = totalSamples /\
    length (channelData out) = numberOfChannels out /\
    forall c, (c < numberOfChannels out)%nat ->
      length (getChannelData out c) = bufLength out /\
      forall j, (j < bufLength out)%nat ->
        sample (getChannelData out c) j
        == mixedSample (sampleRate (mixBuffer first)) c j (first :: rest).
Proof.
  intros [ctx Hctx] Hwf totalSamples Hpos.
  set (entries := first :: rest) in *.
  set (rate := sampleRate (mixBuffer first)) in *.
  set (channels := maxOf (map (fun e => numberOfChannels (mixBuffer e)) entries)).
  set (len := Z.to_nat totalSamples).
  set (F := fun (channel : nat) (mixedData : list Q) =>
         fold_left (fun mixedData e =>
           let startSample :=
             Qfloor (roundDouble (mixStartTime e * inject_Z rate)) in
           let sourceChannel :=
             Z.to_nat (Z.min (Z.of_nat channel)
                             (Z.of_nat (numberOfChannels (mixBuffer e)) - 1)) in
           let sourceData := getChannelData (mixBuffer e) sourceChannel in
           addSource sourceData startSample (mixVolume e) mixedData)
         entries mixedData).
  assert (Hrun : mixAudioBuffers p entries
                 = Ok (mkAudioBuffer channels len rate
                         (map (fun c => F c (replicate len 0)) (seq 0 channels)))).
  { unfold mixAudioBuffers, entries. rewrite Hctx. cbv zeta.
    fold entries. fold rate. fold totalSamples.
    unfold createBufferOfLength.
    destruct (Z.leb_spec totalSamples 0) as [H|_]; [lia|].
    cbn [mbind result_bind]. fold len. fold channels. f_equal.
    pose proof (channels_loop_closed F (createBuffer channels len rate)) as H.
    cbn [numberOfChannels bufLength sampleRate channelData createBuffer] in H.
    etransitivity; [apply H, length_replicate|]. f_equal.
    apply map_ext_in. intros c Hc. apply in_seq in Hc.
    fold (createBuffer channels len rate).
    rewrite getChannelData_createBuffer by lia. reflexivity. }
  eexists. split; [exact Hrun|].
  split; [reflexivity|]. split; [reflexivity|].
  split; [cbn [bufLength]; unfold len; lia|].
  cbn [numberOfChannels bufLength channelData]. split.
  - rewrite length_map, length_seq. reflexivity.
  - intros c Hc.
    assert (Hget : getChannelData
                     (mkAudioBuffer channels len rate
                        (map (fun c => F c (replicate len 0)) (seq 0 channels))) c
                   = F c (replicate len 0)).
    { unfold getChannelData. cbn [channelData].
      rewrite list_lookup_fmap, lookup_seq_lt by assumption. reflexivity. }
    rewrite Hget.
    destruct (mix_channel rate c entries (replicate len 0) Hwf) as [Hl Hs].
    rewrite length_replicate in Hl, Hs. split; [exact Hl|]. intros j Hj.
    etransitivity; [apply (Hs j Hj)|].
    rewrite sample_replicate_0. reflexivity.
Qed.

(** The shape of a mix that was returned. *)
Lemma mixAudioBuffers_wf (first : MixEntry) (rest : list MixEntry)
    (out : AudioBuffer) :
  Forall (fun e => wfBuffer (mixBuffer e)) (first :: rest) ->
  sampleRate out = sampleRate (mixBuffer first) ->
  numberOfChannels out
  = maxOf (map (fun e => numberOfChannels (mixBuffer e)) (first :: rest)) ->
  length (channelData out) = numberOfChannels out ->
  (forall c, (c < numberOfChannels out)%nat ->
     length (getChannelData out c) = bufLength out) ->
  wfBuffer out.
Proof.
  intros Hwf Hrate Hchan Hrows Hlen.
  assert (Hfirst : wfBuffer (mixBuffer first)) by (inversion Hwf; assumption).
  unfold wfBuffer. split; [exact Hrows|]. split.
  - destruct Hfirst as (_ & H1 & _). rewrite Hchan.
    pose proof (maxOf_ge (map (fun e => numberOfChannels (mixBuffer e)) (first :: rest))
                  (numberOfChannels (mixBuffer first)) ltac:(left; reflexivity)).
    lia.
  - split; [rewrite Hrate; apply Hfirst|].
    apply Forall_forall. intros ch Hch.
    apply list_elem_of_lookup in Hch. destruct Hch as [c Hc].
    pose proof (lookup_lt_Some _ _ _ Hc) as Hlt. rewrite Hrows in Hlt.
    specialize (Hlen c Hlt).
    unfold getChannelData in Hlen. rewrite Hc in Hlen. exact Hlen.
Qed.




(** X25: for a non-empty list of entries (with a running audio context
    and well-formed buffers) the mix has [totalSamples] frames, the floor
    of [max(0, max(startTime + duration)) * sampleRate], each sum and
    product a double; the running maximum starts at 0, which shows only
    when an entry ends before time 0.  When [totalSamples] is 0 the
    platform refuses the buffer and [mixAudioBuffers] throws.  Otherwise
    it returns a buffer with the sample rate of the first entry and the
    largest channel count among the entries, and every output sample is
    the plain sum (no averaging, no clamping) of what each entry
    contributes: its sample at offset [floor(startTime * sampleRate)],
    times its volume, a source with fewer channels supplying its last
    channel (a mono source its only one) to the output channels it lacks. *)
Theorem mixAudioBuffers_sums (p : AudioProcessor) (first : MixEntry)
    (rest : list MixEntry) :
  is_Some (audioContext p) ->
  Forall (fun e => wfBuffer (mixBuffer e)) (first :: rest) ->
  let rate := sampleRate (mixBuffer first) in
  let totalSamples :=
    Qfloor (roundDouble (Qmax 0 (maxEndTime first rest) * inject_Z rate)) in
  (Forall (fun e => 0 <= mixStartTime e) (first :: rest) ->
   Qmax 0 (maxEndTime first rest) == maxEndTime first rest) /\
  ((totalSamples <= 0)%Z ->
   mixAudioBuffers p (first :: rest) = Throw "NotSupportedError") /\
  ((1 <= totalSamples)%Z ->
   exists out,
     mixAudioBuffers p (first :: rest) = Ok out /\
     wfBuffer out /\
     sampleRate out = rate /\
     numberOfChannels out
     = maxOf (map (fun e => numberOfChannels (mixBuffer e)) (first :: rest)) /\
     (forall e, In e (first :: rest) ->
        (numberOfChannels (mixBuffer e) <= numberOfChannels out)%nat) /\
     (exists e, In e (first :: rest) /\
        numberOfChannels (mixBuffer e) = numberOfChannels out) /\
     Z.of_nat (bufLength out) = totalSamples /\
     forall c j, (c < numberOfChannels out)%nat -> (j < bufLength out)%nat ->
       sample (getChannelData out c) j
       == mixedSample rate c j (first :: rest)).
Proof.
  intros Hctx Hwf rate totalSamples.
  assert (Hfirst : wfBuffer (mixBuffer first)) by (inversion Hwf; assumption).
  assert (Htotal : totalSamples
            = Qfloor
                (roundDouble
                   (fold_left (fun totalLength e =>
                        Qmax totalLength
                          (roundDouble (mixStartTime e + duration (mixBuffer e))))
                      (first :: rest) 0
                    * inject_Z rate))).
  { unfold totalSamples. f_equal. apply roundDouble_proper.
    apply Qmult_comp; [|reflexivity]. symmetry. apply totalLength_seeded. }
  split; [|split].
  - intros Hstart. apply Q.max_r.
    assert (H0 : 0 <= endTimeOf first).
    { unfold endTimeOf. apply roundDouble_sign.
      inversion Hstart as [|? ? Hs0 _]; subst.
      pose proof (duration_nonneg _ Hfirst). lra. }
    unfold maxEndTime. generalize (map endTimeOf rest) (endTimeOf first) H0.
    intros l. induction l as [|x l IH]; intros a Ha; simpl; [exact Ha|].
    apply IH. eapply Qle_trans; [exact Ha|apply Q.le_max_l].
  - intros Hlen. apply mixAudioBuffers_no_frames; [exact Hctx|].
    fold rate. rewrite <- Htotal. exact Hlen.
  - intros Hlen.
    destruct (mixAudioBuffers_runs p first rest Hctx Hwf)
      as (out & Hrun & Hrate & Hchan & Hl & Hrows & Hsamples).
    { fold rate. rewrite <- Htotal. exact Hlen. }
    fold rate in Hl. rewrite <- Htotal in Hl.
    assert (Hmax : forall e, In e (first :: rest) ->
              (numberOfChannels (mixBuffer e) <= numberOfChannels out)%nat).
    { intros e He. rewrite Hchan. apply maxOf_ge.
      apply (in_map (fun e => numberOfChannels (mixBuffer e))), He. }
    exists out. split; [exact Hrun|].
    split; [|split; [exact Hrate|split; [exact Hchan|split; [exact Hmax|split;
      [|split; [exact Hl|]]]]]].
    + apply (mixAudioBuffers_wf first rest); try assumption.
      intros c Hc. apply (Hsamples c Hc).
    + pose proof (maxOf_attained
                    (map (fun e => numberOfChannels (mixBuffer e)) (first :: rest))
                    ltac:(discriminate)) as Hin.
      apply in_map_iff in Hin. destruct Hin as (e & He & Hin).
      exists e. split; [exact Hin|]. rewrite Hchan. exact He.
    + intros c j Hc Hj. apply (Hsamples c Hc), Hj.
Qed.

Lemma mixAudioBuffers_sums_witness :
  exists out,
    mixAudioBuffers demoProcessor (mkMixEntry demoMono 0 1 :: demoEntries) = Ok out /\
    wfBuffer out /\
    sampleRate out = 2%Z /\
    numberOfChannels out = 2%nat /\
    Z.of_nat (bufLength out)
    = Qfloor (roundDouble
                (Qmax 0 (maxEndTime (mkMixEntry demoMono 0 1) demoEntries)
                 * inject_Z 2)) /\
    forall c j, (c < numberOfChannels out)%nat -> (j < bufLength out)%nat ->
      sample (getChannelData out c) j
      == mixedSample 2 c j (mkMixEntry demoMono 0 1 :: demoEntries).
Proof.
  destruct (mixAudioBuffers_sums demoProcessor (mkMixEntry demoMono 0 1) demoEntries)
    as (_ & _ & H).
  - eexists; reflexivity.
  - repeat constructor; apply wfBufferb_spec; reflexivity.
  - destruct H as (out & Hrun & Hwf & Hr & Hc & _ & _ & Hl & Hs).
    + vm_compute. discriminate.
    + exists out. split; [exact Hrun|]. split; [exact Hwf|].
      split; [exact Hr|]. split; [exact Hc|]. split; [exact Hl|exact Hs].
Defined.

(** Mixing adds and does not clamp: two full-scale samples give 2. *)
Example mix_exceeds_unit_range :
  mixAudioBuffers demoProcessor
    [mkMixEntry (mkAudioBuffer 1 1 1 [[1]]) 0 1;
     mkMixEntry (mkAudioBuffer 1 1 1 [[1]]) 0 1]
  = Ok (mkAudioBuffer 1 1 1 [[2]]).
Proof. vm_compute. reflexivity. Qed.

(** A mix whose only entry ends before time 0 has no frame: it throws. *)
Example mix_before_time_zero :
  mixAudioBuffers demoProcessor [mkMixEntry demoMono (-3) 1]
  = Throw "NotSupportedError".
Proof. vm_compute. reflexivity. Qed.

(** C3, as the code has it: [mixAudioBuffers] on the empty list does not
    return a buffer; it throws, whatever the state of the audio context. *)
Theorem mixAudioBuffers_empty_throws (p : AudioProcessor) :
  mixAudioBuffers p [] = Throw "Invalid audio context or no buffers provided".
Proof. unfold mixAudioBuffers. destruct (audioContext p); reflexivity. Qed.

(** C3 as stated fails: with a running audio context, mixing the empty
    list yields no buffer at all, hence no zero-length one. *)
Lemma mixAudioBuffers_empty_counterexample :
  ~ exists out, mixAudioBuffers demoProcessor [] = Ok out /\ bufLength out = 0%nat.
Proof. intros [out [H _]]. discriminate H. Qed.

(** * The export's audio pipeline *)

Lemma requireContext_ok (p : AudioProcessor) :
  is_Some (audioContext p) -> requireContext p = Ok tt.
Proof. intros [ctx H]. unfold requireContext. rewrite H. reflexivity. Qed.

Lemma Qfloor_half_mult (n r : Z) :
  Qfloor ((n # 2) * inject_Z r) = ((n * r) / 2)%Z.
Proof. unfold Qfloor, Qmult, inject_Z. simpl. reflexivity. Qed.

Section TwoClips.
Variable decodeAudioData : File -> AudioBuffer.
Variables renderLowPass renderHighPass renderReverb
  : AudioBuffer -> Q -> AudioBuffer.
Variable p : AudioProcessor.
Variables fA fB : File.

Let A := decodeAudioData fA.
Let B := decodeAudioData fB.
Let twoClips : list Clip :=
  [mkClip "A" (Some fA) 2 0 2 0 2 1 1 [];
   mkClip "B" (Some fB) 2 1 3 0 2 (1 # 2) 1 []].

Hypothesis Hctx : is_Some (audioContext p).
Hypothesis HwfA : wfBuffer A.
Hypothesis HwfB : wfBuffer B.

Lemma twoClips_entries (log : list Call) :
  collectAudioBuffers decodeAudioData renderLowPass renderHighPass renderReverb
                      p twoClips log
  = (log ++ [LoadAudioFile fA] ++ [LoadAudioFile fB; ChangeVolume (1 # 2)],
     Ok [mkMixEntry A 0 1; mkMixEntry (scaled B (1 # 2)) 1 (1 # 2)]).
Proof.
  unfold collectAudioBuffers, twoClips. cbn [forOf].
  unfold mbind, Export_bind, call, lift, mret, Export_ret.
  rewrite (requireContext_ok p Hctx).
  cbn -[changeVolume Qltb Qeq_bool].
  change (Qltb 0 0 || Qltb 2 2) with false.
  change (negb (Qeq_bool 1 1)) with false.
  change (negb (Qeq_bool (1 # 2) 1)) with true.
  cbn -[changeVolume].
  fold A B. rewrite (changeVolume_map p B (1 # 2) Hctx HwfB).
  rewrite <- !app_assoc. reflexivity.
Qed.

Hypothesis Hrate : sampleRate B = sampleRate A.
Hypothesis HlenA : Z.of_nat (bufLength A) = (2 * sampleRate A)%Z.
Hypothesis HlenB : Z.of_nat (bufLength B) = (2 * sampleRate A)%Z.
Hypothesis Hsmall : (3 * sampleRate A < 2 ^ 53)%Z.

Lemma twoClips_mixed (log : list Call) :
  exists log' out,
    mixAudioClips decodeAudioData renderLowPass renderHighPass renderReverb
                  p twoClips log = (log', Ok out) /\
    let k := Z.to_nat (Qfloor ((3 # 2) * inject_Z (sampleRate A))) in
    let kB := Z.to_nat (Qfloor ((1 # 2) * inject_Z (sampleRate A))) in
    (k < bufLength out)%nat /\
    forall c, (c < numberOfChannels out)%nat ->
      sample (getChannelData out c) k
      == sample (getChannelData A (Nat.min c (numberOfChannels A - 1))) k
         + (1 # 4)
           * sample (getChannelData B (Nat.min c (numberOfChannels B - 1))) kB.
Proof.
  unfold mixAudioClips.
  unfold mbind at 1, Export_bind at 1. rewrite twoClips_entries.
  unfold mbind, Export_bind, call, lift.
  set (eA := mkMixEntry A 0 1).
  set (eB := mkMixEntry (scaled B (1 # 2)) 1 (1 # 2)).
  assert (Hwf : Forall (fun e => wfBuffer (mixBuffer e)) [eA; eB]).
  { constructor; [exact HwfA|].
    constructor; [apply wfBuffer_scaled, HwfB|constructor]. }
  assert (HR : (1 <= sampleRate A)%Z) by (destruct HwfA as (_ & _ & H & _); lia).
  assert (Hnz : ~ inject_Z (sampleRate A) == 0).
  { change 0 with (inject_Z 0). rewrite inject_Z_injective. lia. }
  assert (R2 : roundDouble 2 == 2) by (vm_compute; reflexivity).
  assert (R3 : roundDouble 3 == 3) by (vm_compute; reflexivity).
  assert (HdA : duration A == 2).
  { unfold duration. rewrite HlenA, <- R2. apply roundDouble_Qeq.
    rewrite inject_Z_mult. field. exact Hnz. }
  assert (HdB : duration (scaled B (1 # 2)) == 2).
  { unfold duration. cbn [scaled bufLength sampleRate]. rewrite HlenB, Hrate, <- R2.
    apply roundDouble_Qeq. rewrite inject_Z_mult. field. exact Hnz. }
  assert (Hstart0 : Qfloor (roundDouble (0 * inject_Z (sampleRate A))) = 0%Z).
  { rewrite (roundDouble_proper (0 * inject_Z (sampleRate A)) 0) by ring.
    reflexivity. }
  assert (Hstart1 : Qfloor (roundDouble (1 * inject_Z (sampleRate A)))
                    = sampleRate A).
  { rewrite (roundDouble_proper (1 * inject_Z (sampleRate A))
                                (inject_Z (sampleRate A))) by ring.
    rewrite roundDouble_Z by lia. apply Qfloor_Z. }
  assert (Htotal :
    Qfloor
      (roundDouble
         (fold_left (fun totalLength e =>
                       Qmax totalLength
                            (roundDouble (mixStartTime e + duration (mixBuffer e))))
                    [eA; eB] 0
          * inject_Z (sampleRate (mixBuffer eA))))
    = (3 * sampleRate A)%Z).
  { cbn [fold_left mixBuffer mixStartTime eA eB].
    rewrite HdA, HdB.
    setoid_replace (0 + 2) with 2 using relation Qeq by ring.
    setoid_replace (1 + 2) with 3 using relation Qeq by ring.
    rewrite R2, R3, (Q.max_r 0 2), (Q.max_r 2 3) by lra.
    setoid_replace (3 * inject_Z (sampleRate A))
      with (inject_Z (3 * sampleRate A)) using relation Qeq
      by (rewrite inject_Z_mult; reflexivity).
    rewrite roundDouble_Z by lia. apply Qfloor_Z. }
  destruct (mixAudioBuffers_runs p eA [eB] Hctx Hwf)
    as (out & Hrun & Hr & Hc & Hlen & _ & Hs); [rewrite Htotal; lia|].
  rewrite Htotal in Hlen.
  eexists _, out. split; [rewrite Hrun; reflexivity|].
  cbn [mixBuffer eA] in Hr, Hs.
  rewrite Qfloor_half_mult. rewrite Qfloor_half_mult.
  assert (Hk : (0 <= 3 * sampleRate A / 2 < 2 * sampleRate A)%Z).
  { split; [apply Z.div_pos; lia|apply Z.div_lt_upper_bound; lia]. }
  assert (HkB : (3 * sampleRate A / 2 - sampleRate A = 1 * sampleRate A / 2)%Z).
  { replace (3 * sampleRate A)%Z with (sampleRate A + sampleRate A * 2)%Z by lia.
    rewrite Z.div_add by lia. rewrite Z.mul_1_l. lia. }
  assert (HkB' : (0 <= 1 * sampleRate A / 2 < 2 * sampleRate A)%Z).
  { split; [apply Z.div_pos; lia|apply Z.div_lt_upper_bound; lia]. }
  cbv zeta. split; [lia|]. intros c Hco.
  destruct (Hs c Hco) as [_ Hsc]. rewrite Hsc by lia. unfold mixedSample. cbn [fold_left].
  unfold contribution. cbv zeta.
  cbn [mixBuffer mixStartTime mixVolume eA eB scaled numberOfChannels bufLength].
  fold (scaled B (1 # 2)).
  rewrite Hstart0, Hstart1.
  rewrite Z2Nat.id by lia. rewrite Z.sub_0_r, HkB.
  destruct (Z.leb_spec 0 (3 * sampleRate A / 2)); [|lia].
  destruct (Z.ltb_spec (3 * sampleRate A / 2) (Z.of_nat (bufLength A))); [|lia].
  destruct (Z.leb_spec 0 (1 * sampleRate A / 2)); [|lia].
  destruct (Z.ltb_spec (1 * sampleRate A / 2) (Z.of_nat (bufLength B))); [|lia].
  cbn [andb].
  rewrite sample_scaled; [ring|exact HwfB| |lia].
  destruct HwfB as (_ & HchB & _). lia.
Qed.
End TwoClips.

(** C4: the export's audio pipeline on clip A (volume 1, [0s,2s)) and
    clip B (volume 0.5, [1s,3s)), both untrimmed and without effects.  The
    claim asks for A(1.5) + 0.5 * B(0.5) at t = 1.5s.  The pipeline scales
    B by its volume in [changeVolume] and once more in [mixAudioBuffers]:
    the mixed sample is A(1.5) + 0.25 * B(0.5), which differs. *)
Theorem export_mix_applies_volume_twice :
  exists log out,
    mixAudioClips demoDecode noRender noRender noRender demoProcessor
                  [clipA; clipB] [] = (log, Ok out) /\
    let k := Z.to_nat (Qfloor ((3 # 2) * inject_Z 4)) in
    let a := sample (getChannelData sourceA 0) k in
    let b := sample (getChannelData sourceB 0)
                    (Z.to_nat (Qfloor ((1 # 2) * inject_Z 4))) in
    sample (getChannelData out 0) k == a + (1 # 4) * b /\
    ~ sample (getChannelData out 0) k == a + (1 # 2) * b.
Proof.
  eexists _, _. split; [vm_compute; reflexivity|].
  vm_compute. split; [reflexivity|]. intros H. discriminate H.
Qed.

(** * exportToWav *)

Lemma setUint16_app (pre post : list Z) (b0 b1 v : Z) :
  setUint16 (pre ++ b0 :: b1 :: post) (length pre) v = pre ++ le16 v ++ post.
Proof.
  unfold setUint16, setUint8, le16.
  rewrite insert_app_r_alt by lia. rewrite Nat.sub_diag. cbn [insert list_insert].
  rewrite insert_app_r_alt by lia.
  replace (length pre + 1 - length pre)%nat with 1%nat by lia. reflexivity.
Qed.

Lemma exportToWav_header_written (b : AudioBuffer) :
  exportToWav b
  = fst (forLoop (bufLength b) (fun i st =>
           forLoop (numberOfChannels b) (fun channel '(view, offset) =>
             (setInt16 view offset
                       (scaleSample (sample (getChannelData b channel) i)),
              (offset + 2)%nat)) st)
           (wavHeader (numberOfChannels b) (sampleRate b) (bufLength b)
              ++ replicate (bufLength b * numberOfChannels b * 2) 0%Z,
            44%nat)).
Proof.
  unfold exportToWav. cbv zeta. reflexivity.
Qed.

Lemma fold_left_flat_map {A B T : Type} (f : A -> list B) (h : T -> B -> T)
    (l : list A) (s : T) :
  fold_left h (flat_map f l) s = fold_left (fun s a => fold_left h (f a) s) l s.
Proof.
  revert s. induction l as [|a l IH]; intros s; simpl; [reflexivity|].
  rewrite fold_left_app. apply IH.
Qed.

Lemma fold_left_pointwise {A T : Type} (h h' : T -> A -> T) (l : list A) (s : T) :
  (forall s a, h s a = h' s a) -> fold_left h l s = fold_left h' l s.
Proof.
  intros Hext. revert s. induction l as [|a l IH]; intros s; simpl;
    [reflexivity|]. rewrite Hext. apply IH.
Qed.

(** The two nested loops over frames and channels visit the samples in
    interleaved order. *)
Lemma frame_loops_flatten {T : Type} (step : Q -> T -> T) (b : AudioBuffer) (s : T) :
  forLoop (bufLength b) (fun i st =>
    forLoop (numberOfChannels b) (fun channel st =>
      step (sample (getChannelData b channel) i) st) st) s
  = fold_left (fun st x => step x st) (interleaved b) s.
Proof.
  unfold interleaved, forLoop. rewrite fold_left_flat_map.
  apply fold_left_pointwise. intros st i.
  rewrite fold_left_mapped. reflexivity.
Qed.

Lemma write_samples (xs : list Q) (pre post : list Z) :
  fold_left (fun st x => writeSample x st) xs
            (pre ++ replicate (2 * length xs) 0%Z ++ post, length pre)
  = (pre ++ flat_map encodeSample xs ++ post, (length pre + 2 * length xs)%nat).
Proof.
  revert pre. induction xs as [|x xs IH]; intros pre.
  - simpl. rewrite Nat.add_0_r. reflexivity.
  - cbn [fold_left length flat_map].
    replace (2 * S (length xs))%nat with (S (S (2 * length xs))) by lia.
    cbn [replicate app]. unfold writeSample at 2, setInt16.
    rewrite setUint16_app.
    replace (length pre + 2)%nat with (length (pre ++ encodeSample x))
      by (rewrite length_app; reflexivity).
    fold (encodeSample x). rewrite (app_assoc pre (encodeSample x)).
    rewrite IH. rewrite <- !app_assoc. f_equal.
    rewrite length_app. unfold encodeSample, le16. simpl. lia.
Qed.

Lemma length_flat_map_const {A B : Type} (f : A -> list B) (k : nat) (l : list A) :
  (forall a, length (f a) = k) -> length (flat_map f l) = (length l * k)%nat.
Proof.
  intros Hk. induction l as [|a l IH]; simpl; [reflexivity|].
  rewrite length_app, Hk, IH. reflexivity.
Qed.

Lemma length_interleaved (b : AudioBuffer) :
  length (interleaved b) = (bufLength b * numberOfChannels b)%nat.
Proof.
  unfold interleaved.
  rewrite (length_flat_map_const _ (numberOfChannels b)), length_seq; [reflexivity|].
  intros i. rewrite length_map, length_seq. reflexivity.
Qed.

(** The file is the header followed by the encoded samples. *)
Lemma exportToWav_closed (b : AudioBuffer) :
  exportToWav b
  = wavHeader (numberOfChannels b) (sampleRate b) (bufLength b)
    ++ flat_map encodeSample (interleaved b).
Proof.
  rewrite exportToWav_header_written.
  rewrite (frame_loops_flatten writeSample).
  pose proof (write_samples (interleaved b)
    (wavHeader (numberOfChannels b) (sampleRate b) (bufLength b)) []) as H.
  rewrite !app_nil_r in H. rewrite length_interleaved in H.
  replace (2 * (bufLength b * numberOfChannels b))%nat
    with (bufLength b * numberOfChannels b * 2)%nat in H by lia.
  change (length (wavHeader (numberOfChannels b) (sampleRate b) (bufLength b)))
    with 44%nat in H.
  rewrite H. reflexivity.
Qed.

(** ** Field values and sample values *)

Lemma le16_value (v : Z) : (v mod 256 + 256 * ((v / 256) mod 256) = v mod 65536)%Z.
Proof. change 65536%Z with (256 * 256)%Z. rewrite Z.rem_mul_r by lia. reflexivity. Qed.

Lemma le32_value (v : Z) :
  (v mod 256 + 256 * ((v / 256) mod 256)
   + 65536 * ((v / 65536) mod 256 + 256 * ((v / 65536 / 256) mod 256))
   = v mod 4294967296)%Z.
Proof.
  rewrite !le16_value. change 4294967296%Z with (65536 * 65536)%Z.
  rewrite Z.rem_mul_r by lia. reflexivity.
Qed.

Lemma Qtrunc_nonneg (y : Q) : 0 <= y -> Qtrunc y = Qfloor y.
Proof.
  intros Hy. unfold Qtrunc, Qfloor. destruct y as [n d]. simpl.
  apply Z.quot_div_nonneg; [|lia].
  unfold Qle in Hy. simpl in Hy. lia.
Qed.

Lemma Qtrunc_opp (y : Q) : Qtrunc (- y) = (- Qtrunc y)%Z.
Proof. unfold Qtrunc. destruct y as [n d]. simpl. apply Z.quot_opp_l. lia. Qed.

Lemma Qtrunc_zero (y : Q) : y == 0 -> Qtrunc y = 0%Z.
Proof.
  intros Hy. unfold Qtrunc. destruct y as [n d]. unfold Qeq in Hy. simpl in *.
  replace n with 0%Z by lia. reflexivity.
Qed.

Lemma Qtrunc_range (y : Q) (lo hi : Z) :
  (lo <= 0 <= hi)%Z -> inject_Z lo <= y <= inject_Z hi ->
  (lo <= Qtrunc y <= hi)%Z.
Proof.
  intros Hz [Hlo Hhi]. destruct (Qlt_le_dec y 0) as [Hneg|Hpos].
  - assert (E : Qtrunc y = (- Qfloor (- y))%Z).
    { rewrite <- (Qtrunc_nonneg (- y)) by lra. rewrite Qtrunc_opp. lia. }
    rewrite E.
    assert (H1 : (0 <= Qfloor (- y))%Z).
    { change 0%Z with (Qfloor 0). apply Qfloor_resp_le. lra. }
    assert (H2 : (Qfloor (- y) <= - lo)%Z).
    { rewrite <- (Qfloor_Z (- lo)). apply Qfloor_resp_le.
      rewrite inject_Z_opp. lra. }
    lia.
  - rewrite Qtrunc_nonneg by exact Hpos.
    assert (H1 : (0 <= Qfloor y)%Z).
    { change 0%Z with (Qfloor 0). apply Qfloor_resp_le. exact Hpos. }
    assert (H2 : (Qfloor y <= hi)%Z).
    { rewrite <- (Qfloor_Z hi). apply Qfloor_resp_le. exact Hhi. }
    lia.
Qed.

Lemma clamp_range (x : Q) : -1 <= clamp x <= 1.
Proof.
  unfold clamp. split; [apply Q.le_max_l|].
  apply Q.max_lub; [discriminate|apply Q.le_min_l].
Qed.

Lemma Qltb_lt (x y : Q) : Qltb x y = true <-> x < y.
Proof.
  unfold Qltb. rewrite negb_true_iff. split.
  - intros H. apply Qnot_le_lt. intros Hle. apply Qle_bool_iff in Hle. congruence.
  - intros H. destruct (Qle_bool y x) eqn:E; [|reflexivity].
    apply Qle_bool_iff in E. lra.
Qed.

(** Clamp, then scale by 32768 below zero and by 32767 otherwise. *)
Lemma scaleSample_spec (x : Q) :
  (clamp x < 0 -> scaleSample x = clamp x * 32768) /\
  (0 <= clamp x -> scaleSample x = clamp x * 32767).
Proof.
  unfold scaleSample. fold (clamp x). cbv zeta.
  destruct (Qltb (clamp x) 0) eqn:E.
  - apply Qltb_lt in E. split; [reflexivity|]. intros H. lra.
  - split; [|reflexivity]. intros H. apply Qltb_lt in H. congruence.
Qed.

Lemma scaleSample_range (x : Q) : (-32768 <= Qtrunc (scaleSample x) <= 32767)%Z.
Proof.
  apply Qtrunc_range; [lia|].
  pose proof (clamp_range x) as [Hlo Hhi].
  destruct (scaleSample_spec x) as [Hneg Hpos].
  destruct (Qlt_le_dec (clamp x) 0) as [H|H].
  - rewrite (Hneg H). change (inject_Z (-32768)) with (-32768).
    change (inject_Z 32767) with 32767. lra.
  - rewrite (Hpos H). change (inject_Z (-32768)) with (-32768).
    change (inject_Z 32767) with 32767. lra.
Qed.

Lemma scaleSample_zero (x : Q) : x == 0 -> Qtrunc (scaleSample x) = 0%Z.
Proof.
  intros Hx. apply Qtrunc_zero.
  assert (Hc : clamp x == 0).
  { unfold clamp. rewrite Hx. reflexivity. }
  destruct (scaleSample_spec x) as [Hneg Hpos].
  rewrite Hpos by lra. rewrite Hc. reflexivity.
Qed.

Lemma flat_map_lookup_const {A B : Type} (f : A -> list B) (k : nat)
    (l : list A) (i c : nat) (a : A) :
  (forall a, length (f a) = k) -> l !! i = Some a -> (c < k)%nat ->
  flat_map f l !! (i * k + c)%nat = f a !! c.
Proof.
  intros Hk. revert i. induction l as [|a' l IH]; intros i Hi Hc; [discriminate|].
  cbn [flat_map]. destruct i as [|i].
  - injection Hi as ->. rewrite lookup_app_l by (rewrite Hk; lia). reflexivity.
  - rewrite lookup_app_r by (rewrite Hk; lia). rewrite Hk.
    replace (S i * k + c - k)%nat with (i * k + c)%nat by lia.
    apply IH; assumption.
Qed.

Lemma interleaved_lookup (b : AudioBuffer) (i c : nat) :
  (i < bufLength b)%nat -> (c < numberOfChannels b)%nat ->
  interleaved b !! (i * numberOfChannels b + c)%nat
  = Some (sample (getChannelData b c) i).
Proof.
  intros Hi Hc. unfold interleaved.
  rewrite (flat_map_lookup_const _ (numberOfChannels b) _ i c i).
  - rewrite list_lookup_fmap, lookup_seq_lt by assumption. reflexivity.
  - intros a. rewrite length_map, length_seq. reflexivity.
  - apply lookup_seq_lt. assumption.
  - assumption.
Qed.

Lemma encoded_lookup (xs : list Q) (m : nat) (x : Q) :
  xs !! m = Some x ->
  getUint16 (flat_map encodeSample xs) (2 * m) = (Qtrunc (scaleSample x) mod 65536)%Z.
Proof.
  intros Hm. unfold getUint16, getUint8.
  rewrite <- le16_value.
  replace (2 * m)%nat with (m * 2 + 0)%nat by lia.
  replace (m * 2 + 0 + 1)%nat with (m * 2 + 1)%nat by lia.
  rewrite !(flat_map_lookup_const encodeSample 2 xs m _ x);
    try assumption; try lia; try (intros; reflexivity).
Qed.

Lemma getUint16_app_r (pre post : list Z) (offset : nat) :
  getUint16 (pre ++ post) (length pre + offset) = getUint16 post offset.
Proof.
  unfold getUint16, getUint8. rewrite !lookup_app_r by lia.
  replace (length pre + offset - length pre)%nat with offset by lia.
  replace (length pre + offset + 1 - length pre)%nat with (offset + 1)%nat by lia.
  reflexivity.
Qed.

Lemma signed_of_unsigned (v : Z) :
  (-32768 <= v <= 32767)%Z ->
  (let u := v mod 65536 in if u <? 32768 then u else u - 65536)%Z = v.
Proof.
  intros Hv. cbv zeta. destruct (Z_lt_le_dec v 0) as [Hneg|Hpos].
  - replace (v mod 65536)%Z with (v + 65536)%Z.
    + destruct (Z.ltb_spec (v + 65536) 32768); lia.
    + symmetry. rewrite <- (Z.mod_add v 1 65536) by lia.
      apply Z.mod_small. lia.
  - rewrite Z.mod_small by lia. destruct (Z.ltb_spec v 32768); lia.
Qed.

(** The header fields, whatever the size of the buffer: each field holds
    its value modulo the width of the field. *)
Lemma exportToWav_fields (b : AudioBuffer) :
  let out := exportToWav b in
  let channels := Z.of_nat (numberOfChannels b) in
  let dataSize := Z.of_nat (bufLength b * numberOfChannels b * 2) in
  getTag out 0 = [82; 73; 70; 70]%Z /\
  getUint32 out 4 = ((36 + dataSize) mod 4294967296)%Z /\
  getTag out 8 = [87; 65; 86; 69]%Z /\
  getTag out 12 = [102; 109; 116; 32]%Z /\
  getUint32 out 16 = 16%Z /\
  getUint16 out 20 = 1%Z /\
  getUint16 out 22 = (channels mod 65536)%Z /\
  getUint32 out 24 = (sampleRate b mod 4294967296)%Z /\
  getUint32 out 28 = ((sampleRate b * channels * 2) mod 4294967296)%Z /\
  getUint16 out 32 = ((channels * 2) mod 65536)%Z /\
  getUint16 out 34 = 16%Z /\
  getTag out 36 = [100; 97; 116; 97]%Z /\
  getUint32 out 40 = (dataSize mod 4294967296)%Z.
Proof.
  cbv zeta. rewrite exportToWav_closed.
  set (data := flat_map encodeSample (interleaved b)).
  set (dataSize := Z.of_nat (bufLength b * numberOfChannels b * 2)).
  set (channels := Z.of_nat (numberOfChannels b)).
  unfold wavHeader. fold dataSize. fold channels. cbv zeta.
  unfold getTag, getUint32, getUint16, getUint8, le32, le16.
  cbn [app drop take lookup list_lookup Nat.add default].
  repeat split; try apply le32_value; try apply le16_value.
Qed.

Lemma exportToWav_length (b : AudioBuffer) :
  length (exportToWav b) = (44 + bufLength b * numberOfChannels b * 2)%nat.
Proof.
  rewrite exportToWav_closed, length_app.
  rewrite (length_flat_map_const encodeSample 2) by (intros; reflexivity).
  rewrite length_interleaved. reflexivity.
Qed.

Lemma exportToWav_sample (b : AudioBuffer) (i c : nat) :
  (i < bufLength b)%nat -> (c < numberOfChannels b)%nat ->
  getInt16 (exportToWav b) (44 + 2 * (i * numberOfChannels b + c))
  = Qtrunc (scaleSample (sample (getChannelData b c) i)).
Proof.
  intros Hi Hc. unfold getInt16. rewrite exportToWav_closed.
  change 44%nat
    with (length (wavHeader (numberOfChannels b) (sampleRate b) (bufLength b))).
  rewrite getUint16_app_r.
  rewrite (encoded_lookup _ _ _ (interleaved_lookup b i c Hi Hc)).
  apply signed_of_unsigned, scaleSample_range.
Qed.

Lemma exportToWav_silence (b : AudioBuffer) (k : nat) :
  (forall c i, (c < numberOfChannels b)%nat -> (i < bufLength b)%nat ->
     sample (getChannelData b c) i == 0) ->
  (44 <= k < length (exportToWav b))%nat ->
  exportToWav b !! k = Some 0%Z.
Proof.
  intros Hzero Hk. rewrite exportToWav_length in Hk.
  rewrite exportToWav_closed.
  rewrite lookup_app_r by (change (length (wavHeader _ _ _)) with 44%nat; lia).
  change (length (wavHeader (numberOfChannels b) (sampleRate b) (bufLength b)))
    with 44%nat.
  assert (Hall : Forall (fun x => x == 0) (interleaved b)).
  { unfold interleaved. apply Forall_forall. intros x Hx.
    apply list_elem_of_In, in_flat_map in Hx. destruct Hx as (i & Hi & Hx).
    apply in_map_iff in Hx. destruct Hx as (c & <- & Hc).
    apply in_seq in Hi, Hc. apply Hzero; lia. }
  assert (Hbytes : Forall (fun y => y = 0%Z) (flat_map encodeSample (interleaved b))).
  { induction Hall as [|x xs Hx _ IH]; [constructor|].
    cbn [flat_map]. apply Forall_app. split; [|exact IH].
    unfold encodeSample, le16. rewrite (scaleSample_zero x Hx).
    repeat constructor. }
  assert (Hlen : length (flat_map encodeSample (interleaved b))
                 = (bufLength b * numberOfChannels b * 2)%nat).
  { rewrite (length_flat_map_const encodeSample 2) by (intros; reflexivity).
    rewrite length_interleaved. reflexivity. }
  destruct (lookup_lt_is_Some_2 (flat_map encodeSample (interleaved b)) (k - 44)
              ltac:(lia)) as [y Hy].
  rewrite Hy. f_equal. rewrite Forall_forall in Hbytes.
  apply Hbytes, list_elem_of_lookup. eauto.
Qed.

(** C1: [exportToWav] produces exactly [44 + N*C*2] bytes: the tags RIFF,
    WAVE, "fmt " and data at 0, 8, 12 and 36; little-endian fields with
    fmt chunk size 16, format tag 1, C channels, rate R, byte rate R*C*2,
    block align C*2, 16 bits per sample and data size N*C*2 (for a buffer
    whose sizes fit the 16- and 32-bit fields that hold them); then the
    samples, interleaved frame by frame, each clamped to [-1,1], scaled by
    32768 below zero and by 32767 otherwise, truncated, and stored as a
    16-bit two's complement little-endian integer.  A silent buffer gives
    data bytes that are all zero. *)
Theorem exportToWav_layout (b : AudioBuffer) :
  let C := Z.of_nat (numberOfChannels b) in
  let N := Z.of_nat (bufLength b) in
  let R := sampleRate b in
  wfBuffer b ->
  (C < 32768)%Z ->
  (R * C * 2 < 4294967296)%Z ->
  (36 + N * C * 2 < 4294967296)%Z ->
  let out := exportToWav b in
  Z.of_nat (length out) = (44 + N * C * 2)%Z /\
  (getTag out 0 = [82; 73; 70; 70]%Z /\
   getUint32 out 4 = (36 + N * C * 2)%Z /\
   getTag out 8 = [87; 65; 86; 69]%Z /\
   getTag out 12 = [102; 109; 116; 32]%Z /\
   getUint32 out 16 = 16%Z /\
   getUint16 out 20 = 1%Z /\
   getUint16 out 22 = C /\
   getUint32 out 24 = R /\
   getUint32 out 28 = (R * C * 2)%Z /\
   getUint16 out 32 = (C * 2)%Z /\
   getUint16 out 34 = 16%Z /\
   getTag out 36 = [100; 97; 116; 97]%Z /\
   getUint32 out 40 = (N * C * 2)%Z) /\
  (forall i c, (i < bufLength b)%nat -> (c < numberOfChannels b)%nat ->
     let x := sample (getChannelData b c) i in
     getInt16 out (44 + 2 * (i * numberOfChannels b + c))
     = Qtrunc (scaleSample x) /\
     (-32768 <= Qtrunc (scaleSample x) <= 32767)%Z /\
     -1 <= clamp x <= 1 /\
     (clamp x < 0 -> scaleSample x = clamp x * 32768) /\
     (0 <= clamp x -> scaleSample x = clamp x * 32767)) /\
  ((forall c i, (c < numberOfChannels b)%nat -> (i < bufLength b)%nat ->
      sample (getChannelData b c) i == 0) ->
   forall k, (44 <= k < length out)%nat -> out !! k = Some 0%Z).
Proof.
  intros C N R Hwf HC HR HN out.
  assert (HR0 : (0 < R)%Z) by apply Hwf.
  assert (Hsize : Z.of_nat (bufLength b * numberOfChannels b * 2) = (N * C * 2)%Z)
    by (unfold N, C; lia).
  split; [|split; [|split]].
  - unfold out. rewrite exportToWav_length. lia.
  - pose proof (exportToWav_fields b) as H. cbv zeta in H.
    fold out C R in H. rewrite Hsize in H.
    assert (HC0 : (1 <= C)%Z) by (destruct Hwf as (_ & H1 & _); unfold C; lia).
    assert (HN0 : (0 <= N * C * 2)%Z) by (rewrite <- Hsize; lia).
    assert (HR1 : (0 <= R * C * 2)%Z) by nia.
    assert (HR2 : (R < 4294967296)%Z) by nia.
    rewrite (Z.mod_small (36 + N * C * 2)), (Z.mod_small C), (Z.mod_small R),
      (Z.mod_small (R * C * 2)), (Z.mod_small (C * 2)), (Z.mod_small (N * C * 2))
      in H by lia.
    exact H.
  - intros i c Hi Hc x. split; [apply exportToWav_sample; assumption|].
    split; [apply scaleSample_range|]. split; [apply clamp_range|].
    apply scaleSample_spec.
  - intros Hzero k Hk. apply exportToWav_silence; assumption.
Qed.

Lemma exportToWav_layout_witness :
  Z.of_nat (length (exportToWav demoBuffer)) = 56%Z /\
  getUint32 (exportToWav demoBuffer) 28 = 192000%Z /\
  getInt16 (exportToWav demoBuffer) (44 + 2 * (1 * 2 + 0)) = (-16384)%Z.
Proof.
  assert (Hwf : wfBuffer demoBuffer) by (apply wfBufferb_spec; reflexivity).
  destruct (exportToWav_layout demoBuffer Hwf ltac:(reflexivity)
              ltac:(reflexivity) ltac:(reflexivity))
    as (Hlen & Hfields & Hsamples & _).
  split; [exact Hlen|]. split; [apply Hfields|].
  destruct (Hsamples 1%nat 0%nat ltac:(simpl; lia) ltac:(simpl; lia)) as [H _].
  exact H.
Defined.

(** * The preview's clip selection *)

(** ** The stable sort *)

Section SortBy.
Context {A : Type} (compare : A -> A -> Q).

Lemma insertBy_perm (x : A) (l : list A) : Permutation (insertBy compare x l) (x :: l).
Proof.
  induction l as [|y l IH]; simpl; [reflexivity|].
  destruct (Qle_bool (compare x y) 0); [reflexivity|].
  rewrite IH. apply perm_swap.
Qed.

Lemma sortBy_perm (l : list A) : Permutation (sortBy compare l) l.
Proof.
  induction l as [|x l IH]; simpl; [reflexivity|].
  rewrite insertBy_perm. constructor. exact IH.
Qed.

Lemma sortBy_In (l : list A) (x : A) : In x (sortBy compare l) <-> In x l.
Proof.
  split; apply Permutation_in; [|symmetry]; apply sortBy_perm.
Qed.
End SortBy.

Lemma map_insertBy {A B : Type} (f : A -> B) (compare : B -> B -> Q)
    (x : A) (l : list A) :
  map f (insertBy (fun a b => compare (f a) (f b)) x l)
  = insertBy compare (f x) (map f l).
Proof.
  induction l as [|y l IH]; simpl; [reflexivity|].
  destruct (Qle_bool (compare (f x) (f y)) 0); simpl; [reflexivity|].
  rewrite IH. reflexivity.
Qed.

Lemma map_sortBy {A B : Type} (f : A -> B) (compare : B -> B -> Q) (l : list A) :
  map f (sortBy (fun a b => compare (f a) (f b)) l) = sortBy compare (map f l).
Proof.
  induction l as [|x l IH]; simpl; [reflexivity|].
  rewrite map_insertBy, IH. reflexivity.
Qed.

Lemma map_filter_comp {A B : Type} (f : A -> B) (p : B -> bool) (l : list A) :
  map f (List.filter (fun a => p (f a)) l) = List.filter p (map f l).
Proof.
  induction l as [|x l IH]; simpl; [reflexivity|].
  destruct (p (f x)); simpl; rewrite IH; reflexivity.
Qed.

(** ** Clips with the index of their track *)

Lemma map_snd_tagged (l : list (nat * Track)) :
  map snd (flat_map (fun kt => map (pair (fst kt)) (clips (snd kt)))
                    (List.filter (fun kt => visible (snd kt)) l))
  = flat_map clips (List.filter visible (map snd l)).
Proof.
  induction l as [|[k t] l IH]; simpl; [reflexivity|].
  destruct (visible t); simpl; [|exact IH].
  rewrite map_app, IH, map_map. simpl. rewrite map_id. reflexivity.
Qed.

Lemma map_snd_indexed {A : Type} (l : list A) : map snd (indexed l) = l.
Proof.
  unfold indexed. generalize 0%nat.
  induction l as [|x l IH]; intros a; simpl; [reflexivity|].
  rewrite IH. reflexivity.
Qed.

Lemma visibleClips_tagged (tl : Timeline) (currentTime : Q) :
  visibleClips tl currentTime = map snd (activeTagged tl currentTime).
Proof.
  unfold visibleClips, activeTagged.
  rewrite (map_sortBy snd byStartTime).
  rewrite (map_filter_comp snd (isActive currentTime)).
  unfold taggedClips. rewrite map_snd_tagged, map_snd_indexed. reflexivity.
Qed.

Lemma in_combine_seq {A : Type} (l : list A) (a k : nat) (x : A) :
  In (k, x) (combine (seq a (length l)) l) ->
  (a <= k)%nat /\ l !! (k - a)%nat = Some x.
Proof.
  revert a. induction l as [|y l IH]; intros a; simpl; [contradiction|].
  intros [E|Hin].
  - injection E as <- <-. rewrite Nat.sub_diag. split; [lia|reflexivity].
  - destruct (IH _ Hin) as [Hle Hl]. split; [lia|].
    replace (k - a)%nat with (S (k - S a)) by lia. exact Hl.
Qed.

Lemma taggedClips_In (tl : Timeline) (k : nat) (c : Clip) :
  In (k, c) (taggedClips tl) ->
  exists t, tracks tl !! k = Some t /\ visible t = true /\ In c (clips t).
Proof.
  unfold taggedClips. intros H. apply in_flat_map in H.
  destruct H as ([k' t] & Hkt & Hc). apply filter_In in Hkt.
  destruct Hkt as [Hkt Hvis]. simpl in *.
  apply in_map_iff in Hc. destruct Hc as (c' & E & Hc). injection E as <- <-.
  apply in_combine_seq in Hkt. destruct Hkt as [_ Hl].
  rewrite Nat.sub_0_r in Hl. exists t. auto.
Qed.

(** The tagged clips come track by track: their tags never decrease. *)
Lemma taggedClips_tags_sorted (tl : Timeline) :
  StronglySorted (fun a b => (fst a <= fst b)%nat) (taggedClips tl).
Proof.
  unfold taggedClips, indexed. generalize 0%nat. generalize (tracks tl).
  induction l as [|t l IH]; intros a; simpl; [constructor|].
  assert (Hrest : Forall (fun b => (S a <= fst b)%nat)
            (flat_map (fun kt => map (pair (fst kt)) (clips (snd kt)))
               (List.filter (fun kt => visible (snd kt))
                            (combine (seq (S a) (length l)) l)))).
  { apply Forall_forall. intros [k c] Hin. apply list_elem_of_In, in_flat_map in Hin.
    destruct Hin as ([k' t'] & Hkt & Hc). apply filter_In in Hkt.
    destruct Hkt as [Hkt _]. apply in_combine_seq in Hkt. simpl in *.
    apply in_map_iff in Hc. destruct Hc as (c' & E & _). injection E as <- <-.
    lia. }
  destruct (visible t); simpl; [|apply IH].
  induction (clips t) as [|c cs IHc]; simpl; [apply IH|].
  constructor; [exact IHc|].
  apply Forall_app. split.
  - apply Forall_forall. intros b Hb. apply list_elem_of_In, in_map_iff in Hb.
    destruct Hb as (c' & <- & _). simpl. lia.
  - eapply Forall_impl; [exact Hrest|]. intros b Hb. simpl in *. lia.
Qed.

Lemma byStartTime_le (a b : Clip) :
  Qle_bool (byStartTime a b) 0 = true <-> startTime a <= startTime b.
Proof.
  unfold byStartTime. rewrite Qle_bool_iff. split; intros H; lra.
Qed.

Lemma drawOrder_start (a b : nat * Clip) :
  drawOrder a b -> startTime (snd a) <= startTime (snd b).
Proof. intros [H|[H _]]; lra. Qed.

(** Inserting a clip whose track index is not above the others keeps the
    draw order: this is the stability of the sort. *)
Lemma insertBy_drawOrder (x : nat * Clip) (l : list (nat * Clip)) :
  StronglySorted drawOrder l ->
  Forall (fun y => (fst x <= fst y)%nat) l ->
  StronglySorted drawOrder
    (insertBy (fun a b => byStartTime (snd a) (snd b)) x l).
Proof.
  intros Hsorted. induction Hsorted as [|y l Hl IH Hy]; intros Htag; simpl.
  - repeat constructor.
  - apply Forall_cons in Htag. destruct Htag as [Hxy Htag].
    destruct (Qle_bool (byStartTime (snd x) (snd y)) 0) eqn:E.
    + apply byStartTime_le in E. constructor; [constructor; assumption|].
      constructor.
      * destruct (Qlt_le_dec (startTime (snd x)) (startTime (snd y))) as [H|H].
        -- left. exact H.
        -- right. split; [lra|exact Hxy].
      * rewrite Forall_forall in Hy, Htag. apply Forall_forall. intros z Hz.
        pose proof (drawOrder_start _ _ (Hy z Hz)) as Hyz.
        destruct (Qlt_le_dec (startTime (snd x)) (startTime (snd z))) as [H|H].
        -- left. exact H.
        -- right. split; [lra|apply Htag, Hz].
    + assert (Hlt : startTime (snd y) < startTime (snd x)).
      { apply Qnot_le_lt. intros Hle. apply byStartTime_le in Hle. congruence. }
      constructor; [apply IH, Htag|].
      eapply Permutation_Forall; [symmetry; apply insertBy_perm|].
      constructor; [left; exact Hlt|exact Hy].
Qed.

Lemma sortBy_drawOrder (l : list (nat * Clip)) :
  StronglySorted (fun a b => (fst a <= fst b)%nat) l ->
  StronglySorted drawOrder (sortBy (fun a b => byStartTime (snd a) (snd b)) l).
Proof.
  intros Hsorted. induction Hsorted as [|x l Hl IH Hx]; simpl; [constructor|].
  apply insertBy_drawOrder; [exact IH|].
  eapply Permutation_Forall; [symmetry; apply sortBy_perm|exact Hx].
Qed.

Lemma StronglySorted_filter {A : Type} (R : A -> A -> Prop) (p : A -> bool)
    (l : list A) :
  StronglySorted R l -> StronglySorted R (List.filter p l).
Proof.
  intros H. induction H as [|x l Hl IH Hx]; simpl; [constructor|].
  destruct (p x); [|exact IH]. constructor; [exact IH|].
  apply Forall_forall. intros y Hy. apply list_elem_of_In, filter_In in Hy.
  rewrite Forall_forall in Hx. apply Hx, list_elem_of_In, Hy.
Qed.

Lemma isActive_spec (t : Q) (c : Clip) :
  isActive t c = true <-> startTime c <= t /\ t < endTime c.
Proof.
  unfold isActive. rewrite andb_true_iff, Qle_bool_iff, Qltb_lt. reflexivity.
Qed.

(** C8: at every time [t] the preview's selection holds exactly the clips
    of the tracks with [visible = true] for which
    [startTime <= t < endTime], each as often as it occurs there; it never
    holds a clip with [t < startTime] or [endTime <= t]; and it is ordered
    by ascending [startTime], clips with equal start times in the order of
    their track indices. *)
Theorem visibleClips_active_in_draw_order (tl : Timeline) (t : Q) :
  (forall c, In c (visibleClips tl t) <->
     exists tr, In tr (tracks tl) /\ visible tr = true /\ In c (clips tr) /\
                startTime c <= t /\ t < endTime c) /\
  Permutation (visibleClips tl t)
    (List.filter (isActive t) (flat_map clips (List.filter visible (tracks tl)))) /\
  (forall c, In c (visibleClips tl t) -> ~ (t < startTime c \/ endTime c <= t)) /\
  visibleClips tl t = map snd (activeTagged tl t) /\
  StronglySorted drawOrder (activeTagged tl t) /\
  (forall k c, In (k, c) (activeTagged tl t) ->
     exists tr, tracks tl !! k = Some tr /\ visible tr = true /\ In c (clips tr)).
Proof.
  assert (Hin : forall c, In c (visibleClips tl t) <->
     exists tr, In tr (tracks tl) /\ visible tr = true /\ In c (clips tr) /\
                startTime c <= t /\ t < endTime c).
  { intros c. unfold visibleClips. rewrite sortBy_In, filter_In, in_flat_map.
    rewrite isActive_spec. split.
    - intros [(tr & Htr & Hc) Hact]. apply filter_In in Htr.
      exists tr. tauto.
    - intros (tr & Htr & Hvis & Hc & Hact). split; [|exact Hact].
      exists tr. split; [apply filter_In; tauto|exact Hc]. }
  split; [exact Hin|]. split; [apply sortBy_perm|]. split.
  - intros c Hc. apply Hin in Hc. destruct Hc as (_ & _ & _ & _ & H1 & H2).
    intros [H|H]; lra.
  - split; [apply visibleClips_tagged|]. split.
    + apply sortBy_drawOrder, StronglySorted_filter, taggedClips_tags_sorted.
    + intros k c Hkc. unfold activeTagged in Hkc.
      apply sortBy_In, filter_In in Hkc. destruct Hkc as [Hkc _].
      apply taggedClips_In, Hkc.
Qed.

Example visibleClips_demo :
  map id (visibleClips demoTimeline 4) = ["a"; "b"; "late"]%string.
Proof. reflexivity. Qed.

(** * The clip actions of the store *)

Lemma findIndex_Some {A : Type} (f : A -> bool) (l : list A) (k : nat) :
  findIndex f l = Some k ->
  exists x, l !! k = Some x /\ f x = true /\
            forall j y, (j < k)%nat -> l !! j = Some y -> f y = false.
Proof.
  revert k. induction l as [|x l IH]; intros k; simpl; [discriminate|].
  destruct (f x) eqn:E.
  - intros [= <-]. exists x. split; [reflexivity|]. split; [exact E|]. intros; lia.
  - destruct (findIndex f l) as [k'|]; [|discriminate]. simpl. intros [= <-].
    destruct (IH k' eq_refl) as (y & Hy & Hfy & Hbefore).
    exists y. split; [exact Hy|]. split; [exact Hfy|].
    intros [|j] z Hj Hz; simpl in Hz; [congruence|]. eapply Hbefore; [|exact Hz]. lia.
Qed.

Lemma findIndex_None {A : Type} (f : A -> bool) (l : list A) :
  findIndex f l = None -> forall x, In x l -> f x = false.
Proof.
  induction l as [|y l IH]; simpl; [contradiction|].
  destruct (f y) eqn:E; [discriminate|].
  destruct (findIndex f l); [discriminate|]. intros _ x [<-|Hx]; [exact E|].
  apply IH; [reflexivity|exact Hx].
Qed.

Lemma addClip_appends (st : EditorState) (tid : string) (clip : Clip) (k : nat) :
  findIndex (fun t => String.eqb (trackId t) tid) (tracks (timeline st)) = Some k ->
  exists tr,
    tracks (timeline st) !! k = Some tr /\
    trackId tr = tid /\
    tracks (timeline (addClip st tid clip))
    = <[k := pushClip clip tr]> (tracks (timeline st)) /\
    clips (pushClip clip tr) = clips tr ++ [clip] /\
    timelineDuration (timeline (addClip st tid clip))
    == Qmax (timelineDuration (timeline st)) (endTime clip) /\
    selectedClips (addClip st tid clip) = selectedClips st.
Proof.
  intros Hk. destruct (findIndex_Some _ _ _ Hk) as (tr & Htr & Hid & _).
  apply String.eqb_eq in Hid. exists tr. unfold addClip. rewrite Hk. simpl.
  split; [exact Htr|]. split; [exact Hid|]. split.
  - apply list_eq. intros j. destruct (decide (j = k)) as [->|Hne].
    + rewrite list_lookup_alter_eq, Htr. simpl.
      rewrite list_lookup_insert_eq by (eapply lookup_lt_Some; exact Htr).
      reflexivity.
    + rewrite list_lookup_alter_ne, list_lookup_insert_ne by congruence.
      reflexivity.
  - split; [reflexivity|]. split; [|reflexivity].
    destruct (Qltb _ _) eqn:E.
    + apply Qltb_lt in E. rewrite Q.max_r by lra. ring.
    + assert (Hle : startTime clip + (endTime clip - startTime clip)
                    <= timelineDuration (timeline st)).
      { apply Qnot_lt_le. intros Hlt. apply Qltb_lt in Hlt. congruence. }
      rewrite Q.max_l by lra. reflexivity.
Qed.

Lemma updateClip_assigns (st : EditorState) (cid : string) (u : ClipUpdates)
    (k i : nat) (tr : Track) :
  tracks (timeline st) !! k = Some tr ->
  findIndex (fun clip => String.eqb (id clip) cid) (clips tr) = Some i ->
  exists c tr',
    clips tr !! i = Some c /\ id c = cid /\
    tracks (timeline (updateClip st cid u)) !! k = Some tr' /\
    clips tr' = <[i := assignClip u c]> (clips tr).
Proof.
  intros Htr Hi. destruct (findIndex_Some _ _ _ Hi) as (c & Hc & Hid & _).
  apply String.eqb_eq in Hid. unfold updateClip. simpl.
  rewrite list_lookup_fmap, Htr. simpl. rewrite Hi.
  eexists c, _. split; [exact Hc|]. split; [exact Hid|]. split; [reflexivity|].
  simpl. apply list_eq. intros j. destruct (decide (j = i)) as [->|Hne].
  - rewrite list_lookup_alter_eq, Hc. simpl.
    rewrite list_lookup_insert_eq by (eapply lookup_lt_Some; exact Hc).
    reflexivity.
  - rewrite list_lookup_alter_ne, list_lookup_insert_ne by congruence.
    reflexivity.
Qed.

Lemma removeClip_removes (st : EditorState) (cid : string) (k : nat) (tr : Track) :
  tracks (timeline st) !! k = Some tr ->
  exists tr',
    tracks (timeline (removeClip st cid)) !! k = Some tr' /\
    forall c, In c (clips tr') <-> In c (clips tr) /\ id c <> cid.
Proof.
  intros Htr. unfold removeClip. simpl. rewrite list_lookup_fmap, Htr. simpl.
  eexists. split; [reflexivity|]. simpl. intros c.
  rewrite filter_In, negb_true_iff, String.eqb_neq. reflexivity.
Qed.

(** C9, as the code has it: the clip actions validate nothing and report
    nothing.  [addClip] appends the clip as given, whatever its timing, to
    the first track with the given id (without such a track the state is
    unchanged) and raises the timeline duration to the clip's end time when
    that is later; [updateClip] overwrites the given fields, whatever their
    values, of the first clip with the given id in each track;
    [removeClip] deletes the clips with the given id. *)
Theorem clip_actions_accept_any_timing (st : EditorState) :
  (forall tid clip,
     match findIndex (fun t => String.eqb (trackId t) tid)
                     (tracks (timeline st)) with
     | Some k =>
       exists tr,
         tracks (timeline st) !! k = Some tr /\
         trackId tr = tid /\
         tracks (timeline (addClip st tid clip))
         = <[k := pushClip clip tr]> (tracks (timeline st)) /\
         clips (pushClip clip tr) = clips tr ++ [clip] /\
         timelineDuration (timeline (addClip st tid clip))
         == Qmax (timelineDuration (timeline st)) (endTime clip)
     | None => addClip st tid clip = st
     end) /\
  (forall cid u k i tr,
     tracks (timeline st) !! k = Some tr ->
     findIndex (fun clip => String.eqb (id clip) cid) (clips tr) = Some i ->
     exists c tr',
       clips tr !! i = Some c /\ id c = cid /\
       tracks (timeline (updateClip st cid u)) !! k = Some tr' /\
       clips tr' = <[i := assignClip u c]> (clips tr) /\
       (forall e, newEndTime u = Some e -> endTime (assignClip u c) = e) /\
       (forall s, newStartTime u = Some s -> startTime (assignClip u c) = s)) /\
  (forall cid k tr,
     tracks (timeline st) !! k = Some tr ->
     exists tr',
       tracks (timeline (removeClip st cid)) !! k = Some tr' /\
       forall c, In c (clips tr') <-> In c (clips tr) /\ id c <> cid).
Proof.
  split; [|split].
  - intros tid clip.
    destruct (findIndex _ _) as [k|] eqn:Hk.
    + destruct (addClip_appends st tid clip k Hk) as (tr & H1 & H2 & H3 & H4 & H5 & _).
      exists tr. auto.
    + unfold addClip. rewrite Hk. reflexivity.
  - intros cid u k i tr Htr Hi.
    destruct (updateClip_assigns st cid u k i tr Htr Hi) as (c & tr' & H1 & H2 & H3 & H4).
    exists c, tr'. repeat split; try assumption.
    + intros e He. unfold assignClip. simpl. rewrite He. reflexivity.
    + intros s Hs. unfold assignClip. simpl. rewrite Hs. reflexivity.
  - intros cid k tr Htr. apply removeClip_removes, Htr.
Qed.

(** C9 as stated fails: [addClip] takes a clip with
    [trimEnd <= trimStart] and [endTime <= startTime] and changes the
    state; [updateClip] then moves its end further back. *)
Lemma clip_actions_validation_counterexample :
  ~ validTiming backwardsClip /\
  addClip defaultState "video-track-1" backwardsClip <> defaultState /\
  In backwardsClip
     (flat_map clips
        (tracks (timeline (addClip defaultState "video-track-1" backwardsClip)))) /\
  updateClip (addClip defaultState "video-track-1" backwardsClip) "bad"
             (mkClipUpdates None None (Some 1) None None None None)
  <> addClip defaultState "video-track-1" backwardsClip.
Proof.
  split; [|split; [|split]].
  - intros [H _]. revert H. unfold backwardsClip. simpl. intros H.
    apply (Qlt_not_le _ _ H). discriminate.
  - discriminate.
  - simpl. left. reflexivity.
  - discriminate.
Qed.

(** * The export *)

Section ExportFacts.
Variable ffmpegLoad : result unit.
Variable decodeAudioData : File -> AudioBuffer.
Variables renderLowPass renderHighPass renderReverb
  : AudioBuffer -> Q -> AudioBuffer.
Variable p : AudioProcessor.
Variable videoLoaded : bool.

(** The three steps that come before the clips are looked at. *)
Lemma export_setup (tl : Timeline) (settings : ExportSettings) :
  exportVideoClips tl = [] -> exportAudioClips tl = [] ->
  processTimelineExport ffmpegLoad decodeAudioData renderLowPass
    renderHighPass renderReverb p videoLoaded tl settings []
  = match (if videoLoaded then Ok tt else ffmpegLoad) with
    | Throw msg => ([VideoInitialize], Throw msg)
    | Ok _ =>
      match initialize p with
      | Throw msg => ([VideoInitialize; AudioInitialize], Throw msg)
      | Ok _ => ([VideoInitialize; AudioInitialize; OnProgress],
                 Throw "No clips to export")
      end
    end.
Proof.
  intros Hv Ha. unfold processTimelineExport. rewrite Hv, Ha.
  unfold videoInitialize, audioInitialize.
  unfold mbind, Export_bind, call, lift, mret, Export_ret. cbn [app].
  destruct videoLoaded; [|destruct ffmpegLoad as [[]|msg]];
    try reflexivity; destruct (initialize p); reflexivity.
Qed.

(** C10: when no video clip and no audio clip is exportable, the export
    ends in an error after nothing but the two [initialize] calls and
    the registration of the progress callback: no transcoding, decoding
    or processing call is made.  With both processors ready, the error
    is "No clips to export". *)
Theorem export_without_clips_fails_fast (tl : Timeline)
    (settings : ExportSettings) :
  exportVideoClips tl = [] ->
  exportAudioClips tl = [] ->
  (forall c,
     In c (fst (processTimelineExport ffmpegLoad decodeAudioData renderLowPass
                  renderHighPass renderReverb p videoLoaded tl settings [])) ->
     isSetupCall c = true) /\
  (exists msg,
     snd (processTimelineExport ffmpegLoad decodeAudioData renderLowPass
            renderHighPass renderReverb p videoLoaded tl settings [])
     = Throw msg) /\
  ((videoLoaded = true \/ ffmpegLoad = Ok tt) ->
   is_Some (audioContext p) ->
   processTimelineExport ffmpegLoad decodeAudioData renderLowPass
     renderHighPass renderReverb p videoLoaded tl settings []
   = ([VideoInitialize; AudioInitialize; OnProgress],
      Throw "No clips to export")).
Proof.
  intros Hv Ha. rewrite (export_setup tl settings Hv Ha).
  split; [|split].
  - destruct (if videoLoaded then Ok tt else ffmpegLoad);
      [destruct (initialize p)|]; simpl; intros c Hc;
      repeat (destruct Hc as [<-|Hc]; [reflexivity|]); contradiction.
  - destruct (if videoLoaded then Ok tt else ffmpegLoad);
      [destruct (initialize p)|]; simpl; eauto.
  - intros Hload [ctx Hctx].
    assert (E : (if videoLoaded then Ok tt else ffmpegLoad) = Ok tt).
    { destruct Hload as [->| ->]; [reflexivity|]. destruct videoLoaded; reflexivity. }
    rewrite E. unfold initialize. rewrite Hctx. destruct ctx; reflexivity.
Qed.
End ExportFacts.

Lemma export_without_clips_fails_fast_witness :
  processTimelineExport (Ok tt) demoDecode noRender noRender noRender
    demoProcessor false (timeline defaultState) (mkExportSettings mp4 high) []
  = ([VideoInitialize; AudioInitialize; OnProgress], Throw "No clips to export").
Proof.
  apply (export_without_clips_fails_fast (Ok tt) demoDecode noRender noRender
           noRender demoProcessor false (timeline defaultState)
           (mkExportSettings mp4 high)).
  - reflexivity.
  - reflexivity.
  - right. reflexivity.
  - eexists. reflexivity.
Defined.

(** With an audio clip on the un-muted audio track the export goes on to
    decode, mix, serialize and download. *)
Example export_with_one_audio_clip :
  fst (processTimelineExport (Ok tt) demoDecode noRender noRender noRender
         demoProcessor false
         (timeline (addClip defaultState "audio-track-1" clipA))
         (mkExportSettings mp4 high) [])
  = [VideoInitialize; AudioInitialize; OnProgress; LoadAudioFile fileA;
     MixAudioBuffers 1; ExportToWav; SetExportProgress 90;
     SetExportProgress 95;
     DownloadBlob (WavBlob (exportToWav sourceA)); SetExportProgress 100].
Proof. vm_compute. reflexivity. Qed.

(** * Fades *)

Lemma ratio_unit (a b : Z) :
  (0 <= a <= b)%Z -> (0 < b)%Z -> 0 <= inject_Z a / inject_Z b <= 1.
Proof.
  intros [Ha Hab] Hb.
  assert (Hb' : 0 < inject_Z b) by (change 0 with (inject_Z 0); rewrite <- Zlt_Qlt; exact Hb).
  split.
  - apply Qle_shift_div_l; [exact Hb'|]. rewrite Qmult_0_l.
    change 0 with (inject_Z 0). rewrite <- Zle_Qle. exact Ha.
  - apply Qle_shift_div_r; [exact Hb'|]. rewrite Qmult_1_l.
    rewrite <- Zle_Qle. exact Hab.
Qed.

Lemma ratio_pos (a b : Z) : (0 < a)%Z -> (0 < b)%Z -> 0 < inject_Z a / inject_Z b.
Proof.
  intros Ha Hb. apply Qlt_shift_div_l.
  - change 0 with (inject_Z 0). rewrite <- Zlt_Qlt. exact Hb.
  - rewrite Qmult_0_l. change 0 with (inject_Z 0). rewrite <- Zlt_Qlt. exact Ha.
Qed.

(** A gain between 0 and 1 never raises the magnitude of a sample. *)
Lemma Qabs_gain (x g : Q) : 0 <= g <= 1 -> Qabs (x * g) <= Qabs x.
Proof.
  intros [H0 H1]. rewrite Qabs_Qmult, (Qabs_pos g) by exact H0.
  pose proof (Qabs_nonneg x). nra.
Qed.

Lemma applyFadeIn_closed (p : AudioProcessor) (b : AudioBuffer) (d : Q) :
  is_Some (audioContext p) ->
  applyFadeIn p b d
  = Ok (mkAudioBuffer (numberOfChannels b) (bufLength b) (sampleRate b)
          (map (fun c =>
                  map (fun i =>
                         sample (getChannelData b c) i
                         * (if (Z.of_nat i <? Qfloor (roundDouble (d * inject_Z (sampleRate b))))%Z
                            then inject_Z (Z.of_nat i)
                                 / inject_Z (Qfloor (roundDouble (d * inject_Z (sampleRate b))))
                            else 1))
                      (seq 0 (bufLength b)))
               (seq 0 (numberOfChannels b)))).
Proof.
  intros [ctx Hctx]. unfold applyFadeIn. rewrite Hctx. f_equal.
  apply (fill_buffer _ _ _
    (fun c i => sample (getChannelData b c) i
                * (if (Z.of_nat i <? Qfloor (roundDouble (d * inject_Z (sampleRate b))))%Z
                   then inject_Z (Z.of_nat i)
                        / inject_Z (Qfloor (roundDouble (d * inject_Z (sampleRate b))))
                   else 1))).
Qed.

Lemma applyFadeOut_closed (p : AudioProcessor) (b : AudioBuffer) (d : Q) :
  is_Some (audioContext p) ->
  applyFadeOut p b d
  = Ok (mkAudioBuffer (numberOfChannels b) (bufLength b) (sampleRate b)
          (map (fun c =>
                  map (fun i =>
                         sample (getChannelData b c) i
                         * (if (Z.of_nat (bufLength b)
                                - Qfloor (roundDouble (d * inject_Z (sampleRate b)))
                                <=? Z.of_nat i)%Z
                            then inject_Z (Z.of_nat (bufLength b) - Z.of_nat i)
                                 / inject_Z (Qfloor (roundDouble (d * inject_Z (sampleRate b))))
                            else 1))
                      (seq 0 (bufLength b)))
               (seq 0 (numberOfChannels b)))).
Proof.
  intros [ctx Hctx]. unfold applyFadeOut. rewrite Hctx. f_equal.
  apply (fill_buffer _ _ _
    (fun c i => sample (getChannelData b c) i
                * (if (Z.of_nat (bufLength b)
                       - Qfloor (roundDouble (d * inject_Z (sampleRate b))) <=? Z.of_nat i)%Z
                   then inject_Z (Z.of_nat (bufLength b) - Z.of_nat i)
                        / inject_Z (Qfloor (roundDouble (d * inject_Z (sampleRate b))))
                   else 1))).
Qed.

(** X1: [applyFadeIn] keeps the shape of the buffer and multiplies sample
    [i] by [i / fadeSamples] while [i < fadeSamples], where
    [fadeSamples = floor(fadeDuration * sampleRate)], the product being a
    double, and leaves the later samples as they are.  No sample grows in
    magnitude, and when the fade covers at least one sample the first
    sample of every channel is silenced. *)
Theorem applyFadeIn_ramp (p : AudioProcessor) (b : AudioBuffer) (fadeDuration : Q) :
  is_Some (audioContext p) ->
  wfBuffer b ->
  let fadeSamples := Qfloor (roundDouble (fadeDuration * inject_Z (sampleRate b))) in
  exists out,
    applyFadeIn p b fadeDuration = Ok out /\
    wfBuffer out /\
    numberOfChannels out = numberOfChannels b /\
    bufLength out = bufLength b /\
    sampleRate out = sampleRate b /\
    forall c i, (c < numberOfChannels b)%nat -> (i < bufLength b)%nat ->
      let x := sample (getChannelData b c) i in
      let y := sample (getChannelData out c) i in
      ((Z.of_nat i < fadeSamples)%Z ->
         y == x * (inject_Z (Z.of_nat i) / inject_Z fadeSamples)) /\
      ((fadeSamples <= Z.of_nat i)%Z -> y = x) /\
      Qabs y <= Qabs x /\
      (i = 0%nat -> (0 < fadeSamples)%Z -> y == 0).
Proof.
  intros Hctx Hwf fadeSamples.
  eexists. split; [apply applyFadeIn_closed, Hctx|].
  fold fadeSamples.
  destruct Hwf as (Hlen & Hch & Hrate & Hall).
  split; [apply wfBuffer_filled; assumption|].
  split; [reflexivity|]. split; [reflexivity|]. split; [reflexivity|].
  intros c i Hc Hi. cbv zeta.
  rewrite getChannelData_filled by exact Hc.
  rewrite sample_map_seq by exact Hi.
  destruct (Z.ltb_spec (Z.of_nat i) fadeSamples) as [Hlt|Hge].
  - split; [intros _; reflexivity|]. split; [intros H; exfalso; lia|]. split.
    + apply Qabs_gain, ratio_unit; lia.
    + intros -> _. change (inject_Z (Z.of_nat 0)) with 0. field.
      change 0 with (inject_Z 0). rewrite inject_Z_injective. lia.
  - split; [intros H; exfalso; lia|].
    split; [intros _; apply Qmult_1_r_eq|]. split.
    + rewrite Qmult_1_r_eq. apply Qle_refl.
    + intros -> H. exfalso. lia.
Qed.

Lemma applyFadeIn_ramp_witness :
  exists out,
    applyFadeIn demoProcessor demoMono 1 = Ok out /\
    sample (getChannelData out 0) 1 == 2 * (1 # 2) /\
    sample (getChannelData out 0) 2 = 3.
Proof.
  destruct (applyFadeIn_ramp demoProcessor demoMono 1) as (out & Hrun & _ & _ & _ & _ & Hs).
  - eexists. reflexivity.
  - apply wfBufferb_spec. reflexivity.
  - exists out. split; [exact Hrun|].
    destruct (Hs 0%nat 1%nat ltac:(simpl; lia) ltac:(simpl; lia)) as (H1 & _).
    destruct (Hs 0%nat 2%nat ltac:(simpl; lia) ltac:(simpl; lia)) as (_ & H2 & _).
    split; [apply H1; vm_compute; reflexivity|apply H2; vm_compute; discriminate].
Defined.

(** X2: [applyFadeOut] keeps the shape of the buffer and multiplies sample
    [i] by [(length - i) / fadeSamples] from [length - fadeSamples] on,
    where [fadeSamples = floor(fadeDuration * sampleRate)], the product
    being a double, leaving the earlier samples as they are.  No sample
    grows in magnitude; and, the gain of the last sample being
    [1 / fadeSamples] and not 0, the fade never silences a sample that was
    not silent. *)
Theorem applyFadeOut_ramp (p : AudioProcessor) (b : AudioBuffer) (fadeDuration : Q) :
  is_Some (audioContext p) ->
  wfBuffer b ->
  let fadeSamples := Qfloor (roundDouble (fadeDuration * inject_Z (sampleRate b))) in
  let len := Z.of_nat (bufLength b) in
  exists out,
    applyFadeOut p b fadeDuration = Ok out /\
    wfBuffer out /\
    numberOfChannels out = numberOfChannels b /\
    bufLength out = bufLength b /\
    sampleRate out = sampleRate b /\
    forall c i, (c < numberOfChannels b)%nat -> (i < bufLength b)%nat ->
      let x := sample (getChannelData b c) i in
      let y := sample (getChannelData out c) i in
      ((len - fadeSamples <= Z.of_nat i)%Z ->
         y == x * (inject_Z (len - Z.of_nat i) / inject_Z fadeSamples)) /\
      ((Z.of_nat i < len - fadeSamples)%Z -> y = x) /\
      Qabs y <= Qabs x /\
      (y == 0 -> x == 0).
Proof.
  intros Hctx Hwf fadeSamples len.
  eexists. split; [apply applyFadeOut_closed, Hctx|].
  fold fadeSamples. fold len.
  destruct Hwf as (Hlen & Hch & Hrate & Hall).
  split; [apply wfBuffer_filled; assumption|].
  split; [reflexivity|]. split; [reflexivity|]. split; [reflexivity|].
  intros c i Hc Hi. cbv zeta.
  rewrite getChannelData_filled by exact Hc.
  rewrite sample_map_seq by exact Hi.
  destruct (Z.leb_spec (len - fadeSamples) (Z.of_nat i)) as [Hge|Hlt].
  - assert (Hfs : (0 < fadeSamples)%Z) by (unfold len in *; lia).
    split; [intros _; reflexivity|]. split; [intros H; exfalso; lia|]. split.
    + apply Qabs_gain, ratio_unit; unfold len in *; lia.
    + intros Hy.
      pose proof (ratio_pos (len - Z.of_nat i) fadeSamples
                    ltac:(unfold len; lia) Hfs) as Hg.
      apply Qmult_integral in Hy. destruct Hy as [Hx|Hg0]; [exact Hx|].
      rewrite Hg0 in Hg. discriminate.
  - split; [intros H; exfalso; lia|].
    split; [intros _; apply Qmult_1_r_eq|]. split.
    + rewrite Qmult_1_r_eq. apply Qle_refl.
    + rewrite Qmult_1_r_eq. trivial.
Qed.

Lemma applyFadeOut_ramp_witness :
  exists out,
    applyFadeOut demoProcessor demoMono 1 = Ok out /\
    sample (getChannelData out 0) 3 == 4 * (1 # 2) /\
    sample (getChannelData out 0) 1 = 2.
Proof.
  destruct (applyFadeOut_ramp demoProcessor demoMono 1) as (out & Hrun & _ & _ & _ & _ & Hs).
  - eexists. reflexivity.
  - apply wfBufferb_spec. reflexivity.
  - exists out. split; [exact Hrun|].
    destruct (Hs 0%nat 3%nat ltac:(simpl; lia) ltac:(simpl; lia)) as (H1 & _).
    destruct (Hs 0%nat 1%nat ltac:(simpl; lia) ltac:(simpl; lia)) as (_ & H2 & _).
    split; [apply H1; vm_compute; discriminate|apply H2; vm_compute; reflexivity].
Defined.

(** X3: a fade shorter than one frame changes nothing: when the double
    [fadeDuration * sampleRate] is below 1, and in particular when the
    duration is zero or negative, both fades return the input buffer, and
    no division by [fadeSamples = 0] is ever carried out. *)
Theorem fade_below_one_sample_is_identity (p : AudioProcessor) (b : AudioBuffer)
    (fadeDuration : Q) :
  is_Some (audioContext p) ->
  wfBuffer b ->
  fadeDuration <= 0 \/ roundDouble (fadeDuration * inject_Z (sampleRate b)) < 1 ->
  applyFadeIn p b fadeDuration = Ok b /\ applyFadeOut p b fadeDuration = Ok b.
Proof.
  intros Hctx Hwf Hshort.
  assert (Hlt : roundDouble (fadeDuration * inject_Z (sampleRate b)) < 1).
  { destruct Hshort as [Hd|H]; [|exact H].
    apply Qle_lt_trans with 0; [|reflexivity]. apply roundDouble_sign.
    destruct Hwf as (_ & _ & Hr & _).
    assert (Hr' : 0 < inject_Z (sampleRate b)).
    { change 0 with (inject_Z 0). rewrite <- Zlt_Qlt. exact Hr. }
    nra. }
  assert (Hfs : (Qfloor (roundDouble (fadeDuration * inject_Z (sampleRate b))) <= 0)%Z).
  { assert (H : (Qfloor (roundDouble (fadeDuration * inject_Z (sampleRate b))) < 1)%Z).
    { pose proof (Qfloor_le (roundDouble (fadeDuration * inject_Z (sampleRate b))))
        as Hle.
      rewrite Zlt_Qlt. change (inject_Z 1) with 1. lra. }
    lia. }
  assert (Hb : b = mkAudioBuffer (numberOfChannels b) (bufLength b) (sampleRate b)
                     (map (fun c => map (fun i => sample (getChannelData b c) i)
                                        (seq 0 (bufLength b)))
                          (seq 0 (numberOfChannels b)))).
  { rewrite <- channelData_table by exact Hwf. destruct b; reflexivity. }
  split.
  - rewrite applyFadeIn_closed by exact Hctx. f_equal.
    etransitivity; [|symmetry; exact Hb]. f_equal.
    apply map_ext. intros c. apply map_ext_in. intros i Hi.
    destruct (Z.ltb_spec (Z.of_nat i)
                (Qfloor (roundDouble (fadeDuration * inject_Z (sampleRate b)))));
      [lia|apply Qmult_1_r_eq].
  - rewrite applyFadeOut_closed by exact Hctx. f_equal.
    etransitivity; [|symmetry; exact Hb]. f_equal.
    apply map_ext. intros c. apply map_ext_in. intros i Hi. apply in_seq in Hi.
    destruct (Z.leb_spec (Z.of_nat (bufLength b)
                          - Qfloor (roundDouble
                                      (fadeDuration * inject_Z (sampleRate b))))
                         (Z.of_nat i));
      [lia|apply Qmult_1_r_eq].
Qed.

Lemma fade_below_one_sample_is_identity_witness :
  applyFadeIn demoProcessor demoBuffer (roundDouble (1 # 96000)) = Ok demoBuffer /\
  applyFadeOut demoProcessor demoBuffer (roundDouble (1 # 96000)) = Ok demoBuffer.
Proof.
  apply fade_below_one_sample_is_identity.
  - eexists. reflexivity.
  - apply wfBufferb_spec. reflexivity.
  - right. vm_compute. reflexivity.
Defined.

(** The fades at 48 kHz: a fade of 0.03 s covers 1440 frames, and a fade
    of one frame, 1/48000 s, silences the first sample. *)
Example fade_in_frames :
  Qfloor (roundDouble (roundDouble (3 # 100) * inject_Z (sampleRate demoBuffer)))
  = 1440%Z /\
  exists out,
    applyFadeIn demoProcessor demoBuffer (roundDouble (1 # 48000)) = Ok out /\
    sample (getChannelData out 0) 0 == 0 /\
    ~ sample (getChannelData demoBuffer 0) 0 == 0.
Proof.
  split; [vm_compute; reflexivity|]. eexists. split; [vm_compute; reflexivity|].
  split; [vm_compute; reflexivity|]. vm_compute. discriminate.
Qed.

(** * The waveform overview *)

Lemma forLoop_push {A : Type} (g : nat -> A) (n : nat) (l : list A) :
  forLoop n (fun i waveform => waveform ++ [g i]) l = l ++ map g (seq 0 n).
Proof.
  induction n as [|n IH].
  - simpl. rewrite app_nil_r. reflexivity.
  - rewrite forLoop_S, IH, seq_S, map_app, app_assoc. reflexivity.
Qed.

(** The inner loop of [extractWaveform] is the peak search over one
    window of the channel. *)
Lemma forWhile_window (data : list Q) (stop fuel j : nat) (max : Q) :
  (j + fuel = stop)%nat ->
  forWhile fuel j
    (fun j _ => (j <? stop)%nat && (j <? length data)%nat)
    (fun j max => Qmax max (Qabs (sample data j))) max
  = peakFrom max (take fuel (drop j data)).
Proof.
  revert j max. induction fuel as [|fuel IH]; intros j max Hstop.
  - reflexivity.
  - cbn [forWhile].
    destruct (Nat.ltb_spec j stop) as [_|Hge]; [|lia].
    destruct (Nat.ltb_spec j (length data)) as [Hin|Hout]; cbn [andb].
    + rewrite IH by lia.
      destruct (lookup_lt_is_Some_2 data j Hin) as [x Hx].
      rewrite (drop_S data x j Hx). unfold sample. rewrite Hx. reflexivity.
    + rewrite drop_ge by lia. reflexivity.
Qed.

Lemma extractWaveform_closed (b : AudioBuffer) (width : Z) :
  extractWaveform b width
  = map (fun i =>
           peakFrom 0
             (take (Z.to_nat (Z.of_nat (length (getChannelData b 0)) / width))
                (drop (i * Z.to_nat (Z.of_nat (length (getChannelData b 0)) / width))
                      (getChannelData b 0))))
        (seq 0 (Z.to_nat width)).
Proof.
  unfold extractWaveform. cbv zeta.
  etransitivity; [|apply (forLoop_push _ (Z.to_nat width) [])].
  apply forLoop_ext. intros i waveform _. f_equal. f_equal.
  apply forWhile_window. reflexivity.
Qed.

Lemma In_window (data : list Q) (k n : nat) (x : Q) :
  In x (take n (drop k data)) -> In x data.
Proof.
  intros H. apply list_elem_of_In in H. apply list_elem_of_In.
  apply elem_of_take in H. destruct H as (i & H & _).
  rewrite lookup_drop in H. apply list_elem_of_lookup. eauto.
Qed.

(** X4: [extractWaveform] returns one value per pixel ([width] of them).
    The value of pixel [i] is the largest absolute sample of channel 0 in
    the window of [samplesPerPixel = floor(length / width)] samples that
    starts at [i * samplesPerPixel]: it bounds every sample of the window,
    it is at least 0 and at most the peak of the whole channel.  When the
    channel has fewer samples than pixels the windows are empty and the
    waveform is all zeros, whatever the audio. *)
Theorem extractWaveform_window_peaks (b : AudioBuffer) (width : Z) :
  let data := getChannelData b 0 in
  let samplesPerPixel := Z.to_nat (Z.of_nat (length data) / width) in
  let waveform := extractWaveform b width in
  length waveform = Z.to_nat width /\
  (forall i, (i < Z.to_nat width)%nat ->
     exists max,
       waveform !! i = Some max /\
       max = peakFrom 0 (take samplesPerPixel (drop (i * samplesPerPixel) data)) /\
       (forall j, (i * samplesPerPixel <= j < i * samplesPerPixel + samplesPerPixel)%nat ->
          (j < length data)%nat -> Qabs (sample data j) <= max) /\
       0 <= max /\ max <= peakFrom 0 data) /\
  ((Z.of_nat (length data) < width)%Z -> waveform = replicate (Z.to_nat width) 0).
Proof.
  intros data spp waveform. unfold waveform.
  rewrite extractWaveform_closed. fold data. fold spp.
  split; [rewrite length_map, length_seq; reflexivity|]. split.
  - intros i Hi. eexists. split.
    { rewrite list_lookup_fmap, lookup_seq_lt by exact Hi. reflexivity. }
    split; [reflexivity|]. split; [|split].
    + intros j Hj Hlen. apply peakFrom_bounds.
      destruct (lookup_lt_is_Some_2 data j Hlen) as [x Hx].
      unfold sample. rewrite Hx. simpl.
      apply list_elem_of_In, list_elem_of_lookup. exists (j - i * spp)%nat.
      rewrite lookup_take_lt by lia. rewrite lookup_drop.
      replace (i * spp + (j - i * spp))%nat with j by lia. exact Hx.
    + apply peakFrom_ge.
    + destruct (peakFrom_attained (take spp (drop (i * spp) data)) 0)
        as [E|(x & Hin & E)].
      * rewrite E. apply peakFrom_ge.
      * rewrite E. apply peakFrom_bounds. eapply In_window, Hin.
  - intros Hshort.
    assert (E : spp = 0%nat).
    { unfold spp. rewrite Z.div_small by lia. reflexivity. }
    rewrite E. apply list_eq. intros i. rewrite list_lookup_fmap.
    destruct (decide (i < Z.to_nat width)%nat) as [Hi|Hi].
    + rewrite lookup_seq_lt, lookup_replicate_2 by exact Hi. reflexivity.
    + rewrite lookup_seq_ge by lia.
      rewrite lookup_ge_None_2 by (rewrite length_replicate; lia). reflexivity.
Qed.

(** * Mixing does not depend on the order of the entries *)

Lemma maxOf_perm (l l' : list nat) : Permutation l l' -> maxOf l = maxOf l'.
Proof.
  induction 1 as [|x l l' _ IH|x y l|l l' l'' _ IH1 _ IH2]; simpl in *;
    try lia; congruence.
Qed.

Section FoldPerm.
Context {A : Type} (f : Q -> A -> Q).
Hypothesis f_proper : forall a a' e, a == a' -> f a e == f a' e.
Hypothesis f_swap : forall a x y, f (f a x) y == f (f a y) x.

Lemma fold_left_seed (l : list A) (a a' : Q) :
  a == a' -> fold_left f l a == fold_left f l a'.
Proof.
  revert a a'. induction l as [|e l IH]; intros a a' Ha; simpl; [exact Ha|].
  apply IH, f_proper, Ha.
Qed.

Lemma fold_left_perm (l l' : list A) (a : Q) :
  Permutation l l' -> fold_left f l a == fold_left f l' a.
Proof.
  intros H. revert a.
  induction H as [|x l l' _ IH|x y l|l l' l'' _ IH1 _ IH2]; intros a; simpl.
  - reflexivity.
  - apply IH.
  - apply fold_left_seed, f_swap.
  - rewrite IH1. apply IH2.
Qed.

End FoldPerm.

Lemma totalLength_perm (l l' : list MixEntry) :
  Permutation l l' ->
  fold_left (fun totalLength e =>
               Qmax totalLength
                    (roundDouble (mixStartTime e + duration (mixBuffer e)))) l 0
  == fold_left (fun totalLength e =>
                  Qmax totalLength
                       (roundDouble (mixStartTime e + duration (mixBuffer e)))) l' 0.
Proof.
  apply (fold_left_perm
           (fun totalLength e =>
              Qmax totalLength
                   (roundDouble (mixStartTime e + duration (mixBuffer e))))).
  - intros a a' e Ha. rewrite Ha. reflexivity.
  - intros a x y. rewrite <- !Q.max_assoc.
    apply Q.max_compat; [reflexivity|apply Q.max_comm].
Qed.

Lemma mixedSample_perm (rate : Z) (c j : nat) (l l' : list MixEntry) :
  Permutation l l' -> mixedSample rate c j l == mixedSample rate c j l'.
Proof.
  apply (fold_left_perm (fun acc e => acc + contribution rate c j e)).
  - intros a a' e Ha. rewrite Ha. reflexivity.
  - intros a x y. ring.
Qed.

(** X5: the mix does not depend on the order in which the clips are given,
    apart from the sample rate, which is taken from the first entry.  Take
    two non-empty lists with the same entries in any order, whose first
    entries have the same sample rate.  When the mix of one throws, so
    does the mix of the other, with the same error.  When the mix of one
    returns a buffer, so does the mix of the other: the two buffers have
    the same shape, and every output sample is the sum of the same
    contributions, added in the order of the list; in exact arithmetic
    the samples are therefore equal. *)
Theorem mixAudioBuffers_order_independent (p : AudioProcessor)
    (first1 first2 : MixEntry) (rest1 rest2 : list MixEntry) :
  is_Some (audioContext p) ->
  Forall (fun e => wfBuffer (mixBuffer e)) (first1 :: rest1) ->
  Permutation (first1 :: rest1) (first2 :: rest2) ->
  sampleRate (mixBuffer first1) = sampleRate (mixBuffer first2) ->
  (forall msg, mixAudioBuffers p (first1 :: rest1) = Throw msg ->
     mixAudioBuffers p (first2 :: rest2) = Throw msg) /\
  (forall out1, mixAudioBuffers p (first1 :: rest1) = Ok out1 ->
   exists out2,
     mixAudioBuffers p (first2 :: rest2) = Ok out2 /\
     sampleRate out1 = sampleRate out2 /\
     numberOfChannels out1 = numberOfChannels out2 /\
     bufLength out1 = bufLength out2 /\
     forall c j, (c < numberOfChannels out1)%nat -> (j < bufLength out1)%nat ->
       Permutation
         (map (contribution (sampleRate out1) c j) (first1 :: rest1))
         (map (contribution (sampleRate out1) c j) (first2 :: rest2)) /\
       sample (getChannelData out1 c) j == sample (getChannelData out2 c) j).
Proof.
  intros Hctx Hwf1 Hperm Hrate.
  assert (Hwf2 : Forall (fun e => wfBuffer (mixBuffer e)) (first2 :: rest2)).
  { rewrite Forall_forall in *. intros e He. apply Hwf1.
    rewrite Hperm. exact He. }
  pose proof (mixAudioBuffers_no_frames p first1 rest1 Hctx) as Hno1.
  pose proof (mixAudioBuffers_no_frames p first2 rest2 Hctx) as Hno2.
  pose proof (mixAudioBuffers_runs p first1 rest1 Hctx Hwf1) as Hyes1.
  pose proof (mixAudioBuffers_runs p first2 rest2 Hctx Hwf2) as Hyes2.
  cbv zeta in Hyes1, Hyes2.
  assert (Hsame :
    Qfloor
      (roundDouble
         (fold_left (fun totalLength e =>
              Qmax totalLength
                (roundDouble (mixStartTime e + duration (mixBuffer e))))
            (first2 :: rest2) 0
          * inject_Z (sampleRate (mixBuffer first2))))
    = Qfloor
        (roundDouble
           (fold_left (fun totalLength e =>
                Qmax totalLength
                  (roundDouble (mixStartTime e + duration (mixBuffer e))))
              (first1 :: rest1) 0
            * inject_Z (sampleRate (mixBuffer first1))))).
  { rewrite <- Hrate, <- (totalLength_perm _ _ Hperm). reflexivity. }
  rewrite Hsame in Hno2, Hyes2.
  set (totalSamples :=
         Qfloor
           (roundDouble
              (fold_left (fun totalLength e =>
                   Qmax totalLength
                     (roundDouble (mixStartTime e + duration (mixBuffer e))))
                 (first1 :: rest1) 0
               * inject_Z (sampleRate (mixBuffer first1))))) in *.
  destruct (Z.le_gt_cases totalSamples 0) as [Hle|Hgt].
  - rewrite (Hno1 Hle), (Hno2 Hle). split; [intros msg H; exact H|].
    intros out1 H. discriminate H.
  - destruct (Hyes1 ltac:(lia)) as (out1 & Hrun1 & Hr1 & Hc1 & Hl1 & _ & Hs1).
    destruct (Hyes2 ltac:(lia)) as (out2 & Hrun2 & Hr2 & Hc2 & Hl2 & _ & Hs2).
    rewrite Hrun1. split; [intros msg H; discriminate H|].
    intros out1' H. injection H as <-.
    exists out2. split; [exact Hrun2|].
    assert (Hc : numberOfChannels out1 = numberOfChannels out2).
    { rewrite Hc1, Hc2. apply maxOf_perm, Permutation_map, Hperm. }
    assert (Hl : bufLength out1 = bufLength out2) by lia.
    split; [congruence|]. split; [exact Hc|]. split; [exact Hl|].
    intros c j Hcj Hj. split; [apply Permutation_map, Hperm|].
    destruct (Hs1 c Hcj) as [_ H1]. destruct (Hs2 c ltac:(lia)) as [_ H2].
    rewrite (H1 j Hj), (H2 j ltac:(lia)), Hrate.
    apply mixedSample_perm, Hperm.
Qed.

Lemma mixAudioBuffers_order_independent_witness :
  exists out1 out2,
    mixAudioBuffers demoProcessor
      [mkMixEntry demoStereo 1 (1 # 2); mkMixEntry demoMono 0 1] = Ok out1 /\
    mixAudioBuffers demoProcessor
      [mkMixEntry demoMono 0 1; mkMixEntry demoStereo 1 (1 # 2)] = Ok out2 /\
    sampleRate out1 = sampleRate out2 /\
    numberOfChannels out1 = numberOfChannels out2 /\
    bufLength out1 = bufLength out2 /\
    bufLength out1 = 6%nat.
Proof.
  destruct (mixAudioBuffers_order_independent demoProcessor
              (mkMixEntry demoStereo 1 (1 # 2)) (mkMixEntry demoMono 0 1)
              [mkMixEntry demoMono 0 1] [mkMixEntry demoStereo 1 (1 # 2)])
    as (_ & H).
  - eexists. reflexivity.
  - constructor; [apply wfBufferb_spec; reflexivity|].
    constructor; [apply wfBufferb_spec; reflexivity|constructor].
  - apply perm_swap.
  - reflexivity.
  - eexists. destruct (H _ ltac:(vm_compute; reflexivity))
      as (out2 & H2 & H3 & H4 & H5 & _).
    exists out2. split; [vm_compute; reflexivity|].
    split; [exact H2|]. split; [exact H3|]. split; [exact H4|].
    split; [exact H5|reflexivity].
Defined.

(** * The quantisation of [exportToWav] *)

Lemma Qtrunc_neg (y : Q) : y <= 0 -> Qtrunc y = (- Qfloor (- y))%Z.
Proof.
  intros Hy. rewrite <- (Qtrunc_nonneg (- y)) by lra. rewrite Qtrunc_opp. lia.
Qed.

Lemma Qfloor_nonneg (y : Q) : 0 <= y -> (0 <= Qfloor y)%Z.
Proof. intros Hy. change 0%Z with (Qfloor 0). apply Qfloor_resp_le, Hy. Qed.

Lemma Qtrunc_mono (y y' : Q) : y <= y' -> (Qtrunc y <= Qtrunc y')%Z.
Proof.
  intros Hle. destruct (Qlt_le_dec y 0) as [Hy|Hy].
  - rewrite (Qtrunc_neg y) by lra.
    destruct (Qlt_le_dec y' 0) as [Hy'|Hy'].
    + rewrite (Qtrunc_neg y') by lra.
      assert (H : (Qfloor (- y') <= Qfloor (- y))%Z) by (apply Qfloor_resp_le; lra).
      lia.
    + rewrite (Qtrunc_nonneg y') by exact Hy'.
      pose proof (Qfloor_nonneg (- y) ltac:(lra)).
      pose proof (Qfloor_nonneg y' Hy'). lia.
  - rewrite !Qtrunc_nonneg by lra. apply Qfloor_resp_le, Hle.
Qed.

Lemma clamp_mono (x x' : Q) : x <= x' -> clamp x <= clamp x'.
Proof.
  intros Hle. unfold clamp.
  apply Q.max_le_compat_l, Q.min_le_compat_l, Hle.
Qed.

Lemma scaleSample_mono (x x' : Q) : x <= x' -> scaleSample x <= scaleSample x'.
Proof.
  intros Hle. pose proof (clamp_mono x x' Hle) as Hc.
  destruct (scaleSample_spec x) as [Hneg Hpos].
  destruct (scaleSample_spec x') as [Hneg' Hpos'].
  destruct (Qlt_le_dec (clamp x) 0) as [H|H];
    destruct (Qlt_le_dec (clamp x') 0) as [H'|H'].
  - rewrite (Hneg H), (Hneg' H'). lra.
  - rewrite (Hneg H), (Hpos' H'). lra.
  - lra.
  - rewrite (Hpos H), (Hpos' H'). lra.
Qed.

(** The truncated value is within one unit of the scaled sample, on the
    side of zero. *)
Lemma Qtrunc_towards_zero (y : Q) :
  (0 <= y -> inject_Z (Qtrunc y) <= y < inject_Z (Qtrunc y) + 1) /\
  (y < 0 -> inject_Z (Qtrunc y) - 1 < y <= inject_Z (Qtrunc y)).
Proof.
  split; intros Hy.
  - rewrite Qtrunc_nonneg by exact Hy. split; [apply Qfloor_le|].
    pose proof (Qlt_floor y) as H. rewrite inject_Z_plus in H. exact H.
  - rewrite Qtrunc_neg by lra. rewrite inject_Z_opp.
    pose proof (Qfloor_le (- y)) as Hlo. pose proof (Qlt_floor (- y)) as Hhi.
    rewrite inject_Z_plus in Hhi. change (inject_Z 1) with 1 in Hhi. lra.
Qed.

(** X6: reading the WAV file back gives an order-preserving, saturating
    quantisation of the samples: a larger sample never decodes to a
    smaller 16-bit value (no wrap-around), samples at or above 1 decode to
    32767 and samples at or below -1 to -32768, and the decoded value is
    the clamped sample times 32767 (32768 below zero) rounded towards
    zero, so less than one step away from it. *)
Theorem exportToWav_quantisation (b : AudioBuffer) (i c i' c' : nat) :
  (i < bufLength b)%nat -> (c < numberOfChannels b)%nat ->
  (i' < bufLength b)%nat -> (c' < numberOfChannels b)%nat ->
  let x := sample (getChannelData b c) i in
  let x' := sample (getChannelData b c') i' in
  let v := getInt16 (exportToWav b) (44 + 2 * (i * numberOfChannels b + c)) in
  let v' := getInt16 (exportToWav b) (44 + 2 * (i' * numberOfChannels b + c')) in
  (x <= x' -> (v <= v')%Z) /\
  (1 <= x -> v = 32767%Z) /\
  (x <= -1 -> v = (-32768)%Z) /\
  (0 <= x -> inject_Z v <= clamp x * 32767 < inject_Z v + 1) /\
  (x < 0 -> inject_Z v - 1 < clamp x * 32768 <= inject_Z v).
Proof.
  intros Hi Hc Hi' Hc'. cbv zeta.
  rewrite (exportToWav_sample b i c Hi Hc), (exportToWav_sample b i' c' Hi' Hc').
  set (x := sample (getChannelData b c) i).
  set (x' := sample (getChannelData b c') i').
  destruct (scaleSample_spec x) as [Hneg Hpos].
  destruct (Qtrunc_towards_zero (scaleSample x)) as [Htz Htn].
  split; [intros Hle; apply Qtrunc_mono, scaleSample_mono, Hle|].
  split; [|split; [|split]].
  - intros Hx.
    assert (E : clamp x == 1).
    { unfold clamp. rewrite (Q.min_l 1 x) by exact Hx. reflexivity. }
    rewrite Hpos by (rewrite E; discriminate).
    rewrite Qtrunc_nonneg by (rewrite E; discriminate).
    rewrite (Qfloor_comp _ 32767) by (rewrite E; reflexivity). reflexivity.
  - intros Hx.
    assert (E : clamp x == -1).
    { unfold clamp. rewrite (Q.min_r 1 x) by lra. apply Q.max_l, Hx. }
    rewrite Hneg by (rewrite E; reflexivity).
    rewrite Qtrunc_neg by (rewrite E; discriminate).
    rewrite (Qfloor_comp _ 32768) by (rewrite E; reflexivity). reflexivity.
  - intros Hx.
    assert (H0 : 0 <= clamp x).
    { unfold clamp. apply Q.max_le_iff. right. apply Q.min_glb; [discriminate|exact Hx]. }
    rewrite <- (Hpos H0). apply Htz. rewrite (Hpos H0). lra.
  - intros Hx.
    assert (H0 : clamp x < 0).
    { unfold clamp. apply Q.max_lub_lt; [reflexivity|].
      eapply Qle_lt_trans; [apply Q.le_min_r|exact Hx]. }
    rewrite <- (Hneg H0). apply Htn. rewrite (Hneg H0). lra.
Qed.

Lemma exportToWav_quantisation_witness :
  getInt16 (exportToWav demoBuffer) (44 + 2 * (2 * 2 + 0)) = 32767%Z.
Proof.
  apply (exportToWav_quantisation demoBuffer 2 0 2 0);
    try (simpl; lia). vm_compute. discriminate.
Defined.

(** * The waveform picture *)

Lemma createWaveformVisualization_closed (waveform : list Q) (width height : Q) :
  createWaveformVisualization waveform width height
  = map (fun i =>
           mkRect (inject_Z (Z.of_nat i)
                   * (width / inject_Z (Z.of_nat (length waveform))))
                  ((height - sample waveform i * height) / 2)
                  (width / inject_Z (Z.of_nat (length waveform)) - 1)
                  (sample waveform i * height))
        (seq 0 (length waveform)).
Proof.
  unfold createWaveformVisualization. cbv zeta.
  apply (forLoop_push (fun i =>
           mkRect (inject_Z (Z.of_nat i)
                   * (width / inject_Z (Z.of_nat (length waveform))))
                  ((height - sample waveform i * height) / 2)
                  (width / inject_Z (Z.of_nat (length waveform)) - 1)
                  (sample waveform i * height))
         (length waveform) []).
Qed.

Lemma extractWaveform_unit (b : AudioBuffer) (pixels : Z) (i : nat) :
  Forall (fun x => Qabs x <= 1) (getChannelData b 0) ->
  0 <= sample (extractWaveform b pixels) i <= 1.
Proof.
  intros Hunit. rewrite extractWaveform_closed. unfold sample.
  rewrite list_lookup_fmap.
  destruct (seq 0 (Z.to_nat pixels) !! i) as [j|]; [|split; discriminate].
  cbn [fmap option_fmap option_map default]. unfold Datatypes.id.
  split; [apply peakFrom_ge|].
  match goal with |- peakFrom 0 ?w <= 1 =>
    destruct (peakFrom_attained w 0) as [E|(x & Hin & E)] end.
  - rewrite E. discriminate.
  - rewrite E. apply In_window in Hin. rewrite Forall_forall in Hunit.
    apply Hunit, list_elem_of_In, Hin.
Qed.

(** X20: drawing the waveform of a buffer, when the samples of channel 0
    lie within [-1, 1] and the canvas has a non-negative size.  The
    picture of [extractWaveform]'s values has one bar per pixel column
    asked for.  Every bar is centred vertically and lies between the top
    and the bottom of the canvas.  Bar [i] starts at [i * width / pixels],
    inside the canvas, and is [width / pixels - 1] wide.  When the canvas
    is at least as wide as the number of values, the width of a bar is
    not negative and the bar lies inside the canvas, a gap of 1 following
    it; it is 0 when the canvas is exactly as wide.  When there are more
    values than the canvas is wide, the width of every bar is negative:
    the bar is drawn from its start to the left, and bar 0 lies to the
    left of the canvas. *)
Theorem waveform_bars_fit_canvas (b : AudioBuffer) (pixels : Z) (width height : Q) :
  Forall (fun x => Qabs x <= 1) (getChannelData b 0) ->
  0 <= width -> 0 <= height ->
  let bars :=
    createWaveformVisualization (extractWaveform b pixels) width height in
  length bars = Z.to_nat pixels /\
  forall i r, bars !! i = Some r ->
    rectX r == inject_Z (Z.of_nat i) * (width / inject_Z pixels) /\
    rectWidth r == width / inject_Z pixels - 1 /\
    0 <= rectY r /\ 0 <= rectHeight r /\ rectY r + rectHeight r <= height /\
    rectY r + rectHeight r / 2 == height / 2 /\
    0 <= rectX r /\ rectX r + rectWidth r + 1 <= width /\
    (inject_Z pixels <= width ->
     0 <= rectWidth r /\ rectX r + rectWidth r <= width) /\
    (width == inject_Z pixels -> rectWidth r == 0) /\
    (width < inject_Z pixels ->
     rectWidth r < 0 /\ (i = 0%nat -> rectX r + rectWidth r < 0)).
Proof.
  intros Hunit Hw Hh. cbv zeta.
  rewrite createWaveformVisualization_closed.
  assert (Hlen : length (extractWaveform b pixels) = Z.to_nat pixels).
  { rewrite extractWaveform_closed, length_map, length_seq. reflexivity. }
  rewrite Hlen. split; [rewrite length_map, length_seq; reflexivity|].
  intros i r Hr. rewrite list_lookup_fmap in Hr.
  destruct (decide (i < Z.to_nat pixels)%nat) as [Hi|Hi];
    [|rewrite lookup_seq_ge in Hr by lia; discriminate].
  rewrite lookup_seq_lt in Hr by exact Hi. injection Hr as <-.
  cbn [rectX rectY rectWidth rectHeight].
  rewrite Z2Nat.id by lia.
  pose proof (extractWaveform_unit b pixels i Hunit) as [Hv0 Hv1].
  set (v := sample (extractWaveform b pixels) i) in *.
  assert (Hn : 0 < inject_Z pixels).
  { change 0 with (inject_Z 0). rewrite <- Zlt_Qlt. lia. }
  assert (Hi0 : 0 <= inject_Z (Z.of_nat i)).
  { change 0 with (inject_Z 0). rewrite <- Zle_Qle. lia. }
  assert (Hi1 : inject_Z (Z.of_nat i) + 1 <= inject_Z pixels).
  { change 1 with (inject_Z 1). rewrite <- inject_Z_plus, <- Zle_Qle. lia. }
  assert (Hzero : i = 0%nat -> inject_Z (Z.of_nat i) == 0) by (intros ->; reflexivity).
  set (n := inject_Z pixels) in *. set (k := inject_Z (Z.of_nat i)) in *.
  assert (Hq : 0 <= width / n).
  { apply Qle_shift_div_l; [exact Hn|]. rewrite Qmult_0_l. exact Hw. }
  assert (Hnq : n * (width / n) == width) by (field; lra).
  assert (Hone : width == n -> width / n - 1 == 0) by (intros E; rewrite E; field; lra).
  assert (Hroom : n <= width -> 1 <= width / n).
  { intros H. apply Qle_shift_div_l; [exact Hn|]. lra. }
  assert (Hnarrow : width < n -> width / n < 1).
  { intros H. apply Qlt_shift_div_r; [exact Hn|]. lra. }
  set (q := width / n) in *. clearbody q v k n.
  assert (Hvh : 0 <= v * height <= height).
  { split; [apply Qmult_le_0_compat; assumption|].
    assert (H : 0 <= (1 - v) * height) by (apply Qmult_le_0_compat; lra).
    assert (E : (1 - v) * height == height - v * height) by ring.
    rewrite E in H. lra. }
  assert (Hkq : 0 <= k * q) by (apply Qmult_le_0_compat; assumption).
  assert (Hright : k * q + q <= width).
  { assert (H : 0 <= (n - (k + 1)) * q) by (apply Qmult_le_0_compat; lra).
    assert (E : (n - (k + 1)) * q == n * q - (k * q + q)) by ring.
    rewrite E, Hnq in H. lra. }
  split; [reflexivity|]. split; [reflexivity|].
  destruct Hvh as [Hp0 Hp1]. set (p := v * height) in *. clearbody p.
  unfold Qdiv. change (/ 2) with (1 # 2).
  split; [lra|]. split; [exact Hp0|]. split; [lra|]. split; [ring|].
  split; [exact Hkq|]. split; [lra|].
  split; [intros H; specialize (Hroom H); split; lra|].
  split; [exact Hone|].
  intros H. specialize (Hnarrow H). split; [lra|].
  intros Hi'. specialize (Hzero Hi'). rewrite Hzero. lra.
Qed.

Lemma waveform_bars_fit_canvas_witness :
  let bars :=
    createWaveformVisualization
      (extractWaveform (mkAudioBuffer 1 4 2 [[1 # 2; -1; 0; 1 # 4]]) 2) 6 10 in
  length bars = 2%nat /\
  forall i r, bars !! i = Some r ->
    0 <= rectX r /\ 0 <= rectWidth r /\ rectX r + rectWidth r <= 6 /\
    0 <= rectY r /\ 0 <= rectHeight r /\ rectY r + rectHeight r <= 10.
Proof.
  destruct (waveform_bars_fit_canvas
              (mkAudioBuffer 1 4 2 [[1 # 2; -1; 0; 1 # 4]]) 2 6 10)
    as [Hlen Hbars].
  - repeat constructor; vm_compute; discriminate.
  - discriminate.
  - discriminate.
  - split; [exact Hlen|]. intros i r Hr.
    destruct (Hbars i r Hr)
      as (_ & _ & Hy & Hh & Hyh & _ & Hx & _ & Hroom & _).
    destruct Hroom as [Hw Hxw]; [discriminate|].
    split; [exact Hx|]. split; [exact Hw|]. split; [exact Hxw|].
    split; [exact Hy|]. split; [exact Hh|exact Hyh].
Defined.

(** * The calls of the export *)

Section Emits.
Context (P : Call -> Prop).

Lemma emits_ret {A : Type} (a : A) : emits P (mret a).
Proof. intros log. exists []. rewrite app_nil_r. split; [reflexivity|constructor]. Qed.

Lemma emits_lift {A : Type} (r : result A) : emits P (lift r).
Proof. intros log. exists []. rewrite app_nil_r. split; [reflexivity|constructor]. Qed.

Lemma emits_call (c : Call) : P c -> emits P (call c).
Proof.
  intros Hc log. exists [c]. split; [reflexivity|]. constructor; [exact Hc|constructor].
Qed.

Lemma emits_bind {A B : Type} (m : Export A) (k : A -> Export B) :
  emits P m -> (forall a, emits P (k a)) -> emits P (m ≫= k).
Proof.
  intros Hm Hk log. destruct (Hm log) as (added & Hlog & Hadded).
  unfold mbind, Export_bind. destruct (m log) as [log' [a|msg]]; simpl in Hlog; subst log'.
  - destruct (Hk a (log ++ added)) as (added' & Hlog' & Hadded').
    exists (added ++ added'). rewrite Hlog', app_assoc. split; [reflexivity|].
    apply Forall_app. split; assumption.
  - exists added. split; [reflexivity|exact Hadded].
Qed.

Lemma emits_forOf {A S : Type} (l : list A) (body : S -> A -> Export S) (s : S) :
  (forall s x, emits P (body s x)) -> emits P (forOf l body s).
Proof.
  intros Hbody. revert s. induction l as [|x l IH]; intros s; cbn [forOf].
  - apply emits_ret.
  - apply emits_bind; [apply Hbody|exact IH].
Qed.

End Emits.

(** One step of the analysis of a block of the export. *)
Ltac emits_step :=
  lazymatch goal with
  | |- emits _ (mret _) => apply emits_ret
  | |- emits _ (lift _) => apply emits_lift
  | |- emits _ (call _) =>
    apply emits_call; first [exact I | reflexivity | (simpl; lia)]
  | |- emits _ (_ ≫= _) => apply emits_bind; [|intros ?]
  | |- emits _ (forOf _ _ _) => apply emits_forOf; intros ? ?
  | |- emits _ (if ?b then _ else _) => destruct b
  | |- emits _ (match ?x with _ => _ end) => destruct x
  | |- emits _ _ => progress cbv zeta
  end.

Section ExportCalls.
Variable ffmpegLoad : result unit.
Variable decodeAudioData : File -> AudioBuffer.
Variables renderLowPass renderHighPass renderReverb
  : AudioBuffer -> Q -> AudioBuffer.
Variable p : AudioProcessor.
Variable videoLoaded : bool.

Lemma videoInitialize_emits : emits beforeDelivery (videoInitialize ffmpegLoad videoLoaded).
Proof. unfold videoInitialize. repeat emits_step. Qed.

Lemma audioInitialize_emits : emits beforeDelivery (audioInitialize p).
Proof. unfold audioInitialize. repeat emits_step. Qed.

Lemma processVideoClips_emits (clips : list Clip) :
  emits beforeDelivery (processVideoClips clips).
Proof. unfold processVideoClips. repeat emits_step. Qed.

Lemma processAudioClips_emits (clips : list Clip) :
  emits beforeDelivery
    (processAudioClips decodeAudioData renderLowPass renderHighPass renderReverb
                       p clips).
Proof.
  unfold processAudioClips, mixAudioClips, collectAudioBuffers, applyEffect.
  repeat emits_step.
Qed.

Lemma delivers_bind {A : Type} (m : Export A) (k : A -> Export unit) :
  emits beforeDelivery m -> (forall a, delivers (k a)) -> delivers (m ≫= k).
Proof.
  intros Hm Hk log. destruct (Hm log) as (added & Hlog & Hadded).
  unfold mbind, Export_bind. destruct (m log) as [log' [a|msg]]; simpl in Hlog; subst log'.
  - destruct (Hk a (log ++ added)) as (added' & Hlog' & Hres).
    exists (added ++ added'). rewrite Hlog', app_assoc. split; [reflexivity|].
    unfold delivered in *. destruct (snd (k a (log ++ added))) as [[]|msg].
    + destruct Hres as (pre & b & -> & Hpre). exists (added ++ pre), b.
      rewrite app_assoc. split; [reflexivity|]. apply Forall_app. split; assumption.
    + apply Forall_app. split; assumption.
  - exists added. split; [reflexivity|exact Hadded].
Qed.

Lemma delivers_throw (msg : string) : delivers (lift (Throw msg)).
Proof. intros log. exists []. rewrite app_nil_r. split; [reflexivity|constructor]. Qed.

Lemma delivers_download (b : Blob) :
  delivers (_ ← call (SetExportProgress 95); _ ← call (DownloadBlob b);
            call (SetExportProgress 100)).
Proof.
  intros log. exists [SetExportProgress 95; DownloadBlob b; SetExportProgress 100].
  split.
  - unfold mbind, Export_bind, call. simpl. rewrite <- !app_assoc. reflexivity.
  - exists [], b. split; [reflexivity|constructor].
Qed.

Lemma processTimelineExport_delivers (tl : Timeline) (settings : ExportSettings) :
  delivers (processTimelineExport ffmpegLoad decodeAudioData renderLowPass
              renderHighPass renderReverb p videoLoaded tl settings).
Proof.
  unfold processTimelineExport.
  apply delivers_bind; [apply videoInitialize_emits|intros _].
  apply delivers_bind; [apply audioInitialize_emits|intros _].
  apply delivers_bind; [repeat emits_step|intros _]. cbv zeta.
  destruct (exportVideoClips tl) as [|v vs];
    destruct (exportAudioClips tl) as [|a al];
    try apply delivers_throw;
    (apply delivers_bind;
       [repeat first [apply processVideoClips_emits | emits_step]|intros fv]);
    (apply delivers_bind;
       [repeat first [apply processAudioClips_emits | emits_step]|intros fa]);
    (apply delivers_bind; [repeat emits_step|intros fb]);
    (apply delivers_bind; [repeat emits_step|intros fb']);
    apply delivers_download.
Qed.

End ExportCalls.

Lemma panel_progress_before_delivery (log : list Call) (st : ExportPanelState) :
  Forall beforeDelivery log ->
  (0 <= exportProgress st <= 90)%Z ->
  (0 <= exportProgress (fold_left panelStep log st) <= 90)%Z.
Proof.
  intros Hlog. revert st. induction Hlog as [|c log Hc _ IH]; intros st Hst; simpl.
  - exact Hst.
  - apply IH. destruct c; simpl; try exact Hst. exact Hc.
Qed.

Lemma panelStep_exportError (log : list Call) (st : ExportPanelState) :
  exportError (fold_left panelStep log st) = exportError st.
Proof.
  revert st. induction log as [|c log IH]; intros st; simpl; [reflexivity|].
  rewrite IH. destruct c; reflexivity.
Qed.

(** X7: when the export handler is done the panel is no longer exporting
    and its status is either completed or error.  It is completed exactly
    when the file was handed to the browser: the calls then end with
    progress 95, one download, progress 100, and nothing before is a
    download.  With status error no download happened at all, and the
    progress shown stays between 0 and 90.  (The progress events of the
    transcoding service are outside the model.) *)
Theorem handleExport_downloads_iff_completed
    (ffmpegLoad : result unit) (decodeAudioData : File -> AudioBuffer)
    (renderLowPass renderHighPass renderReverb : AudioBuffer -> Q -> AudioBuffer)
    (p : AudioProcessor) (videoLoaded : bool)
    (tl : Timeline) (settings : ExportSettings) :
  let run := handleExport ffmpegLoad decodeAudioData renderLowPass renderHighPass
               renderReverb p videoLoaded tl settings in
  let log := fst run in
  let st := snd run in
  isExporting st = false /\
  (exportStatus st = statusCompleted \/ exportStatus st = statusError) /\
  (exportStatus st = statusCompleted ->
     exportProgress st = 100%Z /\ exportError st = EmptyString /\
     exists pre b,
       log = pre ++ [SetExportProgress 95; DownloadBlob b; SetExportProgress 100] /\
       Forall beforeDelivery pre) /\
  (exportStatus st = statusError ->
     Forall beforeDelivery log /\ (0 <= exportProgress st <= 90)%Z).
Proof.
  cbv zeta. unfold handleExport.
  destruct (processTimelineExport_delivers ffmpegLoad decodeAudioData renderLowPass
              renderHighPass renderReverb p videoLoaded tl settings [])
    as (added & Hlog & Hres).
  destruct (processTimelineExport ffmpegLoad decodeAudioData renderLowPass
              renderHighPass renderReverb p videoLoaded tl settings [])
    as [log [[]|msg]]; cbn [fst snd app] in *; subst added;
    cbn [isExporting exportStatus exportProgress exportError].
  - split; [reflexivity|]. split; [left; reflexivity|]. split; [|discriminate].
    intros _. split; [reflexivity|]. split; [apply panelStep_exportError|].
    exact Hres.
  - split; [reflexivity|]. split; [right; reflexivity|]. split; [discriminate|].
    intros _. split; [exact Hres|].
    apply panel_progress_before_delivery; [exact Hres|]. simpl. lia.
Qed.

Section AudioOnly.
Variable ffmpegLoad : result unit.
Variable decodeAudioData : File -> AudioBuffer.
Variables renderLowPass renderHighPass renderReverb
  : AudioBuffer -> Q -> AudioBuffer.
Variable p : AudioProcessor.
Variable videoLoaded : bool.

Lemma mixAudioClips_no_video_call (clips : list Clip) :
  emits (fun c => isVideoService c = false)
    (mixAudioClips decodeAudioData renderLowPass renderHighPass renderReverb p clips).
Proof.
  unfold mixAudioClips, collectAudioBuffers, applyEffect. repeat emits_step.
Qed.

(** The three steps that come before the clips are processed. *)
Lemma setup_runs {A : Type} (k : unit -> Export A) :
  (videoInitialize ffmpegLoad videoLoaded
   ≫= λ _, audioInitialize p ≫= λ _, call OnProgress ≫= k) []
  = match (if videoLoaded then Ok tt else ffmpegLoad) with
    | Throw msg => ([VideoInitialize], Throw msg)
    | Ok _ =>
      match initialize p with
      | Throw msg => ([VideoInitialize; AudioInitialize], Throw msg)
      | Ok _ => k tt [VideoInitialize; AudioInitialize; OnProgress]
      end
    end.
Proof.
  unfold videoInitialize, audioInitialize.
  unfold mbind, Export_bind, call, lift, mret, Export_ret. cbn [app].
  destruct videoLoaded; [|destruct ffmpegLoad as [[]|msg]];
    try reflexivity; destruct (initialize p); reflexivity.
Qed.

(** X8: an export of a timeline without exportable video clips makes no
    call that works on video, and what it downloads is the WAV
    serialization of the mixed audio clips: as it is under the default
    settings (mp4, high), and as the input of one [convertToFormat] call
    under any other settings. *)
Theorem export_audio_only_delivers_wav (tl : Timeline) (settings : ExportSettings) :
  let run := processTimelineExport ffmpegLoad decodeAudioData renderLowPass
               renderHighPass renderReverb p videoLoaded tl settings [] in
  exportVideoClips tl = [] ->
  snd run = Ok tt ->
  exists pre mixed,
    snd (mixAudioClips decodeAudioData renderLowPass renderHighPass renderReverb p
           (exportAudioClips tl) [VideoInitialize; AudioInitialize; OnProgress])
    = Ok mixed /\
    Forall (fun c => isVideoService c = false) pre /\
    fst run
    = pre ++
      (if needsConversion settings
       then [ConvertToFormat (WavBlob (exportToWav mixed)) (format settings)
                             (quality settings);
             SetExportProgress 95;
             DownloadBlob (Converted (WavBlob (exportToWav mixed))
                                     (format settings) (quality settings));
             SetExportProgress 100]
       else [SetExportProgress 95; DownloadBlob (WavBlob (exportToWav mixed));
             SetExportProgress 100]).
Proof.
  cbv zeta. intros Hv. unfold processTimelineExport. rewrite Hv.
  rewrite setup_runs.
  destruct (if videoLoaded then Ok () else ffmpegLoad) as [[]|msg];
    [|intros H; discriminate H].
  destruct (initialize p) as [p'|msg]; [|intros H; discriminate H].
  destruct (exportAudioClips tl) as [|a al] eqn:Ha; [intros H; discriminate H|].
  set (clips := a :: al). set (log0 := [VideoInitialize; AudioInitialize; OnProgress]).
  unfold processAudioClips.
  destruct (mixAudioClips_no_video_call clips log0) as (added & Hadded & Hquiet).
  unfold mbind, Export_bind, call, mret, Export_ret.
  destruct (mixAudioClips decodeAudioData renderLowPass renderHighPass renderReverb
              p clips log0) as [log' [mixed|msg]]; [|discriminate].
  cbn [fst] in Hadded. subst log'. intros _.
  exists (log0 ++ added ++ [ExportToWav; SetExportProgress 90]), mixed.
  split; [reflexivity|]. split.
  - apply Forall_app. split; [repeat constructor|].
    apply Forall_app. split; [exact Hquiet|repeat constructor].
  - destruct (needsConversion settings); cbn [fst];
      rewrite <- !app_assoc; reflexivity.
Qed.

End AudioOnly.

Lemma export_audio_only_delivers_wav_witness :
  exists pre mixed,
    snd (mixAudioClips demoDecode noRender noRender noRender demoProcessor
           (exportAudioClips (timeline (addClip defaultState "audio-track-1" clipA)))
           [VideoInitialize; AudioInitialize; OnProgress])
    = Ok mixed /\
    Forall (fun c => isVideoService c = false) pre /\
    fst (processTimelineExport (Ok tt) demoDecode noRender noRender noRender
           demoProcessor false
           (timeline (addClip defaultState "audio-track-1" clipA))
           (mkExportSettings mp4 high) [])
    = pre ++ [SetExportProgress 95; DownloadBlob (WavBlob (exportToWav mixed));
              SetExportProgress 100].
Proof.
  apply (export_audio_only_delivers_wav (Ok tt) demoDecode noRender noRender
           noRender demoProcessor false
           (timeline (addClip defaultState "audio-track-1" clipA))
           (mkExportSettings mp4 high)).
  - reflexivity.
  - vm_compute. reflexivity.
Defined.

(** * The video half of the export *)

Lemma run_bind {A B : Type} (m : Export A) (k : A -> Export B) (log : list Call) :
  (m ≫= k) log
  = match m log with
    | (log', Ok a) => k a log'
    | (log', Throw msg) => (log', Throw msg)
    end.
Proof. reflexivity. Qed.

Lemma run_call (c : Call) (log : list Call) : call c log = (log ++ [c], Ok tt).
Proof. reflexivity. Qed.

Lemma run_ret {A : Type} (a : A) (log : list Call) :
  (mret a : Export A) log = (log, Ok a).
Proof. reflexivity. Qed.

Lemma filters_run (effs : list Effect) (b : Blob) (log : list Call) :
  exists added b',
    forOf effs (fun processedBlob effect =>
      if negb (enabled effect) then mret processedBlob
      else
        match getFFmpegFilterString effect with
        | Some filterString =>
          _ ← call (ApplyVideoFilter processedBlob filterString);
          mret (FilteredVideo processedBlob filterString)
        | None => mret processedBlob
        end) b log
    = (log ++ added, Ok b') /\
    Forall clipCall added /\ sourceFile b' = sourceFile b /\
    (effs = [] -> added = [] /\ b' = b).
Proof.
  revert b log. induction effs as [|e effs IH]; intros b log.
  - exists [], b. rewrite app_nil_r. repeat split; constructor.
  - cbn [forOf]. unfold mbind at 1. unfold Export_bind at 1.
    destruct (negb (enabled e)).
    + unfold mret at 1. unfold Export_ret at 1.
      destruct (IH b log) as (added & b' & Hrun & Hcalls & Hsrc & _).
      exists added, b'. repeat split; try assumption; discriminate.
    + destruct (getFFmpegFilterString e) as [f|].
      * unfold mbind at 1, Export_bind at 1, call at 1, mret at 1, Export_ret at 1.
        destruct (IH (FilteredVideo b f) (log ++ [ApplyVideoFilter b f]))
          as (added & b' & Hrun & Hcalls & Hsrc & _).
        exists (ApplyVideoFilter b f :: added), b'. rewrite Hrun.
        rewrite <- app_assoc. repeat split; try assumption; try discriminate.
        constructor; [split; reflexivity|exact Hcalls].
      * unfold mret at 1. unfold Export_ret at 1.
        destruct (IH b log) as (added & b' & Hrun & Hcalls & Hsrc & _).
        exists added, b'. repeat split; try assumption; discriminate.
Qed.

Section VideoClips.

Let videoBody (processedFiles : list Blob) (clip : Clip) : Export (list Blob) :=
  let processedBlob := FileBlob (default (mkFile "" "") (file clip)) in
  processedBlob ←
    (if Qltb 0 (trimStart clip) || Qltb (trimEnd clip) (clipDuration clip)
     then
       _ ← call (TrimVideo processedBlob (trimStart clip) (trimEnd clip));
       mret (TrimmedVideo processedBlob (trimStart clip) (trimEnd clip))
     else mret processedBlob);
  processedBlob ← forOf (effects clip) (fun processedBlob effect =>
    if negb (enabled effect) then mret processedBlob
    else
      match getFFmpegFilterString effect with
      | Some filterString =>
        _ ← call (ApplyVideoFilter processedBlob filterString);
        mret (FilteredVideo processedBlob filterString)
      | None => mret processedBlob
      end) processedBlob;
  mret (processedFiles ++ [processedBlob]).

Lemma videoClips_run (clips : list Clip) (processedFiles : list Blob)
    (log : list Call) :
  Forall (fun clip => is_Some (file clip)) clips ->
  exists added blobs,
    forOf clips videoBody processedFiles log
    = (log ++ added, Ok (processedFiles ++ blobs)) /\
    Forall clipCall added /\
    map sourceFile blobs = map file clips /\
    (Forall (fun clip => needsTrim clip = false /\ effects clip = []) clips ->
     added = [] /\ map Some blobs = map (fun clip => FileBlob <$> file clip) clips).
Proof.
  intros Hfiles. revert processedFiles log.
  induction Hfiles as [|clip clips [f Hf] _ IH]; intros processedFiles log.
  - exists [], []. rewrite !app_nil_r. repeat split; constructor.
  - cbn [forOf]. rewrite run_bind. unfold videoBody at 1. cbv beta zeta.
    rewrite Hf. change (default (mkFile "" "") (Some f)) with f.
    fold (needsTrim clip). rewrite run_bind.
    destruct (needsTrim clip) eqn:Htrim.
    + rewrite run_bind, run_call. cbv beta iota. rewrite run_ret. cbv beta iota.
      rewrite run_bind.
      destruct (filters_run (effects clip)
                  (TrimmedVideo (FileBlob f) (trimStart clip) (trimEnd clip))
                  (log ++ [TrimVideo (FileBlob f) (trimStart clip) (trimEnd clip)]))
        as (added1 & b & Hrun1 & Hcalls1 & Hsrc & _).
      rewrite Hrun1. cbv beta iota. rewrite run_ret. cbv beta iota.
      destruct (IH (processedFiles ++ [b])
                  ((log ++ [TrimVideo (FileBlob f) (trimStart clip) (trimEnd clip)])
                   ++ added1))
        as (added2 & blobs & Hrun2 & Hcalls2 & Hsrcs & _).
      exists ((TrimVideo (FileBlob f) (trimStart clip) (trimEnd clip) :: added1)
              ++ added2), (b :: blobs).
      rewrite Hrun2. split; [rewrite <- !app_assoc; reflexivity|]. split.
      { apply Forall_app. split; [|exact Hcalls2].
        constructor; [split; reflexivity|exact Hcalls1]. }
      split; [cbn [map]; rewrite Hsrc, Hsrcs, Hf; reflexivity|].
      intros Hplain. inversion Hplain as [|? ? [Hno _] _]. congruence.
    + rewrite run_ret. cbv beta iota. rewrite run_bind.
      destruct (filters_run (effects clip) (FileBlob f) log)
        as (added1 & b & Hrun1 & Hcalls1 & Hsrc & Hnone).
      rewrite Hrun1. cbv beta iota. rewrite run_ret. cbv beta iota.
      destruct (IH (processedFiles ++ [b]) (log ++ added1))
        as (added2 & blobs & Hrun2 & Hcalls2 & Hsrcs & Hplain2).
      exists (added1 ++ added2), (b :: blobs).
      rewrite Hrun2. split; [rewrite <- !app_assoc; reflexivity|]. split.
      { apply Forall_app. split; assumption. }
      split; [cbn [map]; rewrite Hsrc, Hsrcs, Hf; reflexivity|].
      intros Hplain. inversion Hplain as [|? ? [_ Heff] Hrest]. subst.
      destruct (Hnone Heff) as [-> ->]. destruct (Hplain2 Hrest) as [-> Hb].
      split; [reflexivity|]. cbn [map]. rewrite Hb, Hf. reflexivity.
Qed.

(** X9: [processVideoClips], given at least one clip (each with a file),
    returns a blob after calls that all work on video.  For one clip the
    blob comes from the clip's file through its trim and filters, and no
    merge is called; for two or more clips the merge is the last call,
    once, with one input per clip, in the order of the clips, whatever
    their start times.  Clips that need no trim and have no effects cause
    no call of their own: their files go in as they are, and a single such
    clip is returned untouched.  (The calls on the transcoding service
    are taken to return.) *)
Theorem processVideoClips_merges_in_clip_order (clips : list Clip)
    (log : list Call) :
  clips <> [] ->
  Forall (fun clip => is_Some (file clip)) clips ->
  exists added blob,
    processVideoClips clips log = (log ++ added, Ok blob) /\
    Forall (fun c => isVideoService c = true) added /\
    (forall clip, clips = [clip] ->
       sourceFile blob = file clip /\
       Forall (fun c => isMergeVideos c = false) added /\
       (needsTrim clip = false -> effects clip = [] ->
        added = [] /\ Some blob = FileBlob <$> file clip)) /\
    ((2 <= length clips)%nat ->
       exists pre inputs,
         blob = MergedVideos inputs /\
         added = pre ++ [MergeVideos inputs] /\
         Forall (fun c => isMergeVideos c = false) pre /\
         map sourceFile inputs = map file clips /\
         (Forall (fun clip => needsTrim clip = false /\ effects clip = []) clips ->
          pre = [] /\
          map Some inputs = map (fun clip => FileBlob <$> file clip) clips)).
Proof.
  intros Hne Hfiles. unfold processVideoClips. rewrite run_bind.
  destruct (videoClips_run clips [] log Hfiles)
    as (added & blobs & Hrun & Hcalls & Hsrcs & Hplain).
  change (forOf clips _ [] log) with (forOf clips videoBody [] log).
  rewrite Hrun. cbn [app].
  assert (Hlen : length blobs = length clips).
  { rewrite <- (length_map sourceFile blobs), Hsrcs, length_map. reflexivity. }
  assert (Hvideo : Forall (fun c => isVideoService c = true) added).
  { eapply Forall_impl; [exact Hcalls|]. intros c [H _]. exact H. }
  assert (Hnomerge : Forall (fun c => isMergeVideos c = false) added).
  { eapply Forall_impl; [exact Hcalls|]. intros c [_ H]. exact H. }
  destruct blobs as [|b1 [|b2 blobs]].
  - destruct clips; [congruence|discriminate].
  - exists added, b1. rewrite run_ret.
    split; [reflexivity|]. split; [exact Hvideo|]. split.
    + intros clip ->. split; [injection Hsrcs as ->; reflexivity|].
      split; [exact Hnomerge|]. intros Htrim Heff.
      destruct Hplain as [-> Hb]; [constructor; [split; assumption|constructor]|].
      split; [reflexivity|]. cbn [map] in Hb. injection Hb as Hb. exact Hb.
    + intros H2. rewrite <- Hlen in H2. simpl in H2. lia.
  - set (inputs := b1 :: b2 :: blobs) in *.
    exists (added ++ [MergeVideos inputs]), (MergedVideos inputs).
    rewrite run_bind, run_call. cbv beta iota. rewrite run_ret.
    split; [rewrite <- app_assoc; reflexivity|]. split.
    { apply Forall_app. split; [exact Hvideo|repeat constructor]. }
    split.
    + intros clip ->. discriminate Hlen.
    + intros _. exists added, inputs. repeat split; try assumption;
        apply (Hplain ltac:(assumption)).
Qed.

End VideoClips.

Lemma processVideoClips_merges_in_clip_order_witness :
  exists added blob,
    processVideoClips [clipA; clipB] [] = ([] ++ added, Ok blob) /\
    Forall (fun c => isVideoService c = true) added.
Proof.
  destruct (processVideoClips_merges_in_clip_order [clipA; clipB] [])
    as (added & blob & Hrun & Hcalls & _).
  - discriminate.
  - constructor; [eexists; reflexivity|].
    constructor; [eexists; reflexivity|constructor].
  - exists added, blob. split; assumption.
Defined.

(** * The error paths of the audio half *)

(** X10: [processAudioClips] on no clip at all fails in the mix, with
    "Invalid audio context or no buffers provided", after announcing a mix
    of 0 buffers; and without an audio context it fails on the first clip,
    with "Audio context not initialized", right after asking for that
    clip's file: nothing else is loaded, processed, mixed or serialized. *)
Theorem processAudioClips_error_paths (decodeAudioData : File -> AudioBuffer)
    (renderLowPass renderHighPass renderReverb : AudioBuffer -> Q -> AudioBuffer)
    (p : AudioProcessor) (log : list Call) :
  processAudioClips decodeAudioData renderLowPass renderHighPass renderReverb p
    [] log
  = (log ++ [MixAudioBuffers 0],
     Throw "Invalid audio context or no buffers provided") /\
  (audioContext p = None ->
   forall clip rest,
     processAudioClips decodeAudioData renderLowPass renderHighPass renderReverb p
       (clip :: rest) log
     = (log ++ [LoadAudioFile (default (mkFile "" "") (file clip))],
        Throw "Audio context not initialized")).
Proof.
  split.
  - unfold processAudioClips, mixAudioClips, collectAudioBuffers, mixAudioBuffers.
    destruct (audioContext p); reflexivity.
  - intros Hctx clip rest.
    unfold processAudioClips, mixAudioClips, collectAudioBuffers, requireContext.
    cbn [forOf]. unfold mbind, Export_bind, call, lift.
    rewrite Hctx. reflexivity.
Qed.

Lemma processAudioClips_error_paths_witness :
  processAudioClips demoDecode noRender noRender noRender (mkAudioProcessor None)
    [clipA; clipB] []
  = ([] ++ [LoadAudioFile (default (mkFile "" "") (file clipA))],
     Throw "Audio context not initialized").
Proof.
  apply (processAudioClips_error_paths demoDecode noRender noRender noRender
           (mkAudioProcessor None) []).
  reflexivity.
Defined.

(** * The store *)

Lemma clamp_between (lo hi x : Q) : lo <= hi -> lo <= Qmax lo (Qmin x hi) <= hi.
Proof.
  intros Hle. split; [apply Q.le_max_l|].
  apply Q.max_lub; [exact Hle|apply Q.le_min_r].
Qed.

Lemma addClip_duration (st : EditorState) (tid : string) (clip : Clip) :
  timelineDuration (timeline st)
  <= timelineDuration (timeline (addClip st tid clip)).
Proof.
  unfold addClip.
  destruct (findIndex _ _); [|apply Qle_refl]. simpl.
  destruct (Qltb _ _) eqn:E; [|apply Qle_refl].
  apply Qltb_lt in E. apply Qlt_le_weak, E.
Qed.

Lemma updateTrack_duration (st : EditorState) (tid : string) (u : TrackUpdates) :
  timelineDuration (timeline (updateTrack st tid u)) = timelineDuration (timeline st).
Proof. unfold updateTrack. destruct (findIndex _ _); reflexivity. Qed.

Lemma selectClip_timeline (st : EditorState) (cid : string) (multi : bool) :
  timeline (selectClip st cid multi) = timeline st.
Proof.
  unfold selectClip. destruct multi; [|reflexivity].
  destruct (negb _); reflexivity.
Qed.

Lemma pasteClips_rest (now : nat -> Z) (s : Store) (tid : string) (time : Q) :
  let s' := pasteClips now s tid time in
  timelineDuration (timeline (editor s')) = timelineDuration (timeline (editor s)) /\
  selectedClips (editor s') = selectedClips (editor s) /\
  transport s' = transport s /\ zoom s' = zoom s /\
  selectedTracks s' = selectedTracks s /\ clipboard s' = clipboard s /\
  history s' = history s /\ historyIndex s' = historyIndex s /\
  ui s' = ui s /\ playback s' = playback s.
Proof.
  cbv zeta. unfold pasteClips.
  destruct (findIndex _ _); [|repeat split].
  destruct (0 <? length (clipboard s))%nat; repeat split.
Qed.

Lemma spliceFrom_length {A : Type} (a : list A) (start : Z) :
  (length (spliceFrom a start) <= length a)%nat.
Proof. unfold spliceFrom. rewrite length_take. lia. Qed.

(** Reduce the projections of the store's records, and nothing else. *)
Ltac store_fields :=
  cbn [editor transport zoom selectedTracks clipboard history historyIndex ui
       playback isPlaying currentTime playbackRate activePanel sidebarWidth
       timelineHeight showGrid showSafeZones showRulers timeline
       timelineDuration tracks selectedClips setEditor setUi onEditor
       setHistoryIndex setTracks] in *.

(** X11: every state that the actions of the store can produce, from the
    initial state on, satisfies: the timeline duration is not negative;
    the playback state and its copy in the timeline agree; the playhead
    lies between 0 and the duration; the zoom lies in [0.1, 10], the
    sidebar width in [200, 600] and the timeline height in [150, 400];
    and the history index is -1 with an empty history and otherwise
    points at an entry of the history. *)
Theorem reachable_storeInvariant (s : Store) : reachable s -> storeInvariant s.
Proof.
  induction 1 as
    [ | s time _ IH | s _ IH | s _ IH | s _ IH | s rate _ IH | s z _ IH
    | s tid clip _ IH | s cid _ IH | s cid u _ IH | s cid multi _ IH
    | s _ IH | s _ IH | now s tid time _ IH | s type _ IH | s tid _ IH
    | s tid u _ IH | s tids _ IH | s _ IH | s _ IH | s _ IH
    | now s type descr _ IH | s panel _ IH | s width _ IH | s height _ IH
    | s _ IH | s _ IH | s _ IH ];
    try (destruct IH as (Hdur & Hsync & Htime & Hzoom & Hside & Hheight & Hhist)).
  - (* the initial state *)
    unfold storeInvariant. simpl.
    repeat split; try discriminate. left. split; reflexivity.
  - (* setCurrentTime *)
    unfold storeInvariant, setCurrentTime. store_fields.
    split; [exact Hdur|]. split; [rewrite Hsync; reflexivity|].
    split; [apply clamp_between, Hdur|]. repeat split; tauto.
  - unfold storeInvariant, play, setIsPlaying. store_fields.
    rewrite Hsync in *. repeat split; tauto.
  - unfold storeInvariant, pause, setIsPlaying. store_fields.
    rewrite Hsync in *. repeat split; tauto.
  - unfold storeInvariant, stop. store_fields.
    rewrite Hsync in *. repeat split; try tauto. apply Qle_refl.
  - unfold storeInvariant, setPlaybackRate. store_fields.
    rewrite Hsync in *. repeat split; tauto.
  - unfold storeInvariant, setZoom. store_fields.
    repeat split; try tauto; apply (clamp_between (1 # 10) 10 z); discriminate.
  - (* addClip *)
    pose proof (addClip_duration (editor s) tid clip) as Hgrow.
    unfold storeInvariant. store_fields. repeat split; try tauto; lra.
  - unfold storeInvariant, removeClip. store_fields. repeat split; tauto.
  - unfold storeInvariant, updateClip. store_fields. repeat split; tauto.
  - unfold storeInvariant. store_fields.
    rewrite selectClip_timeline. repeat split; tauto.
  - unfold storeInvariant, clearSelection. store_fields. repeat split; tauto.
  - unfold storeInvariant, copyClips. store_fields. repeat split; tauto.
  - (* pasteClips *)
    destruct (pasteClips_rest now s tid time)
      as (E1 & _ & E2 & E3 & _ & _ & E4 & E5 & E6 & E7).
    unfold storeInvariant. rewrite E1, E2, E3, E4, E5, E6, E7.
    repeat split; tauto.
  - unfold storeInvariant, addTrack. store_fields. repeat split; tauto.
  - unfold storeInvariant, removeTrack. store_fields. repeat split; tauto.
  - unfold storeInvariant. store_fields.
    rewrite updateTrack_duration. repeat split; tauto.
  - unfold storeInvariant, reorderTracks. store_fields. repeat split; tauto.
  - (* newProject *)
    unfold storeInvariant. simpl.
    repeat split; try discriminate. left. split; reflexivity.
  - (* undo *)
    unfold storeInvariant, undo.
    destruct (Z.ltb_spec 0 (historyIndex s)); store_fields;
      repeat split; try tauto.
    right. lia.
  - (* redo *)
    unfold storeInvariant, redo.
    destruct (Z.ltb_spec (historyIndex s) (Z.of_nat (length (history s)) - 1));
      store_fields; repeat split; try tauto.
    right. lia.
  - (* addToHistory *)
    unfold storeInvariant, addToHistory. store_fields.
    repeat split; try tauto. right. rewrite length_app. simpl. lia.
  - unfold storeInvariant, setActivePanel. store_fields. repeat split; tauto.
  - unfold storeInvariant, setSidebarWidth. store_fields.
    repeat split; try tauto; apply (clamp_between 200 600 width); discriminate.
  - unfold storeInvariant, setTimelineHeight. store_fields.
    repeat split; try tauto; apply (clamp_between 150 400 height); discriminate.
  - unfold storeInvariant, toggleGrid. store_fields. repeat split; tauto.
  - unfold storeInvariant, toggleSafeZones. store_fields. repeat split; tauto.
  - unfold storeInvariant, toggleRulers. store_fields. repeat split; tauto.
Qed.

Lemma reachable_storeInvariant_witness :
  storeInvariant
    (setCurrentTime (onEditor (fun e => addClip e "video-track-1" clipB) defaultStore) 7).
Proof.
  apply reachable_storeInvariant.
  apply reach_setCurrentTime, reach_addClip, reach_default.
Defined.

(** * Clip actions composed *)

Lemma filter_all {A : Type} (f : A -> bool) (l : list A) :
  (forall x, In x l -> f x = true) -> List.filter f l = l.
Proof.
  induction l as [|x l IH]; intros H; simpl; [reflexivity|].
  rewrite (H x (or_introl eq_refl)), IH; [reflexivity|].
  intros y Hy. apply H. right. exact Hy.
Qed.

Lemma filter_twice {A : Type} (f : A -> bool) (l : list A) :
  List.filter f (List.filter f l) = List.filter f l.
Proof.
  apply filter_all. intros x Hx. apply filter_In in Hx. tauto.
Qed.

Lemma track_eta (t : Track) :
  mkTrack (trackId t) (trackType t) (muted t) (locked t) (visible t) (clips t) = t.
Proof. destruct t; reflexivity. Qed.

(** X12: removing a clip id twice is the same as removing it once.
    Removing a clip right after adding it, when its id was not in use and
    not selected, gives back the tracks and the selection as they were;
    the timeline duration however stays where [addClip] raised it: it is
    the larger of the old duration and the clip's end time when the track
    exists. *)
Theorem removeClip_after_addClip (st : EditorState) (tid : string) (clip : Clip) :
  removeClip (removeClip st (id clip)) (id clip) = removeClip st (id clip) /\
  ((forall t c, In t (tracks (timeline st)) -> In c (clips t) -> id c <> id clip) ->
   ~ In (id clip) (selectedClips st) ->
   let st' := removeClip (addClip st tid clip) (id clip) in
   tracks (timeline st') = tracks (timeline st) /\
   selectedClips st' = selectedClips st /\
   timelineDuration (timeline st')
   == match findIndex (fun t => String.eqb (trackId t) tid) (tracks (timeline st)) with
      | Some _ => Qmax (timelineDuration (timeline st)) (endTime clip)
      | None => timelineDuration (timeline st)
      end).
Proof.
  split.
  { unfold removeClip. cbn [timeline tracks timelineDuration selectedClips clips
                            trackId trackType muted locked visible].
    f_equal; [f_equal|apply filter_twice].
    rewrite map_map. apply map_ext. intros t.
    cbn [clips trackId trackType muted locked visible].
    rewrite filter_twice. reflexivity. }
  intros Hfresh Hsel. cbv zeta.
  assert (Hkeep : forall t, In t (tracks (timeline st)) ->
            List.filter (fun c => negb (String.eqb (id c) (id clip))) (clips t)
            = clips t).
  { intros t Ht. apply filter_all. intros c Hc.
    apply negb_true_iff, String.eqb_neq. eapply Hfresh; eassumption. }
  assert (Hselkeep : List.filter (fun i => negb (String.eqb i (id clip)))
                                 (selectedClips st) = selectedClips st).
  { apply filter_all. intros i Hi. apply negb_true_iff, String.eqb_neq.
    intros ->. contradiction. }
  destruct (findIndex (fun t => String.eqb (trackId t) tid) (tracks (timeline st)))
    as [k|] eqn:Hk.
  - destruct (addClip_appends st tid clip k Hk)
      as (tr & Htr & _ & Htracks & Hclips & Hdur & Hsel').
    unfold removeClip.
    cbn [timeline tracks timelineDuration selectedClips].
    rewrite Htracks, Hsel', Hselkeep.
    split; [|split; [reflexivity|exact Hdur]].
    apply list_eq. intros j. rewrite list_lookup_fmap.
    destruct (decide (j = k)) as [->|Hne].
    + rewrite list_lookup_insert_eq by (eapply lookup_lt_Some; exact Htr).
      rewrite Htr. cbn [fmap option_fmap option_map]. f_equal.
      rewrite Hclips, List.filter_app. cbn [List.filter].
      rewrite String.eqb_refl. cbn [negb]. rewrite app_nil_r.
      rewrite Hkeep by (apply list_elem_of_In, list_elem_of_lookup; eauto).
      unfold pushClip. cbn [trackId trackType muted locked visible].
      apply track_eta.
    + rewrite list_lookup_insert_ne by congruence.
      destruct (tracks (timeline st) !! j) as [t|] eqn:Ht; [|reflexivity].
      cbn [fmap option_fmap option_map]. f_equal.
      rewrite Hkeep by (apply list_elem_of_In, list_elem_of_lookup; eauto).
      apply track_eta.
  - unfold addClip. rewrite Hk. unfold removeClip.
    cbn [timeline tracks timelineDuration selectedClips].
    split; [|split; [exact Hselkeep|reflexivity]].
    rewrite <- (map_id (tracks (timeline st))) at 2.
    apply map_ext_in. intros t Ht. rewrite (Hkeep t Ht). apply track_eta.
Qed.

Lemma removeClip_after_addClip_witness :
  tracks (timeline (removeClip (addClip defaultState "video-track-1" clipB) (id clipB)))
  = tracks (timeline defaultState) /\
  timelineDuration
    (timeline (removeClip (addClip defaultState "video-track-1" clipB) (id clipB)))
  == 3.
Proof.
  destruct (removeClip_after_addClip defaultState "video-track-1" clipB) as [_ H].
  destruct H as (Htracks & _ & Hdur).
  - intros t c [<-|[<-|[]]] [].
  - intros [].
  - split; [exact Htracks|exact Hdur].
Defined.

(** * The selection *)

Lemma includes_In (l : list string) (x : string) : includes l x = true <-> In x l.
Proof.
  unfold includes. rewrite existsb_exists. split.
  - intros (y & Hy & E). apply String.eqb_eq in E. subst. exact Hy.
  - intros H. exists x. split; [exact H|apply String.eqb_refl].
Qed.

(** X13: after [selectClip] the given id is selected; with [multiSelect]
    the ids selected before stay selected, in their order, and without it
    they are dropped.  A selection without repetitions stays without
    repetitions, selecting the same id again changes nothing, and the
    timeline is not touched.  Whether a clip with that id exists is not
    checked. *)
Theorem selectClip_selection (st : EditorState) (clipId : string)
    (multiSelect : bool) :
  let st' := selectClip st clipId multiSelect in
  (forall x, In x (selectedClips st') <->
             x = clipId \/ (multiSelect = true /\ In x (selectedClips st))) /\
  (multiSelect = true ->
   exists added, selectedClips st' = selectedClips st ++ added) /\
  (NoDup (selectedClips st) -> NoDup (selectedClips st')) /\
  selectClip st' clipId multiSelect = st' /\
  timeline st' = timeline st.
Proof.
  cbv zeta. unfold selectClip.
  destruct multiSelect; [destruct (includes (selectedClips st) clipId) eqn:E|];
    cbn [negb selectedClips timeline].
  - apply includes_In in E. split; [|split; [|split; [|split]]].
    + intros x. split; [tauto|]. intros [->|[_ H]]; assumption.
    + intros _. exists []. rewrite app_nil_r. reflexivity.
    + trivial.
    + apply includes_In in E. rewrite E. reflexivity.
    + reflexivity.
  - assert (Hnot : ~ In clipId (selectedClips st)).
    { intros H. apply includes_In in H. congruence. }
    split; [|split; [|split; [|split]]].
    + intros x. rewrite in_app_iff. simpl. split.
      * intros [H|[<-|[]]]; [right; split; [reflexivity|exact H]|left; reflexivity].
      * intros [->|[_ H]]; [right; left; reflexivity|left; exact H].
    + intros _. exists [clipId]. reflexivity.
    + intros Hnd. apply NoDup_app. split; [exact Hnd|]. split.
      * intros x Hx Hin. apply list_elem_of_In in Hx, Hin.
        destruct Hin as [<-|[]]. contradiction.
      * apply NoDup_singleton.
    + assert (E' : includes (selectedClips st ++ [clipId]) clipId = true).
      { apply includes_In, in_app_iff. right. left. reflexivity. }
      rewrite E'. reflexivity.
    + reflexivity.
  - split; [|split; [|split; [|split]]].
    + intros x. simpl. split.
      * intros [<-|[]]. left. reflexivity.
      * intros [->|[H _]]; [left; reflexivity|discriminate].
    + discriminate.
    + intros _. apply NoDup_singleton.
    + reflexivity.
    + reflexivity.
Qed.

(** * Copy and paste *)

Lemma pushClips_fold {X : Type} (g : X -> Clip) (l : list X) (tr : Track) :
  fold_left (fun track x => pushClip (g x) track) l tr
  = mkTrack (trackId tr) (trackType tr) (muted tr) (locked tr) (visible tr)
            (clips tr ++ map g l).
Proof.
  revert tr. induction l as [|x l IH]; intros tr; simpl.
  - rewrite app_nil_r. symmetry. apply track_eta.
  - rewrite IH. unfold pushClip. simpl. rewrite <- app_assoc. reflexivity.
Qed.

(** X14: [pasteClips] does nothing when no track has the given id or the
    clipboard is empty.  Otherwise it appends one new clip per clipboard
    entry, in clipboard order, to the first track with that id and leaves
    the other tracks alone.  Every pasted clip starts at the given time
    (the clips are stacked, their offsets to one another are lost), keeps
    the length of its original, and gets the original's id followed by
    "-copy-" and the clock reading.  The timeline duration is not raised,
    even when the pasted clips end after it. *)
Theorem pasteClips_stacks_copies (now : nat -> Z) (s : Store) (tid : string)
    (time : Q) :
  let found := findIndex (fun t => String.eqb (trackId t) tid)
                         (tracks (timeline (editor s))) in
  let s' := pasteClips now s tid time in
  (found = None \/ clipboard s = [] -> s' = s) /\
  (forall k, found = Some k -> clipboard s <> [] ->
     exists tr tr' pasted,
       tracks (timeline (editor s)) !! k = Some tr /\
       tracks (timeline (editor s')) !! k = Some tr' /\
       trackId tr' = trackId tr /\
       clips tr' = clips tr ++ pasted /\
       length pasted = length (clipboard s) /\
       (forall i c, clipboard s !! i = Some c ->
          exists c', pasted !! i = Some c' /\
            id c' = (id c +:+ "-copy-" +:+ pretty (now i))%string /\
            startTime c' = time /\
            endTime c' - startTime c' == endTime c - startTime c /\
            file c' = file c /\ effects c' = effects c) /\
       (forall j, j <> k ->
          tracks (timeline (editor s')) !! j = tracks (timeline (editor s)) !! j) /\
       timelineDuration (timeline (editor s'))
       = timelineDuration (timeline (editor s))).
Proof.
  cbv zeta. unfold pasteClips. split.
  - intros [-> | Hempty]; [reflexivity|].
    rewrite Hempty. destruct (findIndex _ _); reflexivity.
  - intros k Hk Hne. rewrite Hk.
    destruct (findIndex_Some _ _ _ Hk) as (tr & Htr & _ & _).
    destruct (Nat.ltb_spec 0 (length (clipboard s))) as [_|Hlen];
      [|destruct (clipboard s); [congruence|simpl in Hlen; lia]].
    store_fields.
    set (g := fun ic : nat * Clip => pastedClip (now (fst ic)) time (snd ic)).
    exists tr, (fold_left (fun track ic => pushClip (g ic) track)
                  (combine (seq 0 (length (clipboard s))) (clipboard s)) tr),
           (map g (combine (seq 0 (length (clipboard s))) (clipboard s))).
    split; [exact Htr|]. split.
    { rewrite list_lookup_alter_eq, Htr. reflexivity. }
    rewrite pushClips_fold. cbn [trackId clips].
    split; [reflexivity|]. split; [reflexivity|]. split.
    { rewrite length_map, length_combine, length_seq. lia. }
    split; [|split; [|reflexivity]].
    + intros i c Hc. exists (g (i, c)). split.
      * rewrite list_lookup_fmap.
        assert (E : combine (seq 0 (length (clipboard s))) (clipboard s) !! i
                    = Some (i, c)).
        { apply lookup_zip_with_Some. exists i, c. split; [reflexivity|].
          split; [|exact Hc]. apply lookup_seq_lt. eapply lookup_lt_Some, Hc. }
        rewrite E. reflexivity.
      * unfold g, pastedClip. cbn. repeat split; try reflexivity. ring.
    + intros j Hj. apply list_lookup_alter_ne. congruence.
Qed.

Lemma pasteClips_stacks_copies_witness :
  exists tr',
    tracks (timeline (editor
      (pasteClips (fun _ => 17%Z)
         (copyClips (onEditor (fun e => selectClip (addClip e "video-track-1" clipB) "B" false)
                              defaultStore))
         "audio-track-1" 5))) !! 1%nat = Some tr' /\
    map id (clips tr') = ["B-copy-17"] /\ map startTime (clips tr') = [5].
Proof.
  destruct (pasteClips_stacks_copies (fun _ => 17%Z)
              (copyClips (onEditor (fun e => selectClip (addClip e "video-track-1" clipB) "B" false)
                                   defaultStore))
              "audio-track-1" 5) as [_ H].
  destruct (H 1%nat eq_refl ltac:(discriminate))
    as (tr & tr' & pasted & Htr & Htr' & _ & Hclips & Hlen & Hpasted & _).
  exists tr'. split; [exact Htr'|].
  injection Htr as <-. simpl in Hclips.
  destruct (Hpasted 0%nat clipB eq_refl) as (c' & Hc' & Hid & Hstart & _).
  destruct pasted as [|c1 [|c2 pasted]]; try discriminate Hlen.
  injection Hc' as ->. rewrite Hclips. simpl. rewrite Hid, Hstart.
  split; reflexivity.
Defined.

(** * Track actions *)

(** X15: [addTrack] appends one empty, visible, unmuted, unlocked track of
    the given type and leaves the existing tracks, the duration and the
    selection alone.  Its id is "<type>-track-<n+1>" where [n] is the
    number of tracks of that type at that moment, so the track ids stay
    without repetition exactly when that id is not yet in use; and it can
    be: adding a video track to the initial state, removing
    "video-track-1" and adding a video track again gives two tracks with
    the id "video-track-2". *)
Theorem addTrack_id_from_count (st : EditorState) (type : TrackType) :
  let ids := map trackId (tracks (timeline st)) in
  let n := length (List.filter (fun t => sameType (trackType t) type)
                               (tracks (timeline st))) in
  let newId := (typeName type +:+ "-track-" +:+ pretty (n + 1)%nat)%string in
  let st' := addTrack st type in
  tracks (timeline st')
  = tracks (timeline st) ++ [mkTrack newId type false false true []] /\
  timelineDuration (timeline st') = timelineDuration (timeline st) /\
  selectedClips st' = selectedClips st /\
  (NoDup (map trackId (tracks (timeline st'))) <-> NoDup ids /\ ~ In newId ids) /\
  (exists s, reachable s /\ ~ NoDup (map trackId (tracks (timeline (editor s))))).
Proof.
  cbv zeta. unfold addTrack. store_fields.
  split; [reflexivity|]. split; [reflexivity|]. split; [reflexivity|]. split.
  - rewrite map_app. cbn [map trackId]. rewrite NoDup_app. split.
    + intros (Hnd & Hnot & _). split; [exact Hnd|].
      intros Hin. apply list_elem_of_In in Hin.
      apply (Hnot _ Hin). constructor.
    + intros [Hnd Hnot]. split; [exact Hnd|]. split; [|apply NoDup_singleton].
      intros x Hx Hin. apply list_elem_of_In in Hx.
      apply list_elem_of_In in Hin. destruct Hin as [<-|[]]. contradiction.
  - exists (onEditor (fun e => addTrack e video)
              (removeTrack (onEditor (fun e => addTrack e video) defaultStore)
                           "video-track-1")).
    split; [apply reach_addTrack, reach_removeTrack, reach_addTrack, reach_default|].
    assert (E : map trackId (tracks (timeline (editor
                  (onEditor (fun e => addTrack e video)
                     (removeTrack (onEditor (fun e => addTrack e video) defaultStore)
                                  "video-track-1")))))
                = ["audio-track-1"; "video-track-2"; "video-track-2"]).
    { vm_compute. reflexivity. }
    rewrite E. intros Hnd.
    apply NoDup_cons in Hnd as [_ Hnd]. apply NoDup_cons in Hnd as [Hnot _].
    apply Hnot. constructor.
Qed.

Lemma find_trackId (l : list Track) (i : string) (t : Track) :
  List.find (fun t => String.eqb (trackId t) i) l = Some t ->
  In t l /\ trackId t = i.
Proof.
  intros H. apply find_some in H. destruct H as [Hin E].
  apply String.eqb_eq in E. split; assumption.
Qed.

Lemma NoDup_map_inj {A B : Type} (f : A -> B) (l : list A) (x y : A) :
  NoDup (map f l) -> In x l -> In y l -> f x = f y -> x = y.
Proof.
  induction l as [|z l IH]; [contradiction|]. cbn [map].
  intros Hnd Hx Hy E. apply NoDup_cons in Hnd as [Hz Hnd].
  destruct Hx as [->|Hx], Hy as [->|Hy].
  - reflexivity.
  - exfalso. apply Hz. rewrite E. apply list_elem_of_In, in_map, Hy.
  - exfalso. apply Hz. rewrite <- E. apply list_elem_of_In, in_map, Hx.
  - apply IH; assumption.
Qed.

Lemma find_unique (l : list Track) (t : Track) :
  NoDup (map trackId l) -> In t l ->
  List.find (fun t' => String.eqb (trackId t') (trackId t)) l = Some t.
Proof.
  intros Hnd Hin.
  destruct (List.find (fun t' => String.eqb (trackId t') (trackId t)) l) as [t'|] eqn:E.
  - apply find_trackId in E as [Hin' Hid]. f_equal.
    eapply NoDup_map_inj; eassumption.
  - exfalso. pose proof (find_none _ _ E t Hin) as H. cbn in H.
    rewrite String.eqb_refl in H. discriminate.
Qed.

Lemma omap_length_le {A B : Type} (f : A -> option B) (l : list A) :
  (length (omap f l) <= length l)%nat.
Proof.
  induction l as [|x l IH]; [reflexivity|]. cbn [omap list_omap].
  destruct (f x); simpl; lia.
Qed.

Lemma In_omap_find (l : list Track) (ids : list string) (t : Track) :
  In t (omap (fun i => List.find (fun t => String.eqb (trackId t) i) l) ids) ->
  In t l /\ In (trackId t) ids.
Proof.
  intros H. apply list_elem_of_In, list_elem_of_omap in H.
  destruct H as (i & Hi & Hfind). apply find_trackId in Hfind as [Hin <-].
  split; [exact Hin|apply list_elem_of_In, Hi].
Qed.

Lemma map_omap_find (l : list Track) (ids : list string) :
  (forall i, In i ids -> In i (map trackId l)) ->
  map trackId (omap (fun i => List.find (fun t => String.eqb (trackId t) i) l) ids)
  = ids.
Proof.
  induction ids as [|i ids IH]; intros Hall; [reflexivity|].
  cbn [omap list_omap].
  destruct (List.find (fun t => String.eqb (trackId t) i) l) as [t|] eqn:E.
  - cbn [map]. apply find_trackId in E as [_ ->]. f_equal.
    apply IH. intros j Hj. apply Hall. right. exact Hj.
  - exfalso. specialize (Hall i (or_introl eq_refl)).
    apply in_map_iff in Hall as (t & Hid & Hin).
    pose proof (find_none _ _ E t Hin) as H. cbn in H.
    rewrite Hid, String.eqb_refl in H. discriminate.
Qed.

(** X16: [reorderTracks] keeps only tracks that exist and are named in the
    list: an id that names no track is skipped, and a track that the list
    does not name is dropped from the timeline.  When the track ids are
    without repetition, every named track is kept, and a list that is a
    rearrangement of all the track ids gives the same tracks in exactly the
    order of the list.  Duration and selection are not touched. *)
Theorem reorderTracks_follows_list (st : EditorState) (trackIds : list string) :
  let old := tracks (timeline st) in
  let new := tracks (timeline (reorderTracks st trackIds)) in
  (forall t, In t new -> In t old /\ In (trackId t) trackIds) /\
  (length new <= length trackIds)%nat /\
  (NoDup (map trackId old) ->
     (forall t, In t old -> In (trackId t) trackIds -> In t new) /\
     (Permutation trackIds (map trackId old) ->
        map trackId new = trackIds /\ Permutation new old)) /\
  timelineDuration (timeline (reorderTracks st trackIds))
  = timelineDuration (timeline st) /\
  selectedClips (reorderTracks st trackIds) = selectedClips st.
Proof.
  cbv zeta. unfold reorderTracks. store_fields.
  set (old := tracks (timeline st)).
  set (new := omap (fun i => List.find (fun t => String.eqb (trackId t) i) old)
                   trackIds).
  split; [intros t; apply In_omap_find|].
  split; [apply omap_length_le|].
  split; [|split; reflexivity].
  intros Hnd.
  assert (Hkept : forall t, In t old -> In (trackId t) trackIds -> In t new).
  { intros t Hin Hid. apply list_elem_of_In, list_elem_of_omap.
    exists (trackId t). split; [apply list_elem_of_In, Hid|].
    apply find_unique; assumption. }
  split; [exact Hkept|]. intros Hperm.
  assert (Hids : map trackId new = trackIds).
  { apply map_omap_find. intros i Hi. rewrite <- Hperm. exact Hi. }
  split; [exact Hids|].
  apply NoDup_Permutation.
  - apply (NoDup_fmap_1 trackId). change (NoDup (map trackId new)).
    rewrite Hids, Hperm. exact Hnd.
  - apply (NoDup_fmap_1 trackId). exact Hnd.
  - intros t. rewrite !list_elem_of_In. split.
    + intros H. apply (In_omap_find old trackIds t H).
    + intros H. apply Hkept; [exact H|].
      rewrite Hperm. apply in_map, H.
Qed.

Lemma reorderTracks_follows_list_witness :
  map trackId (tracks (timeline
    (reorderTracks defaultState ["audio-track-1"; "video-track-1"])))
  = ["audio-track-1"; "video-track-1"].
Proof.
  destruct (reorderTracks_follows_list defaultState ["audio-track-1"; "video-track-1"])
    as (_ & _ & H & _).
  destruct H as [_ H].
  - simpl. apply NoDup_cons. split; [|apply NoDup_singleton].
    intros Hin. apply list_elem_of_In in Hin. destruct Hin as [E|[]]. discriminate E.
  - apply H. simpl. apply perm_swap.
Defined.

(** * The history *)

Lemma store_eta (s : Store) :
  mkStore (editor s) (transport s) (zoom s) (selectedTracks s) (clipboard s)
          (history s) (historyIndex s) (ui s) (playback s) = s.
Proof. destruct s; reflexivity. Qed.

(** X17: [undo] and [redo] only move the history index: the timeline, the
    selection, the clipboard and the history itself stay as they are.
    Once an action is recorded the index never returns below 0, so at
    index 0 [undo] does nothing; [undo] after [redo] and [redo] after
    [undo] come back to the same state whenever the first of the two
    moved.  [addToHistory] drops the entries after the current index,
    appends the new entry with the clock reading and makes it current, so
    that nothing is left to redo. *)
Theorem history_index_moves (now : Z) (s : Store) (type descr : string) :
  ((history s = [] /\ historyIndex s = (-1)%Z) \/
   (0 <= historyIndex s < Z.of_nat (length (history s)))%Z) ->
  let recorded := addToHistory now s type descr in
  (editor (undo s) = editor s /\ clipboard (undo s) = clipboard s /\
   history (undo s) = history s /\
   editor (redo s) = editor s /\ clipboard (redo s) = clipboard s /\
   history (redo s) = history s) /\
  ((0 <= historyIndex s)%Z -> (0 <= historyIndex (undo s))%Z) /\
  (historyIndex s = 0%Z -> undo s = s) /\
  ((0 < historyIndex s)%Z -> redo (undo s) = s) /\
  ((0 <= historyIndex s < Z.of_nat (length (history s)) - 1)%Z ->
   undo (redo s) = s) /\
  history recorded
  = take (Z.to_nat (historyIndex s + 1)) (history s)
    ++ [mkEditorAction type descr now] /\
  historyIndex recorded = (historyIndex s + 1)%Z /\
  redo recorded = recorded /\
  editor recorded = editor s.
Proof.
  intros Hinv. cbv zeta.
  split; [|split; [|split; [|split; [|split; [|split; [|split; [|split]]]]]]].
  - unfold undo, redo. destruct (_ <? _)%Z, (_ <? _)%Z; repeat split.
  - intros H0. unfold undo. destruct (Z.ltb_spec 0 (historyIndex s)); cbn; lia.
  - intros H0. unfold undo. rewrite H0. reflexivity.
  - intros Hpos. unfold undo.
    destruct (Z.ltb_spec 0 (historyIndex s)); [|lia].
    unfold redo. store_fields.
    destruct (Z.ltb_spec (historyIndex s - 1) (Z.of_nat (length (history s)) - 1));
      [|lia].
    unfold setHistoryIndex. store_fields.
    replace (historyIndex s - 1 + 1)%Z with (historyIndex s) by lia.
    apply store_eta.
  - intros Hin. unfold redo.
    destruct (Z.ltb_spec (historyIndex s) (Z.of_nat (length (history s)) - 1));
      [|lia].
    unfold undo. store_fields.
    destruct (Z.ltb_spec 0 (historyIndex s + 1)); [|lia].
    unfold setHistoryIndex. store_fields.
    replace (historyIndex s + 1 - 1)%Z with (historyIndex s) by lia.
    apply store_eta.
  - unfold addToHistory, spliceFrom. store_fields.
    destruct (Z.ltb_spec (historyIndex s + 1) 0); [lia|].
    f_equal. destruct (Z.min_spec (historyIndex s + 1) (Z.of_nat (length (history s))))
      as [[_ ->]|[Hge ->]]; [reflexivity|].
    rewrite Nat2Z.id. rewrite !take_ge by lia. reflexivity.
  - unfold addToHistory, spliceFrom. store_fields.
    destruct (Z.ltb_spec (historyIndex s + 1) 0); [lia|].
    rewrite length_app, length_take. simpl. lia.
  - unfold redo, addToHistory. store_fields.
    rewrite Z.ltb_irrefl. reflexivity.
  - reflexivity.
Qed.

Lemma history_index_moves_witness :
  historyIndex (addToHistory 1000 defaultStore "clip" "add a clip") = 0%Z /\
  undo (addToHistory 1000 defaultStore "clip" "add a clip")
  = addToHistory 1000 defaultStore "clip" "add a clip".
Proof.
  destruct (history_index_moves 1000 defaultStore "clip" "add a clip")
    as (_ & _ & _ & _ & _ & _ & Hidx & _).
  - left. split; reflexivity.
  - split; [exact Hidx|].
    destruct (history_index_moves 5 (addToHistory 1000 defaultStore "clip" "add a clip")
                "x" "y") as (_ & _ & Hundo & _).
    + right. simpl. lia.
    + apply Hundo. reflexivity.
Defined.

(** * Hiding and muting a track *)

Lemma In_clips_of (P : Track -> bool) (l : list Track) (c : Clip) :
  In c (flat_map clips (List.filter P l)) <->
  exists j tr, l !! j = Some tr /\ P tr = true /\ In c (clips tr).
Proof.
  rewrite in_flat_map. split.
  - intros (tr & Hin & Hc). apply filter_In in Hin as [Hin HP].
    apply list_elem_of_In, list_elem_of_lookup in Hin as [j Hj].
    exists j, tr. auto.
  - intros (j & tr & Hj & HP & Hc). exists tr. split; [|exact Hc].
    apply filter_In. split; [|exact HP].
    apply list_elem_of_In, list_elem_of_lookup. eauto.
Qed.

(** The clips selected from the tracks that pass [P] do not change when
    one track is replaced by a track with the same clips and the same
    verdict of [P]. *)
Lemma clips_of_alter (P : Track -> bool) (f : Track -> Track) (k : nat)
    (l : list Track) :
  (forall t, P (f t) = P t) -> (forall t, clips (f t) = clips t) ->
  flat_map clips (List.filter P (alter f k l)) = flat_map clips (List.filter P l).
Proof.
  intros HP Hc. revert k. induction l as [|t l IH]; intros k; [reflexivity|].
  destruct k as [|k]; cbn [alter list_alter List.filter].
  - rewrite HP. destruct (P t); cbn [flat_map]; [rewrite Hc|]; reflexivity.
  - destruct (P t); cbn [flat_map]; rewrite (IH k); reflexivity.
Qed.

Lemma In_clips_of_alter_off (P : Track -> bool) (f : Track -> Track) (k : nat)
    (l : list Track) (c : Clip) :
  (forall t, P (f t) = false) ->
  In c (flat_map clips (List.filter P (alter f k l))) <->
  exists j tr, j <> k /\ l !! j = Some tr /\ P tr = true /\ In c (clips tr).
Proof.
  intros Hoff. rewrite In_clips_of. split.
  - intros (j & tr & Hj & HP & Hc). destruct (decide (j = k)) as [->|Hne].
    + rewrite list_lookup_alter_eq in Hj.
      destruct (l !! k) as [t|]; [|discriminate]. injection Hj as <-.
      rewrite Hoff in HP. discriminate.
    + rewrite list_lookup_alter_ne in Hj by congruence.
      exists j, tr. auto.
  - intros (j & tr & Hne & Hj & HP & Hc). exists j, tr.
    rewrite list_lookup_alter_ne by congruence. auto.
Qed.

(** X18: hiding a track through [updateTrack] takes exactly its clips out
    of the preview and out of the video export, and leaves the audio
    export as it was: an audio track that is hidden is still exported.
    Muting a track takes exactly its clips out of the audio export and
    leaves the preview and the video export as they were.  (The track is
    the first one with the given id.) *)
Theorem updateTrack_hide_and_mute (st : EditorState) (tid : string) (k : nat)
    (t0 : Q) :
  findIndex (fun t => String.eqb (trackId t) tid) (tracks (timeline st)) = Some k ->
  let old := tracks (timeline st) in
  let hidden :=
    timeline (updateTrack st tid
                (mkTrackUpdates None None None None (Some false) None)) in
  let silenced :=
    timeline (updateTrack st tid
                (mkTrackUpdates None None (Some true) None None None)) in
  (forall c, In c (visibleClips hidden t0) <->
     exists j tr, j <> k /\ old !! j = Some tr /\ visible tr = true /\
                  In c (clips tr) /\ isActive t0 c = true) /\
  (forall c, In c (exportVideoClips hidden) <->
     exists j tr, j <> k /\ old !! j = Some tr /\
                  isVideoTrack tr = true /\ visible tr = true /\
                  In c (clips tr) /\ hasFile c = true) /\
  exportAudioClips hidden = exportAudioClips (timeline st) /\
  (forall c, In c (exportAudioClips silenced) <->
     exists j tr, j <> k /\ old !! j = Some tr /\
                  isAudioTrack tr = true /\ muted tr = false /\
                  In c (clips tr) /\ hasFile c = true) /\
  visibleClips silenced t0 = visibleClips (timeline st) t0 /\
  exportVideoClips silenced = exportVideoClips (timeline st).
Proof.
  intros Hk. cbv zeta. unfold updateTrack. rewrite Hk. store_fields.
  unfold visibleClips, exportVideoClips, exportAudioClips. cbn [tracks].
  split; [|split; [|split; [|split; [|split]]]].
  - intros c. rewrite sortBy_In, filter_In.
    rewrite (In_clips_of_alter_off visible) by reflexivity.
    split.
    + intros [(j & tr & H1 & H2 & H3 & H4) H5]. exists j, tr. auto.
    + intros (j & tr & H1 & H2 & H3 & H4 & H5). split; [|exact H5].
      exists j, tr. auto.
  - intros c. rewrite sortBy_In, filter_In.
    rewrite (In_clips_of_alter_off (fun t => isVideoTrack t && visible t))
      by (intros t; apply andb_false_r).
    split.
    + intros [(j & tr & H1 & H2 & H3 & H4) H5].
      apply andb_true_iff in H3 as [H3 H3']. exists j, tr. auto 10.
    + intros (j & tr & H1 & H2 & H3 & H3' & H4 & H5). split; [|exact H5].
      exists j, tr. rewrite H3, H3'. auto.
  - rewrite clips_of_alter; reflexivity.
  - intros c. rewrite sortBy_In, filter_In.
    rewrite (In_clips_of_alter_off (fun t => isAudioTrack t && negb (muted t)))
      by (intros t; apply andb_false_r).
    split.
    + intros [(j & tr & H1 & H2 & H3 & H4) H5].
      apply andb_true_iff in H3 as [H3 H3']. apply negb_true_iff in H3'.
      exists j, tr. auto 10.
    + intros (j & tr & H1 & H2 & H3 & H3' & H4 & H5). split; [|exact H5].
      exists j, tr. rewrite H3, H3'. auto.
  - rewrite clips_of_alter; reflexivity.
  - rewrite clips_of_alter; reflexivity.
Qed.

Lemma updateTrack_hide_and_mute_witness :
  In (demoClip "a" 1 5)
     (visibleClips
        (timeline (updateTrack (mkEditorState demoTimeline []) "text-track-1"
                     (mkTrackUpdates None None None None (Some false) None)))
        2) <->
  exists j tr, j <> 2%nat /\ tracks demoTimeline !! j = Some tr /\
               visible tr = true /\ In (demoClip "a" 1 5) (clips tr) /\
               isActive 2 (demoClip "a" 1 5) = true.
Proof.
  apply (updateTrack_hide_and_mute (mkEditorState demoTimeline []) "text-track-1"
           2 2).
  reflexivity.
Defined.

(** * Resizing a clip *)



(** * The clips chosen for the export *)

Lemma insertBy_sorted (x : Clip) (l : list Clip) :
  StronglySorted (fun a b => startTime a <= startTime b) l ->
  StronglySorted (fun a b => startTime a <= startTime b) (insertBy byStartTime x l).
Proof.
  induction 1 as [|y l Hsorted IH Hall]; cbn [insertBy].
  - constructor; constructor.
  - destruct (Qle_bool (byStartTime x y) 0) eqn:E.
    + apply Qle_bool_iff in E. unfold byStartTime in E.
      constructor; [constructor; assumption|].
      constructor; [lra|].
      eapply Forall_impl; [exact Hall|].
      intros z Hz. simpl in Hz. lra.
    + assert (Hlt : startTime y <= startTime x).
      { apply Qlt_le_weak, Qnot_le_lt. intros Hle.
        assert (H : Qle_bool (byStartTime x y) 0 = true).
        { apply Qle_bool_iff. unfold byStartTime. lra. }
        congruence. }
      constructor; [exact IH|].
      apply Forall_forall. intros z Hz. apply list_elem_of_In in Hz.
      apply (Permutation_in _ (insertBy_perm byStartTime x l)) in Hz.
      destruct Hz as [<-|Hz]; [exact Hlt|].
      rewrite Forall_forall in Hall. apply Hall, list_elem_of_In, Hz.
Qed.

Lemma sortBy_sorted (l : list Clip) :
  StronglySorted (fun a b => startTime a <= startTime b) (sortBy byStartTime l).
Proof.
  induction l as [|x l IH]; [constructor|]. apply insertBy_sorted, IH.
Qed.

(** X21: the clips handed to the video half of the export are exactly the
    clips with a file on the visible video tracks, and those handed to
    the audio half exactly the clips with a file on the unmuted audio
    tracks (whether an audio track is visible plays no part); both lists
    are in ascending order of start time, whatever the tracks the clips
    come from, and sorting neither drops nor repeats a clip: each list is
    a permutation of the clips it was made from. *)
Theorem export_clips_sorted_by_start (tl : Timeline) :
  StronglySorted (fun a b => startTime a <= startTime b) (exportVideoClips tl) /\
  StronglySorted (fun a b => startTime a <= startTime b) (exportAudioClips tl) /\
  (forall c, In c (exportVideoClips tl) <->
     exists j tr, tracks tl !! j = Some tr /\ trackType tr = video /\
                  visible tr = true /\ In c (clips tr) /\ is_Some (file c)) /\
  (forall c, In c (exportAudioClips tl) <->
     exists j tr, tracks tl !! j = Some tr /\ trackType tr = audio /\
                  muted tr = false /\ In c (clips tr) /\ is_Some (file c)) /\
  Permutation (exportVideoClips tl)
    (List.filter hasFile
       (flat_map clips
          (List.filter (fun t => isVideoTrack t && visible t) (tracks tl)))) /\
  Permutation (exportAudioClips tl)
    (List.filter hasFile
       (flat_map clips
          (List.filter (fun t => isAudioTrack t && negb (muted t)) (tracks tl)))).
Proof.
  split; [apply sortBy_sorted|]. split; [apply sortBy_sorted|].
  unfold exportVideoClips, exportAudioClips.
  split; [|split; [|split]].
  - intros c. rewrite sortBy_In, filter_In, In_clips_of.
    unfold hasFile, isVideoTrack. rewrite bool_decide_eq_true. split.
    + intros [(j & tr & Hj & HP & Hc) Hf].
      apply andb_true_iff in HP as [Hv Hvis].
      exists j, tr. destruct (trackType tr); try discriminate. auto.
    + intros (j & tr & Hj & Hty & Hvis & Hc & Hf). split; [|exact Hf].
      exists j, tr. rewrite Hty, Hvis. auto.
  - intros c. rewrite sortBy_In, filter_In, In_clips_of.
    unfold hasFile, isAudioTrack. rewrite bool_decide_eq_true. split.
    + intros [(j & tr & Hj & HP & Hc) Hf].
      apply andb_true_iff in HP as [Hv Hm]. apply negb_true_iff in Hm.
      exists j, tr. destruct (trackType tr); try discriminate. auto.
    + intros (j & tr & Hj & Hty & Hm & Hc & Hf). split; [|exact Hf].
      exists j, tr. rewrite Hty, Hm. auto.
  - apply sortBy_perm.
  - apply sortBy_perm.
Qed.

(** * Volume changes composed *)

(** X22: two volume changes in a row multiply: every sample of
    [changeVolume (changeVolume b f) g] is the input sample times [f * g].
    And normalization cancels a preceding volume change by a positive
    factor: normalizing [changeVolume b f] gives the same samples as
    normalizing [b] itself, so a clip's volume has no effect on what a
    later normalize effect returns. *)
Theorem normalizeAudio_cancels_volume (p : AudioProcessor) (b : AudioBuffer)
    (f g : Q) :
  is_Some (audioContext p) ->
  wfBuffer b ->
  exists v w,
    changeVolume p b f = Ok v /\ wfBuffer v /\
    changeVolume p v g = Ok w /\
    (forall c i, (c < numberOfChannels b)%nat -> (i < bufLength b)%nat ->
       sample (getChannelData w c) i == sample (getChannelData b c) i * (f * g)) /\
    (0 < f ->
     exists n n',
       normalizeAudio p v = Ok n /\ normalizeAudio p b = Ok n' /\
       numberOfChannels n = numberOfChannels n' /\ bufLength n = bufLength n' /\
       forall c i, (c < numberOfChannels b)%nat -> (i < bufLength b)%nat ->
         sample (getChannelData n c) i == sample (getChannelData n' c) i).
Proof.
  intros Hctx Hwf.
  pose proof (wfBuffer_scaled b f Hwf) as Hwfv.
  exists (scaled b f), (scaled (scaled b f) g).
  split; [apply changeVolume_map; assumption|]. split; [exact Hwfv|].
  split; [apply changeVolume_map; assumption|]. split.
  - intros c i Hc Hi.
    rewrite (sample_scaled (scaled b f) g c i Hwfv Hc Hi).
    rewrite (sample_scaled b f c i Hwf Hc Hi). ring.
  - intros Hf.
    pose proof (findPeak_scaled b f Hwf (Qlt_le_weak _ _ Hf)) as Hpeak.
    destruct (Qeq_dec (findPeak b) 0) as [Hzero|Hnz].
    + exists (scaled b f), b.
      split; [apply normalizeAudio_silent; [exact Hctx|]|].
      { rewrite Hpeak, Hzero. ring. }
      split; [apply normalizeAudio_silent; assumption|].
      split; [reflexivity|]. split; [reflexivity|].
      intros c i Hc Hi. rewrite (sample_scaled b f c i Hwf Hc Hi).
      destruct (findPeak_is_peak b Hwf) as (_ & Hbound & _).
      specialize (Hbound c i Hc Hi). rewrite Hzero in Hbound.
      assert (E : sample (getChannelData b c) i == 0).
      { apply Qabs_Qle_condition in Hbound. lra. }
      rewrite E. ring.
    + assert (Hnzv : ~ findPeak (scaled b f) == 0).
      { rewrite Hpeak. intros H. apply Qmult_integral in H. destruct H; lra. }
      destruct (normalizeAudio_scales p (scaled b f) Hctx Hwfv Hnzv) as [Hn _].
      destruct (normalizeAudio_scales p b Hctx Hwf Hnz) as [Hn' _].
      eexists _, _. split; [exact Hn|]. split; [exact Hn'|].
      split; [reflexivity|]. split; [reflexivity|].
      intros c i Hc Hi.
      rewrite (sample_scaled (scaled b f) _ c i Hwfv Hc Hi).
      rewrite (sample_scaled b f c i Hwf Hc Hi).
      rewrite (sample_scaled b _ c i Hwf Hc Hi).
      rewrite Hpeak. field. split; lra.
Qed.

Lemma normalizeAudio_cancels_volume_witness :
  exists v w,
    changeVolume demoProcessor demoMono 3 = Ok v /\ wfBuffer v /\
    changeVolume demoProcessor v (1 # 2) = Ok w /\
    (forall c i, (c < numberOfChannels demoMono)%nat -> (i < bufLength demoMono)%nat ->
       sample (getChannelData w c) i
       == sample (getChannelData demoMono c) i * (3 * (1 # 2))) /\
    (0 < 3 ->
     exists n n',
       normalizeAudio demoProcessor v = Ok n /\
       normalizeAudio demoProcessor demoMono = Ok n' /\
       numberOfChannels n = numberOfChannels n' /\ bufLength n = bufLength n' /\
       forall c i, (c < numberOfChannels demoMono)%nat -> (i < bufLength demoMono)%nat ->
         sample (getChannelData n c) i == sample (getChannelData n' c) i).
Proof.
  apply (normalizeAudio_cancels_volume demoProcessor demoMono 3 (1 # 2)).
  - eexists. reflexivity.
  - apply wfBufferb_spec. reflexivity.
Defined.

(** * An export with video and audio *)

(** Run the monadic steps of an export block that are at the head. *)
Ltac run_steps :=
  repeat (first [rewrite run_bind | rewrite run_call | rewrite run_ret];
          cbv beta iota).

Section CombinedExport.
Variable ffmpegLoad : result unit.
Variable decodeAudioData : File -> AudioBuffer.
Variables renderLowPass renderHighPass renderReverb
  : AudioBuffer -> Q -> AudioBuffer.
Variable p : AudioProcessor.
Variable videoLoaded : bool.

Lemma processVideoClips_video_calls (clips : list Clip) :
  emits (fun c => isVideoService c = true) (processVideoClips clips).
Proof. unfold processVideoClips. repeat emits_step. Qed.

Lemma processAudioClips_audio_calls (clips : list Clip) :
  emits (fun c => isAudioService c = true)
    (processAudioClips decodeAudioData renderLowPass renderHighPass renderReverb
                       p clips).
Proof.
  unfold processAudioClips, mixAudioClips, collectAudioBuffers, applyEffect.
  repeat emits_step.
Qed.

Lemma processAudioClips_wav (clips : list Clip) (log : list Call) (b : Blob) :
  snd (processAudioClips decodeAudioData renderLowPass renderHighPass renderReverb
         p clips log) = Ok b ->
  exists bytes, b = WavBlob bytes.
Proof.
  unfold processAudioClips. rewrite run_bind.
  destruct (mixAudioClips _ _ _ _ _ _ _) as [log' [mixed|msg]]; [|discriminate].
  rewrite run_bind, run_call. cbv beta iota. rewrite run_ret. cbn [snd].
  intros [= <-]. eexists. reflexivity.
Qed.

(** X23: an export of a timeline with both video and audio clips that
    succeeds runs in this order: the three setup calls; calls that work on
    video only; progress 80; calls that work on audio only; progress 90;
    one [addAudioToVideo] call that joins the video blob with the WAV
    blob; one [convertToFormat] call unless the settings are (mp4, high);
    progress 95; the download of the joined (and possibly converted) blob;
    progress 100. *)
Theorem export_joins_video_and_audio (tl : Timeline) (settings : ExportSettings) :
  let run := processTimelineExport ffmpegLoad decodeAudioData renderLowPass
               renderHighPass renderReverb p videoLoaded tl settings [] in
  exportVideoClips tl <> [] ->
  exportAudioClips tl <> [] ->
  snd run = Ok tt ->
  exists videoCalls audioCalls videoBlob wav,
    Forall (fun c => isVideoService c = true) videoCalls /\
    Forall (fun c => isAudioService c = true) audioCalls /\
    let joined := AudioAdded videoBlob (WavBlob wav) in
    fst run
    = [VideoInitialize; AudioInitialize; OnProgress] ++ videoCalls ++
      [SetExportProgress 80] ++ audioCalls ++
      [SetExportProgress 90; AddAudioToVideo videoBlob (WavBlob wav)] ++
      (if needsConversion settings
       then [ConvertToFormat joined (format settings) (quality settings);
             SetExportProgress 95;
             DownloadBlob (Converted joined (format settings) (quality settings));
             SetExportProgress 100]
       else [SetExportProgress 95; DownloadBlob joined; SetExportProgress 100]).
Proof.
  cbv zeta. intros Hv Ha. unfold processTimelineExport.
  rewrite setup_runs.
  destruct (if videoLoaded then Ok () else ffmpegLoad) as [[]|msg];
    [|intros H; discriminate H].
  destruct (initialize p) as [p'|msg]; [|intros H; discriminate H].
  destruct (exportVideoClips tl) as [|v vs]; [congruence|].
  destruct (exportAudioClips tl) as [|a al]; [congruence|].
  set (log0 := [VideoInitialize; AudioInitialize; OnProgress]).
  run_steps.
  destruct (processVideoClips_video_calls (v :: vs) log0)
    as (videoCalls & Hvlog & Hvcalls).
  destruct (processVideoClips (v :: vs) log0) as [log1 [videoBlob|msg]];
    [|intros H; discriminate H].
  cbn [fst] in Hvlog. subst log1. run_steps.
  destruct (processAudioClips_audio_calls (a :: al)
              ((log0 ++ videoCalls) ++ [SetExportProgress 80]))
    as (audioCalls & Halog & Hacalls).
  pose proof (processAudioClips_wav (a :: al)
                ((log0 ++ videoCalls) ++ [SetExportProgress 80])) as Hwav.
  destruct (processAudioClips _ _ _ _ _ _ _) as [log2 [audioBlob|msg]];
    [|intros H; discriminate H].
  cbn [fst] in Halog. subst log2.
  destruct (Hwav audioBlob eq_refl) as [wav ->]. run_steps.
  intros _. exists videoCalls, audioCalls, videoBlob, wav.
  split; [exact Hvcalls|]. split; [exact Hacalls|].
  destruct (needsConversion settings); run_steps; cbn [fst];
    rewrite <- !app_assoc; reflexivity.
Qed.

End CombinedExport.

Lemma export_joins_video_and_audio_witness :
  exists videoCalls audioCalls videoBlob wav,
    Forall (fun c => isVideoService c = true) videoCalls /\
    Forall (fun c => isAudioService c = true) audioCalls /\
    fst (processTimelineExport (Ok tt) demoDecode noRender noRender noRender
           demoProcessor false
           (timeline (addClip (addClip defaultState "video-track-1" clipA)
                              "audio-track-1" clipB))
           (mkExportSettings mp4 high) [])
    = [VideoInitialize; AudioInitialize; OnProgress] ++ videoCalls ++
      [SetExportProgress 80] ++ audioCalls ++
      [SetExportProgress 90; AddAudioToVideo videoBlob (WavBlob wav)] ++
      [SetExportProgress 95; DownloadBlob (AudioAdded videoBlob (WavBlob wav));
       SetExportProgress 100].
Proof.
  apply (export_joins_video_and_audio (Ok tt) demoDecode noRender noRender
           noRender demoProcessor false
           (timeline (addClip (addClip defaultState "video-track-1" clipA)
                              "audio-track-1" clipB))
           (mkExportSettings mp4 high)).
  - vm_compute. discriminate.
  - vm_compute. discriminate.
  - vm_compute. reflexivity.
Defined.

(** * The effects panel *)

Lemma findIndex_first {A : Type} (f : A -> bool) (l : list A) (i : nat) (x : A) :
  l !! i = Some x -> f x = true ->
  (forall j y, (j < i)%nat -> l !! j = Some y -> f y = false) ->
  findIndex f l = Some i.
Proof.
  revert i. induction l as [|z l IH]; intros i Hx Hfx Hbefore; [discriminate|].
  destruct i as [|i]; cbn [findIndex].
  - injection Hx as ->. rewrite Hfx. reflexivity.
  - rewrite (Hbefore 0%nat z ltac:(lia) eq_refl).
    rewrite (IH i Hx Hfx); [reflexivity|].
    intros j y Hj Hy. apply (Hbefore (S j) y); [lia|exact Hy].
Qed.

Lemma find_first {A : Type} (f : A -> bool) (l : list A) (x : A) :
  List.find f l = Some x ->
  exists i, l !! i = Some x /\ f x = true /\
            forall j y, (j < i)%nat -> l !! j = Some y -> f y = false.
Proof.
  induction l as [|z l IH]; [discriminate|]. cbn [List.find].
  destruct (f z) eqn:E.
  - intros [= ->]. exists 0%nat. split; [reflexivity|]. split; [exact E|].
    intros; lia.
  - intros H. destruct (IH H) as (i & Hi & Hfx & Hbefore).
    exists (S i). split; [exact Hi|]. split; [exact Hfx|].
    intros [|j] y Hj Hy; [injection Hy as <-; exact E|].
    apply (Hbefore j y); [lia|exact Hy].
Qed.

(** The first element of the concatenation that satisfies [f] is the
    first such element of its own list. *)
Lemma find_flat_map {A B : Type} (g : A -> list B) (f : B -> bool)
    (l : list A) (x : B) :
  List.find f (flat_map g l) = Some x ->
  exists k a i,
    l !! k = Some a /\ g a !! i = Some x /\ f x = true /\
    (forall j y, (j < i)%nat -> g a !! j = Some y -> f y = false) /\
    (forall k' a' y, (k' < k)%nat -> l !! k' = Some a' -> In y (g a') -> f y = false).
Proof.
  induction l as [|a l IH]; [discriminate|]. cbn [flat_map].
  intros H. destruct (List.find f (g a)) as [x'|] eqn:E.
  - assert (x' = x).
    { clear IH. revert H E. generalize (flat_map g l). intros rest.
      induction (g a) as [|z ga IHg]; [discriminate|]. cbn [app List.find].
      destruct (f z); [congruence|]. exact IHg. }
    subst x'. destruct (find_first f (g a) x E) as (i & Hi & Hfx & Hbefore).
    exists 0%nat, a, i. split; [reflexivity|]. split; [exact Hi|].
    split; [exact Hfx|]. split; [exact Hbefore|]. intros; lia.
  - assert (Hrest : List.find f (flat_map g l) = Some x).
    { clear IH. revert H E. generalize (flat_map g l). intros rest.
      induction (g a) as [|z ga IHg]; [intros H _; exact H|]. cbn [app List.find].
      destruct (f z); [discriminate|]. exact IHg. }
    destruct (IH Hrest) as (k & a0 & i & Hk & Hi & Hfx & Hbefore & Hearlier).
    exists (S k), a0, i. split; [exact Hk|]. split; [exact Hi|].
    split; [exact Hfx|]. split; [exact Hbefore|].
    intros [|k'] a' y Hk' Ha' Hy.
    + injection Ha' as <-. apply (find_none _ _ E y Hy).
    + apply (Hearlier k' a' y); [lia|exact Ha'|exact Hy].
Qed.

(** X24: the effects panel edits the first clip, in track order, whose id
    is selected (not the clip selected last).  Without such a clip
    [addEffect] changes nothing.  Otherwise the clip keeps its place, its
    id, its file and its times, and gets one more effect at the end of its
    list: of the chosen type, enabled, with intensity 50; no track before
    the clip's track holds a selected clip, and the selection is not
    touched. *)
Theorem addEffect_edits_first_selected (st : EditorState) (type : EffectType) :
  (selectedClip st = None -> addEffect st type = st) /\
  (forall clip, selectedClip st = Some clip ->
     exists k tr i tr' clip',
       tracks (timeline st) !! k = Some tr /\
       clips tr !! i = Some clip /\
       In (id clip) (selectedClips st) /\
       (forall k' t c, (k' < k)%nat -> tracks (timeline st) !! k' = Some t ->
          In c (clips t) -> ~ In (id c) (selectedClips st)) /\
       tracks (timeline (addEffect st type)) !! k = Some tr' /\
       clips tr' !! i = Some clip' /\
       length (clips tr') = length (clips tr) /\
       effects clip' = effects clip ++ [mkEffect type 50 ∅ true] /\
       id clip' = id clip /\ file clip' = file clip /\
       startTime clip' = startTime clip /\ endTime clip' = endTime clip /\
       volume clip' = volume clip /\
       selectedClips (addEffect st type) = selectedClips st).
Proof.
  unfold addEffect. split; [intros ->; reflexivity|].
  intros clip Hsel. rewrite Hsel. unfold selectedClip in Hsel.
  destruct (find_flat_map clips _ _ _ Hsel)
    as (k & tr & i & Hk & Hi & Hinc & Hbefore & Hearlier).
  apply includes_In in Hinc.
  assert (Hidx : findIndex (fun c => String.eqb (id c) (id clip)) (clips tr) = Some i).
  { apply (findIndex_first _ _ i clip Hi); [apply String.eqb_refl|].
    intros j y Hj Hy. apply String.eqb_neq. intros E.
    specialize (Hbefore j y Hj Hy).
    assert (Hy' : includes (selectedClips st) (id y) = true).
    { apply includes_In. rewrite E. exact Hinc. }
    congruence. }
  destruct (updateClip_assigns st (id clip)
              (mkClipUpdates None None None None None None
                 (Some (effects clip ++ [mkEffect type 50 ∅ true])))
              k i tr Hk Hidx) as (c0 & tr' & Hc0 & _ & Htr' & Hclips).
  assert (c0 = clip) by congruence. subst c0.
  eexists k, tr, i, tr', _. split; [exact Hk|]. split; [exact Hi|].
  split; [exact Hinc|]. split.
  { intros k' t c Hk' Ht Hc Hin.
    specialize (Hearlier k' t c Hk' Ht Hc).
    apply includes_In in Hin. congruence. }
  split; [exact Htr'|]. split.
  { rewrite Hclips. apply list_lookup_insert_eq. eapply lookup_lt_Some, Hi. }
  split; [rewrite Hclips; apply length_insert|].
  cbn. repeat split.
Qed.

Lemma addEffect_edits_first_selected_witness :
  exists k i tr' clip',
    tracks (timeline
      (addEffect (selectClip (addClip defaultState "video-track-1" clipB) "B" false)
                 blur)) !! k = Some tr' /\
    clips tr' !! i = Some clip' /\
    effects clip' = effects clipB ++ [mkEffect blur 50 ∅ true] /\
    id clip' = "B".
Proof.
  destruct (addEffect_edits_first_selected
              (selectClip (addClip defaultState "video-track-1" clipB) "B" false)
              blur) as [_ H].
  destruct (H clipB ltac:(vm_compute; reflexivity))
    as (k & tr & i & tr' & clip' & _ & _ & _ & _ & Htr' & Hclip' & _ & Heff & Hid & _).
  exists k, i, tr', clip'. repeat split; assumption.
Defined.
